(** * Clawdbot gateway core: a shallow embedding of the TypeScript sources

    The development follows the layout of the repository.  Each module below
    embeds one source file (or the part of it that the verified properties
    are about); the properties themselves are collected after all the
    definitions.

    Conventions.
    - A JavaScript string is a [string]: a sequence of code units, here the
      code units below 256.
    - A JavaScript number that holds a millisecond timestamp or a count is
      an integer ([Z] or [nat]); [Math.floor] is the identity on them.
    - An [async] function is embedded as the function it awaits to; effects
      (model calls, callbacks, file-system calls) are explicit state
      passing over a world type.
    - A [throw] is the [Throw] constructor of [outcome]. *)

From Stdlib Require Import ZArith Lia Bool List Ascii String DecimalString.
From stdpp Require Import base option list strings gmap.

Local Open Scope Z_scope.

(** ** JavaScript built-ins on strings *)

Module Js.

(** The result of a call that may throw. *)
Inductive outcome (E A : Type) : Type :=
| Ret (a : A)
| Throw (e : E).
Arguments Ret {E A} a.
Arguments Throw {E A} e.

Definition nl : string := String (ascii_of_nat 10) "".

(** White space of [String.prototype.trim] and of the regex class [\s],
    among the code units below 256: TAB, LF, VT, FF, CR, SPACE, NBSP. *)
Definition is_ws (c : ascii) : bool :=
  let n := nat_of_ascii c in
  ((9 <=? n) && (n <=? 13) || (n =? 32) || (n =? 160))%nat.

Fixpoint trimStart (s : string) : string :=
  match s with
  | String c s' => if is_ws c then trimStart s' else s
  | EmptyString => EmptyString
  end.

Fixpoint trimEnd (s : string) : string :=
  match s with
  | String c s' =>
      match trimEnd s' with
      | EmptyString => if is_ws c then EmptyString else String c EmptyString
      | r => String c r
      end
  | EmptyString => EmptyString
  end.

Definition trim (s : string) : string := trimEnd (trimStart s).

(** [!s] for a string. *)
Definition is_empty (s : string) : bool :=
  match s with EmptyString => true | _ => false end.

Fixpoint startsWith (s t : string) : bool :=
  match t, s with
  | EmptyString, _ => true
  | String b t', String a s' => Ascii.eqb a b && startsWith s' t'
  | String _ _, EmptyString => false
  end.

Fixpoint endsWith (s t : string) : bool :=
  String.eqb s t ||
  match s with
  | String _ s' => endsWith s' t
  | EmptyString => false
  end.

Fixpoint includes (s t : string) : bool :=
  startsWith s t ||
  match s with
  | String _ s' => includes s' t
  | EmptyString => false
  end.

(** [s.indexOf(t)], with [None] for -1. *)
Fixpoint indexOf (s t : string) : option nat :=
  if startsWith s t then Some 0%nat
  else match s with
       | String _ s' =>
           match indexOf s' t with
           | Some i => Some (S i)
           | None => None
           end
       | EmptyString => None
       end.

Fixpoint drop (n : nat) (s : string) : string :=
  match n, s with
  | S n', String _ s' => drop n' s'
  | _, _ => s
  end.

Fixpoint take (n : nat) (s : string) : string :=
  match n, s with
  | S n', String c s' => String c (take n' s')
  | _, _ => EmptyString
  end.

(** [s.slice(i, j)] for [0 <= i <= j]. *)
Definition slice (i j : nat) (s : string) : string :=
  take (j - i) (drop i s).

(** [s.slice(0, -n)] for [n <= s.length]. *)
Definition dropEnd (n : nat) (s : string) : string :=
  take (String.length s - n) s.

(** [s.replace(pat, rep)] with a string pattern and a replacement free of
    [$] patterns: the first occurrence only. *)
Definition replace_first (s pat rep : string) : string :=
  match indexOf s pat with
  | Some i => take i s +:+ rep +:+ drop (i + String.length pat) s
  | None => s
  end.

Definition lower_ascii (c : ascii) : ascii :=
  let n := nat_of_ascii c in
  if ((65 <=? n) && (n <=? 90))%nat then ascii_of_nat (n + 32)
  else if ((192 <=? n) && (n <=? 222) && negb (n =? 215))%nat
       then ascii_of_nat (n + 32)
       else c.

Fixpoint toLowerCase (s : string) : string :=
  match s with
  | String c s' => String (lower_ascii c) (toLowerCase s')
  | EmptyString => EmptyString
  end.

(** [s.replace(/\s+/g, " ")]: every maximal run of white space becomes
    one space.  [in_run] tells that the previous code unit was white
    space, whose run has already been replaced. *)
Fixpoint collapse_go (in_run : bool) (s : string) : string :=
  match s with
  | String c s' =>
      if is_ws c
      then if in_run then collapse_go true s'
           else String " " (collapse_go true s')
      else String c (collapse_go false s')
  | EmptyString => EmptyString
  end.

Definition collapse_ws (s : string) : string := collapse_go false s.

(** [s.split(sep)] for a one-character separator. *)
Fixpoint split_on (sep : ascii) (s : string) : list string :=
  match s with
  | String c s' =>
      if Ascii.eqb c sep then EmptyString :: split_on sep s'
      else match split_on sep s' with
           | p :: ps => String c p :: ps
           | [] => [String c EmptyString]
           end
  | EmptyString => [EmptyString]
  end.

(** [parts.join(sep)]. *)
Fixpoint join (sep : string) (parts : list string) : string :=
  match parts with
  | [] => EmptyString
  | [p] => p
  | p :: ps => p +:+ sep +:+ join sep ps
  end.

(** [String(n)] for a count. *)
Definition string_of_nat (n : nat) : string :=
  NilEmpty.string_of_uint (Nat.to_uint n).

Definition string_of_Z (z : Z) : string :=
  match z with
  | Z0 => "0"
  | Zpos p => string_of_nat (Pos.to_nat p)
  | Zneg p => "-" +:+ string_of_nat (Pos.to_nat p)
  end.

End Js.
Export Js.

(** ** packages/clawd-core/src/cron/schedule.ts: next-run computation *)

Module Schedule.

(** [CronSchedule]: the tagged union of [./types.ts]. *)
Inductive CronSchedule : Type :=
| At (atMs : Z)
| Every (everyMs : Z) (anchorMs : option Z)
| CronExpr (expr : string) (tz : option string).

(** The [croner] package is an external collaborator: constructing
    [new Cron(expr, {timezone})] throws on a pattern it cannot parse, and
    [nextRun(date)] is the next matching instant or [null]. *)
Definition Croner : Type :=
  string -> option string -> Z -> outcome string (option Z).

(** [schedule.tz?.trim() || undefined] *)
Definition cron_timezone (tz : option string) : option string :=
  match tz with
  | Some t => if is_empty (trim t) then None else Some (trim t)
  | None => None
  end.

Definition computeNextRunAtMs (croner : Croner)
    (schedule : CronSchedule) (nowMs : Z) : outcome string (option Z) :=
  match schedule with
  | At atMs => Ret (if nowMs <? atMs then Some atMs else None)
  | Every everyMs0 anchorMs =>
      let everyMs := Z.max 1 everyMs0 in
      let anchor := Z.max 0 (default nowMs anchorMs) in
      if nowMs <? anchor then Ret (Some anchor)
      else
        let elapsed := nowMs - anchor in
        let steps := Z.max 1 ((elapsed + everyMs - 1) / everyMs) in
        Ret (Some (anchor + steps * everyMs))
  | CronExpr expr0 tz =>
      let expr := trim expr0 in
      if is_empty expr then Ret None
      else croner expr (cron_timezone tz) nowMs
  end.

(** What the schedule code relies on from [croner]: [nextRun(date)] looks
    forward, so an instant it returns for a pattern and a time zone does
    not lie before [date].  Only a cron expression reaches [croner]; the
    other kinds need nothing from it. *)
Definition croner_not_before (croner : Croner) (schedule : CronSchedule)
  : Prop :=
  match schedule with
  | CronExpr expr tz =>
      forall t n, croner (trim expr) (cron_timezone tz) t = Ret (Some n) ->
                  t <= n
  | At _ | Every _ _ => True
  end.

End Schedule.

(** ** JavaScript values, as the untyped inputs of the normalizers see them *)

Module Value.

(** The values [JSON5.parse] and tool calls hand over.  An object is a
    finite map from property names to values; a missing property reads as
    [undefined]. *)
#[warnings="-register-all"]
Inductive JsVal : Type :=
| JUndef
| JNull
| JBool (b : bool)
| JNum (n : Z)
| JStr (s : string)
| JArr (items : list JsVal)
| JObj (props : gmap string JsVal).

Abbreviation UnknownRecord := (gmap string JsVal).

(** [obj.key] *)
Definition get (obj : UnknownRecord) (key : string) : JsVal :=
  default JUndef (obj !! key).

(** [typeof value === "object" && value !== null && !Array.isArray(value)] *)
Definition isRecord (v : JsVal) : bool :=
  match v with JObj _ => true | _ => false end.

Definition isString (v : JsVal) : bool :=
  match v with JStr _ => true | _ => false end.

Definition isNumber (v : JsVal) : bool :=
  match v with JNum _ => true | _ => false end.

(** The truthiness test of [if (v)], [!v] and [v || w]. *)
Definition truthy (v : JsVal) : bool :=
  match v with
  | JUndef | JNull => false
  | JBool b => b
  | JNum n => negb (n =? 0)
  | JStr s => negb (is_empty s)
  | JArr _ | JObj _ => true
  end.

(** [String(value)].  An array prints its items joined by commas, with
    [null] and [undefined] items printed as nothing. *)
Fixpoint toString (v : JsVal) : string :=
  match v with
  | JUndef => "undefined"
  | JNull => "null"
  | JBool true => "true"
  | JBool false => "false"
  | JNum n => string_of_Z n
  | JStr s => s
  | JArr items =>
      join ","
        ((fix items_toString (l : list JsVal) : list string :=
            match l with
            | [] => []
            | (JUndef | JNull) :: l' => EmptyString :: items_toString l'
            | x :: l' => toString x :: items_toString l'
            end) items)
  | JObj _ => "[object Object]"
  end.

End Value.
Export Value.

(** ** packages/clawd-core/src/cron/schedule.ts, second part: cron job
       input normalization *)

Module Normalize.

(** [NormalizeOptions.applyDefaults?]: the property may be missing, or be
    present and hold [undefined] or a boolean; an object spread copies a
    present property whatever it holds. *)
Inductive OptionalFlag : Type :=
| Missing
| Present (value : option bool).

Record NormalizeOptions : Type := { applyDefaults : OptionalFlag }.

Definition DEFAULT_OPTIONS : NormalizeOptions :=
  {| applyDefaults := Present (Some false) |}.

(** [if (options.applyDefaults)] *)
Definition flag_set (f : OptionalFlag) : bool :=
  match f with Present (Some b) => b | _ => false end.

(** [{ applyDefaults: b, ...options }] *)
Definition spread_over (b : bool) (options : option NormalizeOptions)
  : NormalizeOptions :=
  match options with
  | Some {| applyDefaults := Present v |} => {| applyDefaults := Present v |}
  | _ => {| applyDefaults := Present (Some b) |}
  end.

(** [typeof rec.kind === "string" ? rec.kind : undefined], then [!kind] *)
Definition lacks_kind (rec : UnknownRecord) : bool :=
  match get rec "kind" with
  | JStr k => is_empty k
  | _ => true
  end.

Definition coerceSchedule (schedule : UnknownRecord) : UnknownRecord :=
  if lacks_kind schedule then
    if isNumber (get schedule "atMs") then <["kind" := JStr "at"]> schedule
    else if isNumber (get schedule "everyMs")
         then <["kind" := JStr "every"]> schedule
         else if isString (get schedule "expr")
              then <["kind" := JStr "cron"]> schedule
              else schedule
  else schedule.

Definition coercePayload (payload : UnknownRecord) : UnknownRecord :=
  if lacks_kind payload then
    if isString (get payload "text")
    then <["kind" := JStr "systemEvent"]> payload
    else if isString (get payload "message")
         then <["kind" := JStr "agentTurn"]> payload
         else payload
  else payload.

Definition unwrapJob (raw : UnknownRecord) : UnknownRecord :=
  match get raw "data" with
  | JObj data => data
  | _ => match get raw "job" with
         | JObj job => job
         | _ => raw
         end
  end.

(** The [applyDefaults] block. *)
Definition apply_defaults (next : UnknownRecord) : UnknownRecord :=
  let next :=
    if negb (truthy (get next "wakeMode"))
    then <["wakeMode" := JStr "next-heartbeat"]> next else next in
  if negb (truthy (get next "sessionTarget"))
     && isRecord (get next "payload")
  then
    let kind :=
      match get next "payload" with
      | JObj payload =>
          match get payload "kind" with JStr k => k | _ => EmptyString end
      | _ => EmptyString
      end in
    let next :=
      if String.eqb kind "systemEvent"
      then <["sessionTarget" := JStr "main"]> next else next in
    if String.eqb kind "agentTurn"
    then <["sessionTarget" := JStr "isolated"]> next else next
  else next.

(** The two [if (isRecord(base....))] steps on the copy of [base]. *)
Definition coerce_fields (base : UnknownRecord) : UnknownRecord :=
  let next :=
    match get base "schedule" with
    | JObj schedule => <["schedule" := JObj (coerceSchedule schedule)]> base
    | _ => base
    end in
  match get base "payload" with
  | JObj payload => <["payload" := JObj (coercePayload payload)]> next
  | _ => next
  end.

(** Returns [JNull] for [null] and a [JObj] otherwise. *)
Definition normalizeCronJobInput (raw : JsVal) (options : NormalizeOptions)
  : JsVal :=
  match raw with
  | JObj rawObj =>
      let base := unwrapJob rawObj in
      let next := coerce_fields base in
      JObj (if flag_set (applyDefaults options) then apply_defaults next
            else next)
  | _ => JNull
  end.

Definition normalizeCronJobCreate (raw : JsVal)
    (options : option NormalizeOptions) : JsVal :=
  normalizeCronJobInput raw (spread_over true options).

Definition normalizeCronJobPatch (raw : JsVal)
    (options : option NormalizeOptions) : JsVal :=
  normalizeCronJobInput raw (spread_over false options).

(** The object carries an envelope that [unwrapJob] would open. *)
Definition enveloped (obj : UnknownRecord) : bool :=
  isRecord (get obj "data") || isRecord (get obj "job").

(** Once its envelope is opened, the job object has no record-valued
    [data] or [job] property of its own. *)
Definition plain_job (raw : JsVal) : Prop :=
  match raw with
  | JObj o => enveloped (unwrapJob o) = false
  | _ => True
  end.

End Normalize.

(** ** packages/clawd-core/src/config/types.ts *)

Module Config.

(** [agent.model]: the declared object shape; a bare string is accepted by
    [resolvePrimaryModel] as well. *)
Inductive ModelSetting : Type :=
| ModelString (ref : string)
| ModelObject (provider model : option string)
              (fallbacks : option (list string)).

(** [agent.models]: a record whose entries are enumerated in property
    order, each with its optional [alias]. *)
Record AgentConfig : Type := {
  agent_model : option ModelSetting;
  agent_models : option (list (string * option string))
}.

Record SkillConfig : Type := {
  enabled : option bool;
  apiKey : option string;
  env : option (gmap string string)
}.

Record ClawdConfig : Type := {
  agent : option AgentConfig;
  skills_entries : option (gmap string SkillConfig)
}.

End Config.
Export Config.

(** ** packages/clawd-core/src/agents/memory.ts, model fallback part *)

Module ModelFallback.

Definition DEFAULT_PROVIDER : string := "anthropic".
Definition DEFAULT_MODEL : string := "claude-sonnet-4-20250514".

Record ModelCandidate : Type := { provider : string; model : string }.

Record FallbackAttempt : Type := {
  attempt_provider : string;
  attempt_model : string;
  attempt_error : string
}.

(** What a [catch] clause can receive. *)
Inductive Thrown : Type :=
| ThrownError (name message : string)
    (** an instance of [Error] *)
| ThrownObject (name message : option string) (shown : string)
    (** another object: [String(err.name)] when it has a [name], its
        [message] when that is a string, and [String(err)] *)
| ThrownString (s : string)
| ThrownUndefined.

(** Check if an error is an abort error (should not trigger fallback). *)
Definition isAbortError (err : Thrown) : bool :=
  match err with
  | ThrownError name message =>
      String.eqb name "AbortError"
      || includes (toLowerCase message) "aborted"
  | ThrownObject name message _ =>
      String.eqb (default EmptyString name) "AbortError"
      || includes (toLowerCase (default EmptyString message)) "aborted"
  | ThrownString _ | ThrownUndefined => false
  end.

(** [err instanceof Error ? err.message : String(err)] *)
Definition error_text (err : Thrown) : string :=
  match err with
  | ThrownError _ message => message
  | ThrownObject _ _ shown => shown
  | ThrownString s => s
  | ThrownUndefined => "undefined"
  end.

(** The truthiness of a caught value. *)
Definition thrown_truthy (err : Thrown) : bool :=
  match err with
  | ThrownString s => negb (is_empty s)
  | ThrownUndefined => false
  | _ => true
  end.

(** Parse a model reference string like "anthropic/claude-3-opus" or just
    "claude-3-opus".  [trimmed.split("/", 2)] keeps the first two parts. *)
Definition parseModelRef (raw defaultProvider : string)
  : option ModelCandidate :=
  let trimmed := trim raw in
  if is_empty trimmed then None
  else
    let plain := Some {| provider := defaultProvider; model := trimmed |} in
    if includes trimmed "/" then
      match split_on "/" trimmed with
      | p :: m :: _ =>
          if negb (is_empty p) && negb (is_empty m)
          then Some {| provider := trim p; model := trim m |}
          else plain
      | _ => plain
      end
    else plain.

Definition modelKey (provider model : string) : string :=
  provider +:+ "/" +:+ model.

Definition cfg_models (cfg : ClawdConfig) : list (string * option string) :=
  default [] (agent cfg ≫= agent_models).

(** Build model alias index from config. *)
Definition buildModelAliasIndex (cfg : ClawdConfig)
    (defaultProvider : string) : gmap string ModelCandidate :=
  fold_left
    (fun index '(key, alias) =>
       match alias with
       | Some a =>
           if is_empty a then index
           else match parseModelRef a defaultProvider with
                | Some parsed => <[toLowerCase key := parsed]> index
                | None => index
                end
       | None => index
       end)
    (cfg_models cfg) ∅.

(** Resolve a model reference, checking aliases first. *)
Definition resolveModelRef (raw defaultProvider : string)
    (aliasIndex : gmap string ModelCandidate)
  : option (ModelCandidate * bool) :=
  let trimmed := toLowerCase (trim raw) in
  if is_empty trimmed then None
  else match aliasIndex !! trimmed with
       | Some alias => Some (alias, true)
       | None =>
           match parseModelRef raw defaultProvider with
           | Some parsed => Some (parsed, false)
           | None => None
           end
       end.

(** Build list of allowed model keys from config. *)
Definition buildAllowedModelKeys (cfg : option ClawdConfig)
    (defaultProvider : string) : option (gset string) :=
  let rawAllowlist := (from_option cfg_models [] cfg).*1 in
  match rawAllowlist with
  | [] => None
  | _ =>
      let keys : gset string :=
        fold_left
          (fun keys raw =>
             match parseModelRef raw defaultProvider with
             | Some parsed => {[ modelKey (provider parsed) (model parsed) ]} ∪ keys
             | None => keys
             end)
          rawAllowlist ∅ in
      if decide (keys = ∅) then None else Some keys
  end.

(** The closure [addCandidate] over [seen] and [candidates]. *)
Definition addCandidate (allowlist : option (gset string))
    (st : gset string * list ModelCandidate)
    (candidate : ModelCandidate) (enforceAllowlist : bool)
  : gset string * list ModelCandidate :=
  let '(seen, candidates) := st in
  if is_empty (provider candidate) || is_empty (model candidate) then st
  else
    let key := modelKey (provider candidate) (model candidate) in
    if decide (key ∈ seen) then st
    else if enforceAllowlist
            && from_option (fun allowed => bool_decide (key ∉ allowed))
                 false allowlist
         then st
         else ({[ key ]} ∪ seen, candidates ++ [candidate]).

(** [params.cfg?.agent?.model] read for its [fallbacks]. *)
Definition cfg_fallbacks (cfg : option ClawdConfig) : list string :=
  match (cfg ≫= agent) ≫= agent_model with
  | Some (ModelObject _ _ (Some fallbacks)) => fallbacks
  | _ => []
  end.

Definition or_default (s fallback : string) : string :=
  if is_empty (trim s) then fallback else trim s.

(** Resolve fallback candidates from config. *)
Definition resolveFallbackCandidates (cfg : option ClawdConfig)
    (provider0 model0 : string) : list ModelCandidate :=
  let provider := or_default provider0 DEFAULT_PROVIDER in
  let model := or_default model0 DEFAULT_MODEL in
  let aliasIndex :=
    buildModelAliasIndex
      (default {| agent := None; skills_entries := None |} cfg)
      DEFAULT_PROVIDER in
  let allowlist := buildAllowedModelKeys cfg DEFAULT_PROVIDER in
  let add := addCandidate allowlist in
  let st := add (∅, []) {| provider := provider; model := model |} false in
  let st :=
    fold_left
      (fun st raw =>
         match resolveModelRef raw DEFAULT_PROVIDER aliasIndex with
         | Some (ref, _) => add st ref true
         | None => st
         end)
      (cfg_fallbacks cfg) st in
  st.2.

(** *** Running with fallback

    [params.run] and [params.onError] are caller-supplied effectful
    functions: each call takes the world [W] it runs in and gives the
    world it leaves, with its result or the value it throws. *)
Section Runner.
Context {W T : Type}.

Definition Eff (A : Type) : Type := W -> W * outcome Thrown A.

Record ErrorInfo : Type := {
  info_provider : string;
  info_model : string;
  info_error : Thrown;
  info_attempt : nat;
  info_total : nat
}.

Record FallbackResult : Type := {
  result : T;
  result_provider : string;
  result_model : string;
  attempts : list FallbackAttempt
}.

Variable run : string -> string -> Eff T.
Variable onError : option (ErrorInfo -> Eff unit).

(** [await params.onError?.(info)] *)
Definition notify (info : ErrorInfo) : Eff unit :=
  match onError with
  | Some handler => handler info
  | None => fun w => (w, Ret tt)
  end.

(** How the [for] loop over the candidates ends. *)
Inductive LoopEnd : Type :=
| Returned (r : FallbackResult)
| Raised (e : Thrown)
| Exhausted (attempts : list FallbackAttempt) (lastError : option Thrown).

(** The loop from index [i] on, [rest] being [candidates.slice(i)]. *)
Fixpoint try_from (total : nat) (rest : list ModelCandidate) (i : nat)
    (attempts : list FallbackAttempt) (lastError : option Thrown)
    (w : W) : W * LoopEnd :=
  match rest with
  | [] => (w, Exhausted attempts lastError)
  | candidate :: rest' =>
      match run (provider candidate) (model candidate) w with
      | (w1, Ret r) =>
          (w1, Returned {| result := r;
                           result_provider := provider candidate;
                           result_model := model candidate;
                           attempts := attempts |})
      | (w1, Throw err) =>
          (* Don't fall back on abort errors *)
          if isAbortError err then (w1, Raised err)
          else
            let attempts' :=
              attempts ++ [{| attempt_provider := provider candidate;
                              attempt_model := model candidate;
                              attempt_error := error_text err |}] in
            match notify {| info_provider := provider candidate;
                            info_model := model candidate;
                            info_error := err;
                            info_attempt := i + 1;
                            info_total := total |} w1 with
            | (w2, Ret _) =>
                try_from total rest' (i + 1) attempts' (Some err) w2
            | (w2, Throw err') => (w2, Raised err')
            end
      end
  end.

Definition attempt_line (a : FallbackAttempt) : string :=
  attempt_provider a +:+ "/" +:+ attempt_model a +:+ ": "
  +:+ attempt_error a.

(** The message of the aggregated error. *)
Definition all_failed_message (attempts : list FallbackAttempt)
    (candidates : list ModelCandidate) : string :=
  let summary :=
    match attempts with
    | [] => "unknown"
    | _ => join " | " (attempt_line <$> attempts)
    end in
  let count :=
    match length attempts with
    | O => length candidates
    | n => n
    end in
  "All models failed (" +:+ string_of_nat count +:+ "): " +:+ summary.

(** Run an operation with model fallback support. *)
Definition runWithModelFallback (cfg : option ClawdConfig)
    (provider0 model0 : string) : Eff FallbackResult :=
  fun w =>
    let candidates := resolveFallbackCandidates cfg provider0 model0 in
    match try_from (length candidates) candidates 0 [] None w with
    | (w', Returned r) => (w', Ret r)
    | (w', Raised e) => (w', Throw e)
    | (w', Exhausted attempts lastError) =>
        (* If only one attempt and it failed, throw original error *)
        match lastError with
        | Some e =>
            if (length attempts <=? 1)%nat && thrown_truthy e
            then (w', Throw e)
            else (w', Throw (ThrownError "Error"
                               (all_failed_message attempts candidates)))
        | None =>
            (w', Throw (ThrownError "Error"
                          (all_failed_message attempts candidates)))
        end
    end.

(** *** Vocabulary for the properties of the runner *)

Definition attempt_of (c : ModelCandidate) (e : Thrown) : FallbackAttempt :=
  {| attempt_provider := provider c; attempt_model := model c;
     attempt_error := error_text e |}.

(** Candidate [c], tried as number [i] of [total] in world [w], fails
    with the error [e], which is no cancellation, and the [onError]
    callback returns; [w'] is the world after the callback. *)
Definition fails_at (total i : nat) (c : ModelCandidate) (e : Thrown)
    (w w' : W) : Prop :=
  exists w1,
    run (provider c) (model c) w = (w1, Throw e)
    /\ isAbortError e = false
    /\ notify {| info_provider := provider c; info_model := model c;
                 info_error := e; info_attempt := i + 1;
                 info_total := total |} w1 = (w', Ret tt).

(** Every candidate of the list fails in turn, from index [i] and world
    [w] on; [errs] are the errors in order and [w'] the final world. *)
Inductive all_fail (total : nat)
  : nat -> list ModelCandidate -> W -> list Thrown -> W -> Prop :=
| all_fail_nil i w : all_fail total i [] w [] w
| all_fail_cons i c cs e errs w w1 w' :
    fails_at total i c e w w1 ->
    all_fail total (i + 1) cs w1 errs w' ->
    all_fail total i (c :: cs) w (e :: errs) w'.

End Runner.

(** The thrown value names every attempt: its text contains
    [provider/model: error] for each of them. *)
Definition names_every_attempt (thrown : Thrown)
    (attempts : list FallbackAttempt) : Prop :=
  Forall (fun a => includes (error_text thrown) (attempt_line a) = true)
    attempts.

End ModelFallback.

(** ** packages/clawd-core/src/agents/sessions.ts, heartbeat part *)

Module Heartbeat.

(** Token that agent can use to indicate no action needed. *)
Definition HEARTBEAT_TOKEN : string := "[HEARTBEAT_OK]".

Record Processed : Type := { text : string; shouldDeliver : bool }.

(** [while (text.startsWith(HEARTBEAT_TOKEN))]: each turn of the loop
    spends one unit of [fuel]; [None] means the fuel ran out. *)
Fixpoint strip_leading (fuel : nat) (text : string) (didStrip : bool)
  : option (string * bool) :=
  if startsWith text HEARTBEAT_TOKEN then
    match fuel with
    | O => None
    | S fuel' =>
        strip_leading fuel'
          (trimStart (drop (String.length HEARTBEAT_TOKEN) text)) true
    end
  else Some (text, didStrip).

(** [while (text.endsWith(HEARTBEAT_TOKEN))] *)
Fixpoint strip_trailing (fuel : nat) (text : string) (didStrip : bool)
  : option (string * bool) :=
  if endsWith text HEARTBEAT_TOKEN then
    match fuel with
    | O => None
    | S fuel' =>
        strip_trailing fuel'
          (trimEnd (dropEnd (String.length HEARTBEAT_TOKEN) text)) true
    end
  else Some (text, didStrip).

(** Both loops, started on the trimmed response. *)
Definition strip_edges (trimmed : string) : option (string * bool) :=
  '(text, didStrip) ← strip_leading (String.length trimmed) trimmed false;
  strip_trailing (String.length trimmed) text didStrip.

(** Strip heartbeat token from response and determine if it should be
    delivered.  [ackMaxChars] is [opts.ackMaxChars]. *)
Definition processHeartbeatResponse (response : string)
    (ackMaxChars0 : option Z) : option Processed :=
  let ackMaxChars := default 30 ackMaxChars0 in
  let trimmed := trim response in
  if is_empty trimmed then Some {| text := ""; shouldDeliver := false |}
  else if negb (includes trimmed HEARTBEAT_TOKEN)
  then Some {| text := trimmed; shouldDeliver := true |}
  else
    '(text, didStrip) ← strip_edges trimmed;
    Some
      (if negb didStrip then {| text := trimmed; shouldDeliver := true |}
       else if is_empty text
               || (Z.of_nat (String.length text) <=? ackMaxChars)
            then {| text := ""; shouldDeliver := false |}
            else {| text := text; shouldDeliver := true |}).

(** The wording of the specification: the response is the token with at
    most [n] characters of text around it. *)
Definition solely_token_plus (n : Z) (response : string) : Prop :=
  exists pre post,
    response = pre +:+ HEARTBEAT_TOKEN +:+ post
    /\ Z.of_nat (String.length pre + String.length post) <= n.

End Heartbeat.

(** ** src/auto-reply/heartbeat.ts *)

Module AutoReplyHeartbeat.

Definition DEFAULT_HEARTBEAT_ACK_MAX_CHARS : Z := 30.

Inductive StripHeartbeatMode : Type := ModeHeartbeat | ModeMessage.

Record Stripped : Type :=
  { shouldSkip : bool; text : string; didStrip : bool }.

Section Token.
(** [HEARTBEAT_TOKEN] is imported from [./tokens.js]. *)
Variable HEARTBEAT_TOKEN : string.

(** The [while (changed)] loop of [stripTokenAtEdges]; [None] means the
    fuel ran out. *)
Fixpoint strip_loop (fuel : nat) (text : string) (didStrip : bool)
  : option (string * bool) :=
  let next := trim text in
  if startsWith next HEARTBEAT_TOKEN then
    match fuel with
    | O => None
    | S fuel' =>
        strip_loop fuel'
          (trimStart (drop (String.length HEARTBEAT_TOKEN) next)) true
    end
  else if endsWith next HEARTBEAT_TOKEN then
    match fuel with
    | O => None
    | S fuel' =>
        strip_loop fuel'
          (trimEnd
             (slice 0 (String.length next - String.length HEARTBEAT_TOKEN)
                next))
          true
    end
  else Some (text, didStrip).

Definition stripTokenAtEdges (raw : string) : option (string * bool) :=
  let text := trim raw in
  if is_empty text then Some ("", false)
  else if negb (includes text HEARTBEAT_TOKEN) then Some (text, false)
  else
    '(text', didStrip) ← strip_loop (String.length text) text false;
    Some (trim (collapse_ws text'), didStrip).

Definition stripHeartbeatToken (raw : option string)
    (mode0 : option StripHeartbeatMode) (maxAckChars0 : option Z)
  : option Stripped :=
  let skip d := {| shouldSkip := true; text := ""; didStrip := d |} in
  match raw with
  | None => Some (skip false)
  | Some raw =>
      if is_empty raw then Some (skip false)
      else
        let trimmed := trim raw in
        if is_empty trimmed then Some (skip false)
        else
          let mode := default ModeMessage mode0 in
          let maxAckChars :=
            Z.max 0 (default DEFAULT_HEARTBEAT_ACK_MAX_CHARS maxAckChars0) in
          let keep :=
            {| shouldSkip := false; text := trimmed; didStrip := false |} in
          if negb (includes trimmed HEARTBEAT_TOKEN) then Some keep
          else
            '(stripped, did) ← stripTokenAtEdges trimmed;
            Some
              (if negb did then keep
               else if is_empty stripped then skip true
               else
                 match mode with
                 | ModeHeartbeat =>
                     if Z.of_nat (String.length (trim stripped))
                        <=? maxAckChars
                     then skip true
                     else {| shouldSkip := false; text := stripped;
                             didStrip := true |}
                 | ModeMessage =>
                     {| shouldSkip := false; text := stripped;
                        didStrip := true |}
                 end)
  end.

End Token.

End AutoReplyHeartbeat.

(** ** Regular expressions, as far as the directive patterns use them

    A backtracking matcher with the priorities of the ECMAScript semantics:
    alternatives are tried left to right, quantifiers are greedy, the first
    success wins, and [exec] takes the leftmost start. *)

Module Regex.

Inductive Regex : Type :=
| RChar (cls : ascii -> bool)      (** one code unit of a class *)
| RStart                           (** [^] *)
| REnd                             (** [$] *)
| RWordBoundary                    (** [\b] *)
| RSeq (r1 r2 : Regex)
| RAlt (r1 r2 : Regex)
| RStar (cls : ascii -> bool)      (** [cls*], greedy *)
| ROpt (r : Regex)                 (** [r?], greedy *)
| RGroup (r : Regex)               (** the capture group *)
| RAhead (r : Regex).              (** [(?=r)] *)

(** A position in the subject: its index, the code unit before it and the
    text from it on. *)
Record Pos : Type := { idx : nat; prev : option ascii; rest : string }.

Definition Capture : Type := option (nat * nat).

Definition is_word (c : ascii) : bool :=
  let n := nat_of_ascii c in
  ((48 <=? n) && (n <=? 57) || (65 <=? n) && (n <=? 90)
   || (97 <=? n) && (n <=? 122) || (n =? 95))%nat.

Definition word_before (p : Pos) : bool :=
  match prev p with Some c => is_word c | None => false end.

Definition word_after (p : Pos) : bool :=
  match rest p with String c _ => is_word c | EmptyString => false end.

(** The greedy loop of [cls*]: take one more code unit if possible, and
    come back to the shorter run when the continuation fails. *)
Fixpoint star {R : Type} (cls : ascii -> bool)
    (k : Pos -> option R) (i : nat) (pv : option ascii) (s : string)
  : option R :=
  let here := k {| idx := i; prev := pv; rest := s |} in
  match s with
  | String c s' =>
      if cls c then
        match star cls k (S i) (Some c) s' with
        | Some r => Some r
        | None => here
        end
      else here
  | EmptyString => here
  end.

Fixpoint run (r : Regex) {R : Type} (p : Pos) (cap : Capture)
    (k : Pos -> Capture -> option R) : option R :=
  match r with
  | RChar cls =>
      match rest p with
      | String c s' =>
          if cls c
          then k {| idx := S (idx p); prev := Some c; rest := s' |} cap
          else None
      | EmptyString => None
      end
  | RStart => match prev p with None => k p cap | Some _ => None end
  | REnd => match rest p with EmptyString => k p cap | _ => None end
  | RWordBoundary =>
      if xorb (word_before p) (word_after p) then k p cap else None
  | RSeq r1 r2 => run r1 p cap (fun p' cap' => run r2 p' cap' k)
  | RAlt r1 r2 =>
      match run r1 p cap k with
      | Some res => Some res
      | None => run r2 p cap k
      end
  | RStar cls => star cls (fun p' => k p' cap) (idx p) (prev p) (rest p)
  | ROpt r1 =>
      match run r1 p cap k with
      | Some res => Some res
      | None => k p cap
      end
  | RGroup r1 =>
      run r1 p cap (fun p' _ => k p' (Some (idx p, idx p')))
  | RAhead r1 =>
      match run r1 p cap (fun _ cap' => Some cap') with
      | Some cap' => k p cap'
      | None => None
      end
  end.

(** [match[0]] as the index range it covers, and the range of group 1. *)
Record MatchRange : Type :=
  { m_start : nat; m_end : nat; m_group : Capture }.

(** Try every start position from [p] on, the leftmost first. *)
Fixpoint exec_from (r : Regex) (i : nat) (pv : option ascii) (s : string)
  : option MatchRange :=
  match run r {| idx := i; prev := pv; rest := s |} None
          (fun p' cap => Some {| m_start := i; m_end := idx p';
                                 m_group := cap |}) with
  | Some m => Some m
  | None =>
      match s with
      | String c s' => exec_from r (S i) (Some c) s'
      | EmptyString => None
      end
  end.

(** [body.match(r)] without the [g] flag: [match[0]] and [match[1]]. *)
Definition exec (r : Regex) (body : string)
  : option (string * option string) :=
  m ← exec_from r 0%nat None body;
  Some (slice (m_start m) (m_end m) body,
        (fun '(a, b) => slice a b body) <$> m_group m).

(** A literal under the [i] flag. *)
Definition char_i (c x : ascii) : bool :=
  Ascii.eqb (lower_ascii x) (lower_ascii c).

Fixpoint lit_i (s : string) : Regex :=
  match s with
  | String c EmptyString => RChar (char_i c)
  | String c s' => RSeq (RChar (char_i c)) (lit_i s')
  | EmptyString => RStar (fun _ => false)
  end.

(** [cls+] *)
Definition plus (cls : ascii -> bool) : Regex := RSeq (RChar cls) (RStar cls).

End Regex.

(** ** packages/clawd-core/src/agents/directives.ts *)

Module Directives.
Import Regex.

Inductive ThinkLevel : Type :=
| ThinkOff | ThinkMinimal | ThinkLow | ThinkMedium | ThinkHigh.

Inductive VerboseLevel : Type := VerboseOn | VerboseOff.

(** [list.includes(key)] *)
Definition one_of (key : string) (l : list string) : bool :=
  existsb (String.eqb key) l.

(** Normalize user-provided thinking level strings to the canonical enum. *)
Definition normalizeThinkLevel (raw : option string) : option ThinkLevel :=
  match raw with
  | None => None
  | Some raw =>
      if is_empty raw then None
      else
        let key := toLowerCase raw in
        if one_of key ["off"] then Some ThinkOff
        else if one_of key ["min"; "minimal"] then Some ThinkMinimal
        else if one_of key ["low"; "thinkhard"; "think-hard"; "think_hard"]
        then Some ThinkLow
        else if one_of key ["mid"; "med"; "medium"; "thinkharder";
                            "think-harder"; "harder"]
        then Some ThinkMedium
        else if one_of key ["high"; "ultra"; "ultrathink"; "think-hard";
                            "thinkhardest"; "highest"; "max"]
        then Some ThinkHigh
        else if one_of key ["think"] then Some ThinkMinimal
        else None
  end.

(** Normalize verbose flags used to toggle agent verbosity. *)
Definition normalizeVerboseLevel (raw : option string)
  : option VerboseLevel :=
  match raw with
  | None => None
  | Some raw =>
      if is_empty raw then None
      else
        let key := toLowerCase raw in
        if one_of key ["off"; "false"; "no"; "0"] then Some VerboseOff
        else if one_of key ["on"; "full"; "true"; "yes"; "1"]
        then Some VerboseOn
        else None
  end.

Record ExtractedDirective (L : Type) : Type := {
  cleaned : string;
  level : option L;
  rawLevel : option string;
  hasDirective : bool
}.
Arguments cleaned {L} _.
Arguments level {L} _.
Arguments rawLevel {L} _.
Arguments hasDirective {L} _.

(** [[a-zA-Z-]] *)
Definition is_level_char (c : ascii) : bool :=
  let n := nat_of_ascii c in
  ((65 <=? n) && (n <=? 90) || (97 <=? n) && (n <=? 122) || (n =? 45))%nat.

Definition is_colon (c : ascii) : bool := Ascii.eqb c ":".

(** [\s*:?\s*([a-zA-Z-]+)\b] *)
Definition argument_tail : Regex :=
  RSeq (RStar is_ws)
    (RSeq (ROpt (RChar is_colon))
       (RSeq (RStar is_ws)
          (RSeq (RGroup (plus is_level_char)) RWordBoundary))).

(** [/(?:^|\s)\/(?:thinking|think|t)\s*:?\s*([a-zA-Z-]+)\b/i] *)
Definition think_re : Regex :=
  RSeq (RAlt RStart (RChar is_ws))
    (RSeq (lit_i "/")
       (RSeq (RAlt (lit_i "thinking") (RAlt (lit_i "think") (lit_i "t")))
          argument_tail)).

(** [/(?:^|\s)\/(?:verbose|v)(?=$|\s|:)\s*:?\s*([a-zA-Z-]+)\b/i] *)
Definition verbose_re : Regex :=
  RSeq (RAlt RStart (RChar is_ws))
    (RSeq (lit_i "/")
       (RSeq (RAlt (lit_i "verbose") (lit_i "v"))
          (RSeq (RAhead (RAlt REnd (RAlt (RChar is_ws) (RChar is_colon))))
             argument_tail))).

(** The shared body of the two extractors. *)
Definition extract_with {L : Type} (re : Regex)
    (normalize : option string -> option L) (body : option string)
  : ExtractedDirective L :=
  match body with
  | None =>
      {| cleaned := ""; level := None; rawLevel := None;
         hasDirective := false |}
  | Some body =>
      if is_empty body
      then {| cleaned := ""; level := None; rawLevel := None;
              hasDirective := false |}
      else
        match exec re body with
        | Some (m0, m1) =>
            {| cleaned := trim (collapse_ws (replace_first body m0 ""));
               level := normalize m1;
               rawLevel := m1;
               hasDirective := true |}
        | None =>
            {| cleaned := trim body; level := normalize None;
               rawLevel := None; hasDirective := false |}
        end
  end.

(** Extract /think or /t directive from message body. *)
Definition extractThinkDirective (body : option string)
  : ExtractedDirective ThinkLevel :=
  extract_with think_re normalizeThinkLevel body.

(** Extract /verbose or /v directive from message body. *)
Definition extractVerboseDirective (body : option string)
  : ExtractedDirective VerboseLevel :=
  extract_with verbose_re normalizeVerboseLevel body.

Record ExtractedDirectives : Type := {
  cleanedMessage : string;
  thinkLevel : option ThinkLevel;
  verboseLevel : option VerboseLevel;
  hasDirectives : bool
}.

(** Extract all supported directives from a message. *)
Definition extractAllDirectives (message : string) : ExtractedDirectives :=
  let thinkResult := extractThinkDirective (Some message) in
  let current :=
    if hasDirective thinkResult then cleaned thinkResult else message in
  let verboseResult := extractVerboseDirective (Some current) in
  let current' :=
    if hasDirective verboseResult then cleaned verboseResult else current in
  {| cleanedMessage := trim current';
     thinkLevel := level thinkResult;
     verboseLevel := level verboseResult;
     hasDirectives := hasDirective thinkResult || hasDirective verboseResult |}.

End Directives.

(** ** packages/clawd-core/src/agents/skills.ts *)

Module Skills.

(** [Skill] of the coding-agent package, as far as it is read here. *)
Record Skill : Type := { skill_name : string; filePath : string }.

Record Requires : Type := {
  bins : option (list string);
  anyBins : option (list string);
  req_env : option (list string);
  req_config : option (list string)
}.

Record ClawdSkillMetadata : Type := {
  always : option bool;
  skillKey : option string;
  primaryEnv : option string;
  emoji : option string;
  homepage : option string;
  os : option (list string);
  requires : option Requires
}.

Abbreviation ParsedSkillFrontmatter := (gmap string string).

Record SkillEntry : Type := {
  skill : Skill;
  frontmatter : ParsedSkillFrontmatter;
  clawd : option ClawdSkillMetadata
}.

Definition nonempty (l : list string) : list string :=
  filter (fun s => is_empty s = false) l.

Definition normalizeStringList (input : JsVal) : list string :=
  if negb (truthy input) then []
  else match input with
       | JArr items => nonempty ((fun v => trim (toString v)) <$> items)
       | JStr s => nonempty (trim <$> split_on "," s)
       | _ => []
       end.

Definition as_string (v : JsVal) : option string :=
  match v with JStr s => Some s | _ => None end.

Definition as_bool (v : JsVal) : option bool :=
  match v with JBool b => Some b | _ => None end.

Section Host.
(** [JSON.parse]: [None] when it throws. *)
Variable JSON_parse : string -> option JsVal.
(** [process.platform] and [process.env]. *)
Variable platform : string.
Variable process_env : gmap string string.
(** [fs.accessSync(path.join(dir, bin), fs.constants.X_OK)] returns. *)
Variable executable_in : string -> string -> bool.
(** [path.delimiter] *)
Variable delimiter : ascii.

Definition hasBinary (bin : string) : bool :=
  let pathEnv := default EmptyString (process_env !! "PATH") in
  let parts := nonempty (split_on delimiter pathEnv) in
  existsb (fun part => executable_in part bin) parts.

(** The object literal that [resolveClawdMetadata] returns for the
    properties [clawdObj] of the [clawd] value. *)
Definition metadata_of (clawdObj : UnknownRecord) : ClawdSkillMetadata :=
  let osRaw := normalizeStringList (get clawdObj "os") in
  {| always := as_bool (get clawdObj "always");
     emoji := as_string (get clawdObj "emoji");
     homepage := as_string (get clawdObj "homepage");
     skillKey := as_string (get clawdObj "skillKey");
     primaryEnv := as_string (get clawdObj "primaryEnv");
     os := match osRaw with [] => None | _ => Some osRaw end;
     requires := None |}.

Definition resolveClawdMetadata (frontmatter : ParsedSkillFrontmatter)
  : option ClawdSkillMetadata :=
  match frontmatter !! "metadata" with
  | Some raw =>
      if is_empty raw then None
      else
        match JSON_parse raw with
        | Some (JObj parsed) =>
            match get parsed "clawd" with
            | JObj clawdObj => Some (metadata_of clawdObj)
            | JArr _ => Some (metadata_of ∅)
            | _ => None
            end
        | _ => None
        end
  | None => None
  end.

Definition resolveSkillKey (s : Skill) (entry : option SkillEntry)
  : string :=
  default (skill_name s) ((entry ≫= clawd) ≫= skillKey).

Definition resolveSkillConfig (config : option ClawdConfig)
    (key : string) : option SkillConfig :=
  entries ← config ≫= skills_entries;
  entries !! key.

(** [if (m[key])] for a record of strings. *)
Definition has_value (m : gmap string string) (key : string) : bool :=
  match m !! key with Some v => negb (is_empty v) | None => false end.

Definition env_satisfied (entry : SkillEntry)
    (skillConfig : option SkillConfig) (envName : string) : bool :=
  has_value process_env envName
  || from_option (fun m => has_value m envName) false
       (skillConfig ≫= Config.env)
  || (from_option (fun k => negb (is_empty k)) false
        (skillConfig ≫= apiKey)
      && bool_decide ((clawd entry ≫= primaryEnv) = Some envName)).

Definition shouldIncludeSkill (entry : SkillEntry)
    (config : option ClawdConfig) : bool :=
  let key := resolveSkillKey (skill entry) (Some entry) in
  let skillConfig := resolveSkillConfig config key in
  let osList := default [] (clawd entry ≫= os) in
  if bool_decide ((skillConfig ≫= enabled) = Some false) then false
  else if (0 <? length osList)%nat
          && negb (existsb (String.eqb platform) osList)
  then false
  else if bool_decide ((clawd entry ≫= always) = Some true) then true
  else
    let requiredBins := default [] ((clawd entry ≫= requires) ≫= bins) in
    if negb (forallb hasBinary requiredBins) then false
    else
      let requiredEnv :=
        default [] ((clawd entry ≫= requires) ≫= req_env) in
      forallb (env_satisfied entry skillConfig) requiredEnv.

Definition filterSkillEntries (entries : list SkillEntry)
    (config : option ClawdConfig) : list SkillEntry :=
  filter (fun entry => shouldIncludeSkill entry config = true) entries.

(** The entry [loadSkillEntries] builds for a skill whose file has the
    given front matter. *)
Definition load_entry (s : Skill) (fm : ParsedSkillFrontmatter)
  : SkillEntry :=
  {| skill := s; frontmatter := fm; clawd := resolveClawdMetadata fm |}.

End Host.

End Skills.

(** ** File-system effects of the stores

    The calls of [fs.promises] that the two [save] functions make.  A call
    runs in a world [W]; it returns or throws an error whose [code], if it
    has one, is read back as a string.  Every call made is appended to a
    log, so that a property can speak about what was done and in which
    order. *)

Module Fs.

Inductive FsCall : Type :=
| Mkdir (dir : string)                 (** [mkdir(dir, {recursive: true})] *)
| WriteFile (file data : string)       (** [writeFile(file, data, "utf-8")] *)
| Rename (from to : string)
| CopyFile (from to : string)
| Rm (file : string).                  (** [rm(file, {force: true})] *)

(** [err && typeof err === "object" && "code" in err ? String(err.code)
    : null] *)
Record FsError : Type := { code : option string }.

(** A world together with the log of the calls made so far. *)
Definition Logged (W : Type) : Type := W * list FsCall.

(** An awaited action on the file system. *)
Definition Action (W : Type) : Type :=
  Logged W -> Logged W * outcome FsError unit.

Section World.
Context {W : Type}.
Variable fs : FsCall -> W -> W * outcome FsError unit.

Definition call (c : FsCall) : Action W :=
  fun '(w, log) =>
    let '(w', r) := fs c w in
    ((w', log ++ [c]), r).

(** [await a; rest]: the rest runs when [a] returns. *)
Definition and_then (a rest : Action W) : Action W :=
  fun st =>
    match a st with
    | (st', Ret _) => rest st'
    | (st', Throw e) => (st', Throw e)
    end.

(** [try { body } finally { cleanup }] *)
Definition finally (body cleanup : Action W) : Action W :=
  fun st =>
    let '(st', r) := body st in
    match cleanup st' with
    | (st'', Ret _) => (st'', r)
    | (st'', Throw e) => (st'', Throw e)
    end.

(** [try { await a } catch { }] *)
Definition best_effort (a : Action W) : Action W :=
  fun st => ((a st).1, Ret tt).

(** The calls an action adds to the log all satisfy [P]. *)
Definition adds_only (P : FsCall -> bool) (a : Action W) : Prop :=
  forall st, exists calls,
    (a st).1.2 = st.2 ++ calls /\ forallb P calls = true.

End World.

Definition is_copy (c : FsCall) : bool :=
  match c with CopyFile _ _ => true | _ => false end.

End Fs.

(** ** packages/clawd-core/src/agents/sessions.ts, session store part *)

Module SessionStore.
Import Fs.

Section Save.
Context {W Store : Type}.
Variable fs : FsCall -> W -> W * outcome FsError unit.
(** [path.dirname], [JSON.stringify(store, null, 2)], [process.pid] as
    it prints, and the value [crypto.randomUUID()] draws. *)
Variable dirname : string -> string.
Variable stringify : Store -> string.
Variable pid : string.
Variable uuid : string.

Definition is_ENOENT (e : FsError) : bool :=
  bool_decide (code e = Some "ENOENT").

Definition tmp_path (storePath : string) : string :=
  storePath +:+ "." +:+ pid +:+ "." +:+ uuid +:+ ".tmp".

(** The [try] block with its [catch] clause. *)
Definition write_or_recover (storePath json tmp : string) : Action W :=
  fun st =>
  match and_then (call fs (WriteFile tmp json))
          (call fs (Rename tmp storePath)) st with
  | (st1, Ret _) => (st1, Ret tt)
  | (st1, Throw err) =>
      if is_ENOENT err then
        match and_then (call fs (Mkdir (dirname storePath)))
                (call fs (WriteFile storePath json)) st1 with
        | (st2, Ret _) => (st2, Ret tt)
        | (st2, Throw err2) =>
            if is_ENOENT err2 then (st2, Ret tt) else (st2, Throw err2)
        end
      else (st1, Throw err)
  end.

Definition saveSessionStore (storePath : string) (store : Store)
  : Action W :=
  and_then (call fs (Mkdir (dirname storePath)))
    (let json := stringify store in
     let tmp := tmp_path storePath in
     finally (write_or_recover storePath json tmp) (call fs (Rm tmp))).

End Save.

End SessionStore.

(** ** The cron store ([saveCronStore] and its neighbours) *)

Module CronStore.
Import Fs.

Section Save.
Context {W Store : Type}.
Variable fs : FsCall -> W -> W * outcome FsError unit.
(** [path.dirname], [JSON.stringify(store, null, 2)], [process.pid] as
    it prints, and [Math.random().toString(16).slice(2)] as drawn. *)
Variable dirname : string -> string.
Variable stringify : Store -> string.
Variable pid : string.
Variable rand : string.

Definition tmp_path (storePath : string) : string :=
  storePath +:+ "." +:+ pid +:+ "." +:+ rand +:+ ".tmp".

(** Save cron store to disk with atomic write. *)
Definition saveCronStore (storePath : string) (store : Store)
  : Action W :=
  and_then (call fs (Mkdir (dirname storePath)))
    (let tmp := tmp_path storePath in
     let json := stringify store in
     and_then (call fs (WriteFile tmp json))
       (and_then (call fs (Rename tmp storePath))
          (best_effort
             (call fs (CopyFile storePath (storePath +:+ ".bak")))))).

End Save.

End CronStore.

(** ** src/pairing/pairing-messages.ts *)

Module Pairing.

(** [PairingProvider] is a union of provider names; it is a string at
    run time. *)
Definition buildPairingReply (provider idLine code : string) : string :=
  join nl
    [ "Clawdbot: access not configured.";
      "";
      idLine;
      "";
      "Pairing code: " +:+ code;
      "";
      "Ask the bot owner to approve with:";
      "clawdbot pairing approve " +:+ provider +:+ " <code>" ].

(** The reply text of section 6 of the specification, with the pairing
    code substituted in the approver command. *)
Definition spec_pairing_reply (provider idLine code : string) : string :=
  "Clawdbot: access not configured." +:+ nl +:+ nl
  +:+ idLine +:+ nl +:+ nl
  +:+ "Pairing code: " +:+ code +:+ nl +:+ nl
  +:+ "Ask the bot owner to approve with:" +:+ nl
  +:+ "clawdbot pairing approve " +:+ provider +:+ " " +:+ code.

End Pairing.

(** ** Concrete inputs, hosts and collaborators used in the examples *)

Module Scenarios.
Import Schedule Normalize ModelFallback Fs Skills.

(** A cron collaborator for the pattern that fires at every full minute. *)
Definition every_minute : Croner :=
  fun _ _ t => Ret (Some ((t / 60000 + 1) * 60000)).

(** A job in a [job] envelope, with the kinds left out. *)
Definition wrapped_job : JsVal :=
  JObj {[ "job" := JObj {[ "schedule" := JObj {[ "everyMs" := JNum 60000 ]};
                          "payload" := JObj {[ "text" := JStr "tick" ]} ]} ]}.

(** A job inside two [data] envelopes. *)
Definition doubly_wrapped : JsVal :=
  JObj {[ "data" := JObj {[ "data" := JObj {[ "name" := JStr "tick" ]} ]} ]}.

(** Primary [openai/gpt-x] with two fallbacks and no [agent.models]. *)
Definition example_cfg : ClawdConfig :=
  {| agent :=
       Some {| agent_model :=
                 Some (ModelObject (Some "openai") (Some "gpt-x")
                         (Some ["anthropic/claude-y"; "google/gemini-z"]));
               agent_models := None |};
     skills_entries := None |}.

(** A run function that counts its calls: the provider [openai] is rate
    limited, every other provider answers. *)
Definition openai_down : string -> string -> @Eff nat string :=
  fun p m calls =>
    (S calls,
     if String.eqb p "openai"
     then Throw (ThrownError "Error" "429 rate limited")
     else Ret ("reply of " +:+ m)).

(** A run function under which every model fails. *)
Definition all_down : string -> string -> @Eff nat string :=
  fun _ _ calls => (S calls, Throw (ThrownError "Error" "boom")).

(** A file system in which every call succeeds: the files by name. *)
Definition plain_fs (c : FsCall) (files : gmap string string)
  : gmap string string * outcome FsError unit :=
  (match c with
   | Mkdir _ => files
   | WriteFile file data => <[file := data]> files
   | Rename from to =>
       match files !! from with
       | Some data => <[to := data]> (delete from files)
       | None => files
       end
   | CopyFile from to =>
       match files !! from with
       | Some data => <[to := data]> files
       | None => files
       end
   | Rm file => delete file files
   end, Ret tt).

Definition state_dir (_ : string) : string := "/state".
Definition show_store (s : string) : string := s.

Definition quoted (s : string) : string :=
  String (ascii_of_nat 34) s +:+ String (ascii_of_nat 34) "".

(** The metadata line of a skill that needs the [gh] binary, and the value
    [JSON.parse] gives for it. *)
Definition gh_metadata_text : string :=
  "{" +:+ quoted "clawd" +:+ ":{" +:+ quoted "requires" +:+ ":{"
  +:+ quoted "bins" +:+ ":[" +:+ quoted "gh" +:+ "]}}}".

Definition gh_metadata_value : JsVal :=
  JObj {[ "clawd" :=
            JObj {[ "requires" :=
                      JObj {[ "bins" := JArr [JStr "gh"] ]} ]} ]}.

Definition parse_gh (s : string) : option JsVal :=
  if String.eqb s gh_metadata_text then Some gh_metadata_value else None.

(** A host with [PATH=/usr/bin] and no executable anywhere on it. *)
Definition bare_env : gmap string string := {[ "PATH" := "/usr/bin" ]}.
Definition nothing_installed (dir bin : string) : bool := false.

Definition gh_skill : Skill :=
  {| skill_name := "github"; filePath := "/skills/github/SKILL.md" |}.

Definition gh_frontmatter : gmap string string :=
  {[ "name" := "github"; "metadata" := gh_metadata_text ]}.

End Scenarios.

(** ** Vocabulary for texts *)

Module Text.

(** No occurrence of the code unit [sep] in [s]. *)
Fixpoint free_of (sep : ascii) (s : string) : bool :=
  match s with
  | String c s' => negb (Ascii.eqb c sep) && free_of sep s'
  | EmptyString => true
  end.

(** A text is trimmed on both sides. *)
Definition both_trimmed (s : string) : Prop :=
  trimStart s = s /\ trimEnd s = s.

End Text.
Export Text.

(** ** Tokens at the edges of a text *)

Module TokenEdges.

(** White space only. *)
Fixpoint all_ws (s : string) : bool :=
  match s with
  | String c s' => is_ws c && all_ws s'
  | EmptyString => true
  end.

(** A run of tokens at the start of a text, each followed by white space
    or by nothing: [(tok ws* )*]. *)
Inductive tokens_before (tok : string) : string -> Prop :=
| tokens_before_nil : tokens_before tok ""
| tokens_before_cons (ws l : string) :
    all_ws ws = true -> tokens_before tok l ->
    tokens_before tok (tok +:+ ws +:+ l).

(** A run of tokens at the end of a text, each preceded by white space or
    by nothing: [(ws* tok)*]. *)
Inductive tokens_after (tok : string) : string -> Prop :=
| tokens_after_nil : tokens_after tok ""
| tokens_after_snoc (r ws : string) :
    tokens_after tok r -> all_ws ws = true ->
    tokens_after tok (r +:+ ws +:+ tok).

(** [stripped] is [trimmed] with the tokens stripped from its edges: what
    was taken off is a run of tokens at the start and a run of tokens at
    the end, and what is left has no token and no white space at either
    edge. *)
Definition stripped_of (tok trimmed stripped : string) : Prop :=
  exists lead trail,
    trimmed = lead +:+ stripped +:+ trail
    /\ tokens_before tok lead
    /\ tokens_after tok trail
    /\ startsWith stripped tok = false
    /\ endsWith stripped tok = false
    /\ both_trimmed stripped.

(** A token that cannot run into a neighbour: it holds no white space,
    and its first character does not come again in it. *)
Definition plain_token (tok : string) : bool :=
  match tok with
  | String mark rest =>
      negb (is_ws mark)
      && forallb (fun c => negb (is_ws c) && negb (Ascii.eqb c mark))
           (list_ascii_of_string rest)
  | EmptyString => false
  end.

End TokenEdges.
Export TokenEdges.

(** ** More of the model fallback: the primary model and vocabulary for the
       candidate chain *)

Module FallbackChain.
Import ModelFallback.

Definition candidate_key (c : ModelCandidate) : string :=
  modelKey (provider c) (model c).

Definition attempt_names (a : FallbackAttempt) : string * string :=
  (attempt_provider a, attempt_model a).

Definition candidate_names (c : ModelCandidate) : string * string :=
  (provider c, model c).

(** What [addCandidate] keeps true of [seen] and [candidates]. *)
Record chain_ok (allowlist : option (gset string))
    (st : gset string * list ModelCandidate) : Prop := {
  ok_seen : forall k, k ∈ st.1 <-> k ∈ candidate_key <$> st.2;
  ok_distinct : NoDup (candidate_key <$> st.2);
  ok_filled :
    Forall (fun c => provider c <> "" /\ model c <> "") st.2;
  ok_allowed :
    forall allowed, allowlist = Some allowed ->
      Forall (fun c => candidate_key c ∈ allowed) (tail st.2)
}.

(** A configuration whose [agent.models] lists one model only. *)
Definition allowlisted_cfg : ClawdConfig :=
  {| agent :=
       Some {| agent_model :=
                 Some (ModelObject (Some "openai") (Some "gpt-x")
                         (Some ["anthropic/claude-y"; "google/gemini-z"]));
               agent_models := Some [("anthropic/claude-y", None)] |};
     skills_entries := None |}.

(** Get the primary model from config or use defaults. *)
Definition resolvePrimaryModel (cfg : option ClawdConfig) : ModelCandidate :=
  let defaults := {| provider := DEFAULT_PROVIDER; model := DEFAULT_MODEL |} in
  match (cfg ≫= agent) ≫= agent_model with
  | Some (ModelString ref) =>
      match parseModelRef ref DEFAULT_PROVIDER with
      | Some parsed => parsed
      | None => defaults
      end
  | Some (ModelObject provider0 (Some model0) _) =>
      if is_empty model0 then defaults
      else
        {| provider :=
             (let p := trim (default EmptyString provider0) in
              if is_empty p then DEFAULT_PROVIDER else p);
           model := trim model0 |}
  | _ => defaults
  end.

End FallbackChain.

(** ** packages/clawd-core/src/agents/sessions.ts, session keys and entries *)

Module Sessions.

Definition DEFAULT_AGENT_ID : string := "main".
Definition DEFAULT_MAIN_KEY : string := "main".

Definition is_lower_alnum (c : ascii) : bool :=
  let n := nat_of_ascii c in
  ((48 <=? n) && (n <=? 57) || (97 <=? n) && (n <=? 122))%nat.

Definition is_upper (c : ascii) : bool :=
  let n := nat_of_ascii c in ((65 <=? n) && (n <=? 90))%nat.

(** [[a-z0-9_-]] *)
Definition is_id_char (c : ascii) : bool :=
  is_lower_alnum c || Ascii.eqb c "_" || Ascii.eqb c "-".

(** [[a-z0-9_-]] under the [i] flag *)
Definition is_id_char_i (c : ascii) : bool := is_id_char c || is_upper c.

(** [/^[a-z0-9][a-z0-9_-]{0,63}$/i.test(s)] *)
Definition valid_agent_id (s : string) : bool :=
  match s with
  | String c rest =>
      (is_lower_alnum c || is_upper c)
      && (String.length rest <=? 63)%nat
      && forallb is_id_char_i (list_ascii_of_string rest)
  | EmptyString => false
  end.

(** [s.replace(/[^a-z0-9_-]+/g, "-")]; [in_run] tells that the previous
    code unit belonged to a run that has been replaced. *)
Fixpoint dash_invalid_runs (in_run : bool) (s : string) : string :=
  match s with
  | String c s' =>
      if is_id_char c then String c (dash_invalid_runs false s')
      else if in_run then dash_invalid_runs true s'
           else String "-" (dash_invalid_runs true s')
  | EmptyString => EmptyString
  end.

(** [s.replace(/^-+/, "")] *)
Fixpoint strip_leading_dashes (s : string) : string :=
  match s with
  | String c s' => if Ascii.eqb c "-" then strip_leading_dashes s' else s
  | EmptyString => EmptyString
  end.

(** [s.replace(/-+$/, "")] *)
Fixpoint strip_trailing_dashes (s : string) : string :=
  match s with
  | String c s' =>
      match strip_trailing_dashes s' with
      | EmptyString =>
          if Ascii.eqb c "-" then EmptyString else String c EmptyString
      | r => String c r
      end
  | EmptyString => EmptyString
  end.

Definition normalizeAgentId (value : option string) : string :=
  let trimmed := trim (default EmptyString value) in
  if is_empty trimmed then DEFAULT_AGENT_ID
  else if valid_agent_id trimmed then trimmed
  else
    let cleaned :=
      take 64
        (strip_trailing_dashes
           (strip_leading_dashes
              (dash_invalid_runs false (toLowerCase trimmed)))) in
    if is_empty cleaned then DEFAULT_AGENT_ID else cleaned.

Definition buildAgentMainSessionKey (agentId : string)
    (mainKey : option string) : string :=
  let agentId := normalizeAgentId (Some agentId) in
  let mainKey :=
    let t := trim (default DEFAULT_MAIN_KEY mainKey) in
    if is_empty t then DEFAULT_MAIN_KEY else t in
  "agent:" +:+ agentId +:+ ":" +:+ mainKey.

(** [cfg?.session], as far as the session key reads it. *)
Record SessionSettings : Type := {
  scope : option string;
  mainKey : option string
}.

Definition resolveMainSessionKey (session : option SessionSettings) : string :=
  if bool_decide ((session ≫= scope) = Some "global") then "global"
  else
    let agentId := normalizeAgentId (Some DEFAULT_AGENT_ID) in
    let mainKey :=
      let t := trim (default DEFAULT_MAIN_KEY (session ≫= mainKey)) in
      if is_empty t then DEFAULT_MAIN_KEY else t in
    buildAgentMainSessionKey agentId (Some mainKey).

(** [SessionEntry] of [../config/types.ts]. *)
Record SessionEntry : Type := {
  sessionId : string;
  updatedAt : Z;
  thinkingLevel : option string;
  verboseLevel : option string;
  modelOverride : option string;
  inputTokens : option Z;
  outputTokens : option Z;
  totalTokens : option Z;
  modelProvider : option string;
  model : option string;
  contextTokens : option Z;
  compactionCount : option Z;
  displayName : option string
}.

Abbreviation SessionStore := (gmap string SessionEntry).

(** [{ sessionId, updatedAt }] *)
Definition fresh_entry (id : string) (now : Z) : SessionEntry :=
  {| sessionId := id; updatedAt := now;
     thinkingLevel := None; verboseLevel := None; modelOverride := None;
     inputTokens := None; outputTokens := None; totalTokens := None;
     modelProvider := None; model := None;
     contextTokens := None; compactionCount := None; displayName := None |}.

(** [getOrCreateSession(store, sessionKey)]: the entry returned and the
    store as the call leaves it; [uuid] is what [crypto.randomUUID()]
    draws and [now] what [Date.now()] reads. *)
Definition getOrCreateSession (store : SessionStore) (sessionKey : string)
    (uuid : string) (now : Z) : SessionEntry * SessionStore :=
  match store !! sessionKey with
  | Some existing => (existing, store)
  | None =>
      let newSession := fresh_entry uuid now in
      (newSession, <[sessionKey := newSession]> store)
  end.

Record Usage : Type := {
  input : option Z;
  output : option Z;
  total : option Z
}.

(** [updateSessionUsage]: [store] is what [loadSessionStore] read; the
    result is [next] and the store handed to [saveSessionStore]. *)
Definition updateSessionUsage (store : SessionStore) (sessionKey : string)
    (usage : option Usage) (model0 modelProvider0 : option string)
    (now : Z) (uuid : string) : SessionEntry * SessionStore :=
  let existing := store !! sessionKey in
  let next :=
    {| sessionId := default uuid (sessionId <$> existing);
       updatedAt := now;
       thinkingLevel := existing ≫= thinkingLevel;
       verboseLevel := existing ≫= verboseLevel;
       modelOverride := existing ≫= modelOverride;
       inputTokens :=
         Some (default 0 (existing ≫= inputTokens)
               + default 0 (usage ≫= input));
       outputTokens :=
         Some (default 0 (existing ≫= outputTokens)
               + default 0 (usage ≫= output));
       totalTokens :=
         Some (default 0 (existing ≫= totalTokens)
               + default 0 (usage ≫= total));
       modelProvider :=
         match modelProvider0 with
         | Some p => Some p
         | None => existing ≫= modelProvider
         end;
       model :=
         match model0 with
         | Some m => Some m
         | None => existing ≫= model
         end;
       contextTokens := existing ≫= contextTokens;
       compactionCount := existing ≫= compactionCount;
       displayName := existing ≫= displayName |} in
  (next, <[sessionKey := next]> store).

(** [{ ...sessionEntry, updatedAt: Date.now() }] *)
Definition touch (entry : SessionEntry) (now : Z) : SessionEntry :=
  {| sessionId := sessionId entry; updatedAt := now;
     thinkingLevel := thinkingLevel entry;
     verboseLevel := verboseLevel entry;
     modelOverride := modelOverride entry;
     inputTokens := inputTokens entry;
     outputTokens := outputTokens entry;
     totalTokens := totalTokens entry;
     modelProvider := modelProvider entry;
     model := model entry;
     contextTokens := contextTokens entry;
     compactionCount := compactionCount entry;
     displayName := displayName entry |}.

(** The session bookkeeping of [runClawdAgent], with the store file read as
    the store it holds ([disk]): the store is loaded and the session
    obtained before the agent runs; afterwards [updateSessionUsage] loads
    the file again, records the model and saves, and then the store loaded
    at the start is saved with the session touched.  The result is the
    file after each of the two saves. *)
Definition run_bookkeeping (disk : SessionStore) (sessionKey : string)
    (uuid1 : string) (t1 : Z)
    (modelName modelProvider0 : option string) (t2 : Z) (uuid2 : string)
    (t3 : Z) : SessionStore * SessionStore :=
  let store := disk in
  let '(sessionEntry, store) := getOrCreateSession store sessionKey uuid1 t1 in
  let disk_after_usage :=
    (updateSessionUsage disk sessionKey None modelName modelProvider0
       t2 uuid2).2 in
  let store := <[sessionKey := touch sessionEntry t3]> store in
  (disk_after_usage, store).

End Sessions.
(** ** packages/clawd-core/src/agents/skills.ts, environment overrides and
       the merge of the skill directories *)

Module SkillEnv.
Import Skills.

(** [{ key, prev }] *)
Definition Update : Type := string * option string.

(** [updates] and [process.env] as the loops of [applySkillEnvOverrides]
    carry them. *)
Definition EnvState : Type := list Update * gmap string string.

(** [updates.push({ key, prev: process.env[key] }); process.env[key] = value] *)
Definition push_update (st : EnvState) (key value : string) : EnvState :=
  (st.1 ++ [(key, st.2 !! key)], <[key := value]> st.2).

Section Overrides.
(** [Object.entries] of a record of strings, in property order. *)
Variable Object_entries : gmap string string -> list (string * string).

(** The body of [for (const entry of skills)]. *)
Definition override_for (config : option ClawdConfig) (st : EnvState)
    (entry : SkillEntry) : EnvState :=
  let skillKey := resolveSkillKey (skill entry) (Some entry) in
  match resolveSkillConfig config skillKey with
  | None => st
  | Some skillConfig =>
      let st :=
        match Config.env skillConfig with
        | Some env =>
            fold_left
              (fun st '(envKey, envValue) =>
                 if is_empty envValue || has_value st.2 envKey then st
                 else push_update st envKey envValue)
              (Object_entries env) st
        | None => st
        end in
      match clawd entry ≫= primaryEnv, apiKey skillConfig with
      | Some primaryEnv, Some apiKey =>
          if negb (is_empty primaryEnv) && negb (is_empty apiKey)
             && negb (has_value st.2 primaryEnv)
          then push_update st primaryEnv apiKey
          else st
      | _, _ => st
      end
  end.

(** [applySkillEnvOverrides]: the [updates] that the returned closure
    holds, and [process.env] as the call leaves it. *)
Definition applySkillEnvOverrides (skills : list SkillEntry)
    (config : option ClawdConfig) (process_env : gmap string string)
  : EnvState :=
  fold_left (override_for config) skills ([], process_env).

End Overrides.

(** The closure that [applySkillEnvOverrides] returns, run on the
    [process.env] of the time it is called. *)
Definition restore (updates : list Update) (process_env : gmap string string)
  : gmap string string :=
  fold_left
    (fun env '(key, prev) =>
       match prev with
       | None => delete key env
       | Some p => <[key := p]> env
       end)
    updates process_env.

(** What the loops keep true of [updates] and [process.env], for the
    environment [env0] the call started from. *)
Record overrides_ok (env0 : gmap string string) (st : EnvState) : Prop := {
  ok_keys : NoDup st.1.*1;
  ok_prev : forall key prev, (key, prev) ∈ st.1 ->
      prev = env0 !! key /\ has_value env0 key = false
      /\ has_value st.2 key = true;
  ok_rest : forall key, key ∉ st.1.*1 -> st.2 !! key = env0 !! key
}.

(** [merged.set(name, skill)] on a [Map], whose entries keep the order in
    which their keys were first set. *)
Fixpoint map_set (merged : list (string * Skill)) (name : string)
    (s : Skill) : list (string * Skill) :=
  match merged with
  | [] => [(name, s)]
  | (k, v) :: rest =>
      if String.eqb k name then (k, s) :: rest
      else (k, v) :: map_set rest name s
  end.

Definition set_all (skills : list Skill) (merged : list (string * Skill))
  : list (string * Skill) :=
  fold_left (fun merged s => map_set merged (skill_name s) s) skills merged.

(** The four loops over [merged] in [loadSkillEntries], and
    [Array.from(merged.values())]. *)
Definition merged_skills (extraSkills bundledSkills managedSkills
    workspaceSkills : list Skill) : list Skill :=
  let merged := [] in
  let merged := set_all extraSkills merged in
  let merged := set_all bundledSkills merged in
  let merged := set_all managedSkills merged in
  let merged := set_all workspaceSkills merged in
  merged.*2.

(** The last skill of the given name in a list. *)
Definition last_named (name : string) (skills : list Skill) : option Skill :=
  last (filter (fun s => skill_name s = name) skills).

End SkillEnv.
(** ** packages/clawd-core/src/agents/memory.ts, first part: the daily
       memory log *)

Module MemoryLog.

Definition MEMORY_DIR_NAME : string := "memory".

(** What [formatDateForMemory] reads of a [Date]: [getFullYear()],
    [getMonth()] (0 to 11) and [getDate()] (1 to 31). *)
Record JsDate : Type := { getFullYear : Z; getMonth : nat; getDate : nat }.

(** [s.padStart(2, "0")] *)
Definition padStart2 (s : string) : string :=
  match s with
  | EmptyString => "00"
  | String c EmptyString => String "0" s
  | _ => s
  end.

(** Format a date as YYYY-MM-DD for memory log filenames. *)
Definition formatDateForMemory (date : JsDate) : string :=
  let year := getFullYear date in
  let month := padStart2 (string_of_nat (getMonth date + 1)) in
  let day := padStart2 (string_of_nat (getDate date)) in
  string_of_Z year +:+ "-" +:+ month +:+ "-" +:+ day.

(** [\d] *)
Definition is_digit (c : ascii) : bool :=
  let n := nat_of_ascii c in ((48 <=? n) && (n <=? 57))%nat.

(** A text that has exactly one code unit for each class of [shape]. *)
Fixpoint has_shape (shape : list (ascii -> bool)) (s : string) : bool :=
  match shape, s with
  | [], EmptyString => true
  | cls :: shape', String c s' => cls c && has_shape shape' s'
  | _, _ => false
  end.

(** [/^\d{4}-\d{2}-\d{2}\.md$/.test(f)], the filter of [listMemoryLogs]. *)
Definition is_memory_log_name (f : string) : bool :=
  has_shape
    [is_digit; is_digit; is_digit; is_digit; Ascii.eqb "-";
     is_digit; is_digit; Ascii.eqb "-"; is_digit; is_digit;
     Ascii.eqb "."; Ascii.eqb "m"; Ascii.eqb "d"] f.

(** [date: f.replace(".md", "")] of a listed log. *)
Definition listed_date (f : string) : string := replace_first f ".md" "".

Section Logs.
(** [path.join] of the workspace directory, the memory directory name and
    a file name. *)
Variable path_join : string -> string -> string -> string.
(** The date that [setDate(getDate() - 1)] makes of a copy of [now]. *)
Variable day_before : JsDate -> JsDate.
(** [fs.promises.readFile(path, "utf-8")]: [None] when it throws. *)
Variable readFile : string -> option string.

(** Get memory log file path for a specific date. *)
Definition getMemoryLogPath (workspaceDir : string) (date : JsDate)
  : string :=
  let filename := formatDateForMemory date +:+ ".md" in
  path_join workspaceDir MEMORY_DIR_NAME filename.

(** Read a memory log file if it exists. *)
Definition readMemoryLog (workspaceDir : string) (date : JsDate)
  : option string :=
  match readFile (getMemoryLogPath workspaceDir date) with
  | Some content =>
      if is_empty (trim content) then None else Some (trim content)
  | None => None
  end.

Record DailyMemoryLogs : Type := {
  today : option string;
  yesterday : option string;
  combined : string;
  paths : string * string
}.

(** Load daily memory logs (today + yesterday) from workspace. *)
Definition loadDailyMemoryLogs (workspaceDir : string) (now : JsDate)
  : DailyMemoryLogs :=
  let yesterday := day_before now in
  let todayPath := getMemoryLogPath workspaceDir now in
  let yesterdayPath := getMemoryLogPath workspaceDir yesterday in
  let todayContent := readMemoryLog workspaceDir now in
  let yesterdayContent := readMemoryLog workspaceDir yesterday in
  let parts : list string := [] in
  let parts :=
    match yesterdayContent with
    | Some text =>
        parts ++ ["## Yesterday's Memory (" +:+ formatDateForMemory yesterday
                  +:+ ")" +:+ nl +:+ text]
    | None => parts
    end in
  let parts :=
    match todayContent with
    | Some text =>
        parts ++ ["## Today's Memory (" +:+ formatDateForMemory now
                  +:+ ")" +:+ nl +:+ text]
    | None => parts
    end in
  {| today := todayContent;
     yesterday := yesterdayContent;
     combined :=
       if (0 <? length parts)%nat then join (nl +:+ nl) parts
       else EmptyString;
     paths := (todayPath, yesterdayPath) |}.

End Logs.

(** Build context files for memory logs. *)
Definition buildMemoryContextFiles (logs : DailyMemoryLogs)
  : list (string * string) :=
  if is_empty (combined logs) then []
  else [("DAILY_MEMORY.md",
         "# Daily Memory Logs" +:+ nl +:+ nl +:+ combined logs)].

End MemoryLog.

(** ** packages/clawd-core/src/agents/memory.ts, second part: the agent
       workspace *)

Module Workspace.

Definition DEFAULT_AGENTS_FILENAME : string := "AGENTS.md".
Definition DEFAULT_SOUL_FILENAME : string := "SOUL.md".
Definition DEFAULT_TOOLS_FILENAME : string := "TOOLS.md".
Definition DEFAULT_IDENTITY_FILENAME : string := "IDENTITY.md".
Definition DEFAULT_USER_FILENAME : string := "USER.md".
Definition DEFAULT_HEARTBEAT_FILENAME : string := "HEARTBEAT.md".
Definition DEFAULT_BOOTSTRAP_FILENAME : string := "BOOTSTRAP.md".

(** The files of a file system on which [mkdir] succeeds, [access] throws
    exactly for a missing file, and a write with the flag [wx] fails only
    with [EEXIST], when the file exists. *)
Abbreviation Files := (gmap string string).

(** [writeFileIfMissing]: the write with [flag: "wx"], its [EEXIST]
    swallowed. *)
Definition writeFileIfMissing (filePath content : string) (files : Files)
  : Files :=
  match files !! filePath with
  | Some _ => files
  | None => <[filePath := content]> files
  end.

(** [try { await fs.access(p); return true } catch { return false }] *)
Definition accessible (files : Files) (p : string) : bool :=
  bool_decide (is_Some (files !! p)).

Record EnsureParams : Type := {
  param_dir : option string;
  ensureBootstrapFiles : option bool
}.

Record WorkspacePaths : Type := {
  agentsPath : string;
  soulPath : string;
  toolsPath : string;
  identityPath : string;
  userPath : string;
  heartbeatPath : string;
  bootstrapPath : string
}.

Section Host.
(** [resolveUserPath], [path.join] of a directory and a file name, and the
    workspace directory that [resolveDefaultAgentWorkspaceDir] gave when
    the module was loaded. *)
Variable resolveUserPath : string -> string.
Variable path_join : string -> string -> string.
Variable DEFAULT_AGENT_WORKSPACE_DIR : string.
(** The template texts, by file name. *)
Variable template : string -> string.

Definition workspace_dir (params : option EnsureParams) : string :=
  let rawDir :=
    match params ≫= param_dir with
    | Some d => if is_empty (trim d) then DEFAULT_AGENT_WORKSPACE_DIR
                else trim d
    | None => DEFAULT_AGENT_WORKSPACE_DIR
    end in
  resolveUserPath rawDir.

Definition workspace_paths (dir : string) : WorkspacePaths :=
  {| agentsPath := path_join dir DEFAULT_AGENTS_FILENAME;
     soulPath := path_join dir DEFAULT_SOUL_FILENAME;
     toolsPath := path_join dir DEFAULT_TOOLS_FILENAME;
     identityPath := path_join dir DEFAULT_IDENTITY_FILENAME;
     userPath := path_join dir DEFAULT_USER_FILENAME;
     heartbeatPath := path_join dir DEFAULT_HEARTBEAT_FILENAME;
     bootstrapPath := path_join dir DEFAULT_BOOTSTRAP_FILENAME |}.

(** The six paths probed for [isBrandNewWorkspace]. *)
Definition probed (ps : WorkspacePaths) : list string :=
  [agentsPath ps; soulPath ps; toolsPath ps; identityPath ps; userPath ps;
   heartbeatPath ps].

Definition ensureAgentWorkspace (params : option EnsureParams)
    (files : Files) : Files * (string * option WorkspacePaths) :=
  let dir := workspace_dir params in
  if negb (default false (params ≫= ensureBootstrapFiles))
  then (files, (dir, None))
  else
    let ps := workspace_paths dir in
    let isBrandNewWorkspace :=
      forallb (fun v => negb v) (accessible files <$> probed ps) in
    let files :=
      writeFileIfMissing (agentsPath ps) (template DEFAULT_AGENTS_FILENAME)
        files in
    let files :=
      writeFileIfMissing (soulPath ps) (template DEFAULT_SOUL_FILENAME)
        files in
    let files :=
      writeFileIfMissing (toolsPath ps) (template DEFAULT_TOOLS_FILENAME)
        files in
    let files :=
      writeFileIfMissing (identityPath ps)
        (template DEFAULT_IDENTITY_FILENAME) files in
    let files :=
      writeFileIfMissing (userPath ps) (template DEFAULT_USER_FILENAME)
        files in
    let files :=
      writeFileIfMissing (heartbeatPath ps)
        (template DEFAULT_HEARTBEAT_FILENAME) files in
    let files :=
      if isBrandNewWorkspace
      then writeFileIfMissing (bootstrapPath ps)
             (template DEFAULT_BOOTSTRAP_FILENAME) files
      else files in
    (files, (dir, Some ps)).

End Host.

End Workspace.

(** ** What the two [save] functions may touch *)

Module StoreCalls.
Import Fs.

(** The calls of a session store save: the directory is made, the
    temporary file or the store is written, the temporary file is renamed
    onto the store or removed. *)
Definition session_call (dir storePath tmp json : string) (c : FsCall)
  : bool :=
  match c with
  | Mkdir d => String.eqb d dir
  | WriteFile file data =>
      (String.eqb file tmp || String.eqb file storePath)
      && String.eqb data json
  | Rename from to => String.eqb from tmp && String.eqb to storePath
  | CopyFile _ _ => false
  | Rm file => String.eqb file tmp
  end.

(** The calls of a cron store save. *)
Definition cron_call (dir storePath tmp json : string) (c : FsCall)
  : bool :=
  match c with
  | Mkdir d => String.eqb d dir
  | WriteFile file data => String.eqb file tmp && String.eqb data json
  | Rename from to => String.eqb from tmp && String.eqb to storePath
  | CopyFile from to =>
      String.eqb from storePath && String.eqb to (storePath +:+ ".bak")
  | Rm _ => false
  end.

(** A file system without the directory of the store: every write throws
    [ENOENT], every other call returns.  The world counts the calls. *)
Definition no_directory_fs (c : FsCall) (calls : nat)
  : nat * outcome FsError unit :=
  (S calls,
   match c with
   | WriteFile _ _ => Throw {| code := Some "ENOENT" |}
   | _ => Ret tt
   end).

End StoreCalls.

(** ** The cron store, read back ([loadCronStore]) *)

Module CronStoreLoad.

(** [CronStoreFile] of [./types.ts], its jobs as the values they are. *)
Record CronStoreFile : Type := { version : Z; jobs : list JsVal }.

(** What [JSON.parse] makes of a serialized store. *)
Definition store_value (store : CronStoreFile) : JsVal :=
  JObj {[ "version" := JNum (version store); "jobs" := JArr (jobs store) ]}.

Section Host.
(** [fs.promises.readFile(path, "utf-8")] and [JSON.parse]: [None] when
    they throw. *)
Variable readFile : string -> option string.
Variable JSON_parse : string -> option JsVal.

(** Load cron store from disk. *)
Definition loadCronStore (storePath : string) : CronStoreFile :=
  match readFile storePath ≫= JSON_parse with
  | Some parsed =>
      let jobs :=
        match parsed with
        | JObj o =>
            match get o "jobs" with JArr items => items | _ => [] end
        | _ => []
        end in
      {| version := 1; jobs := filter (fun job => truthy job = true) jobs |}
  | None => {| version := 1; jobs := [] |}
  end.

End Host.

End CronStoreLoad.

(** ** Further example inputs *)

Module MoreScenarios.
Import Skills Scenarios.

(** A skill that needs [GH_TOKEN] and names it as its primary variable,
    configured with an API key. *)
Definition token_entry : SkillEntry :=
  {| skill := gh_skill; frontmatter := ∅;
     clawd :=
       Some {| always := None; skillKey := None;
               primaryEnv := Some "GH_TOKEN";
               emoji := None; homepage := None; os := None;
               requires :=
                 Some {| bins := None; anyBins := None;
                         req_env := Some ["GH_TOKEN"];
                         req_config := None |} |} |}.

Definition token_cfg : ClawdConfig :=
  {| agent := None;
     skills_entries :=
       Some {[ "github" := {| enabled := None; apiKey := Some "secret";
                              env := None |} ]} |}.

(** A skill marked [always], switched off in the configuration. *)
Definition always_entry : SkillEntry :=
  {| skill := gh_skill; frontmatter := ∅;
     clawd :=
       Some {| always := Some true; skillKey := None; primaryEnv := None;
               emoji := None; homepage := None; os := None;
               requires := None |} |}.

Definition switched_off_cfg : ClawdConfig :=
  {| agent := None;
     skills_entries :=
       Some {[ "github" := {| enabled := Some false; apiKey := None;
                              env := None |} ]} |}.

(** A cron store with one job, and a parser that knows its serialized
    text. *)
Definition one_job_store : CronStoreLoad.CronStoreFile :=
  {| CronStoreLoad.version := 1;
     CronStoreLoad.jobs := [JObj {[ "name" := JStr "tick" ]}] |}.

Definition show_cron_store (_ : CronStoreLoad.CronStoreFile) : string :=
  "one job".

Definition parse_one_job (s : string) : option JsVal :=
  if String.eqb s "one job"
  then Some (CronStoreLoad.store_value one_job_store) else None.

End MoreScenarios.

(** * Properties *)
(** ** Facts about the string built-ins *)

Module JsFacts.

Lemma app_cons (a : ascii) (s t : string) :
  String a s +:+ t = String a (s +:+ t).
Proof. reflexivity. Qed.

Lemma app_nil_l (t : string) : "" +:+ t = t.
Proof. reflexivity. Qed.

Lemma app_nil_r (s : string) : s +:+ "" = s.
Proof. induction s as [|a s IH]; [reflexivity|]. now rewrite app_cons, IH. Qed.

Lemma app_assoc (a b c : string) : (a +:+ b) +:+ c = a +:+ (b +:+ c).
Proof.
  induction a as [|x a IH]; [reflexivity|]. now rewrite !app_cons, IH.
Qed.

Lemma length_app (s t : string) :
  String.length (s +:+ t) = (String.length s + String.length t)%nat.
Proof.
  induction s as [|a s IH]; [reflexivity|].
  rewrite app_cons. simpl. now rewrite IH.
Qed.

Lemma is_empty_true (s : string) : is_empty s = true <-> s = "".
Proof. destruct s; simpl; split; congruence. Qed.

Lemma is_empty_length (s : string) :
  is_empty s = true <-> String.length s = 0%nat.
Proof. destruct s; simpl; split; congruence. Qed.

(** ** [take] and [drop] *)

Lemma take_drop (n : nat) (s : string) : take n s +:+ drop n s = s.
Proof.
  revert s; induction n as [|n IH]; intros [|a s]; try reflexivity.
  simpl. now rewrite app_cons, IH.
Qed.

Lemma length_drop (n : nat) (s : string) :
  String.length (drop n s) = (String.length s - n)%nat.
Proof.
  revert s; induction n as [|n IH]; intros [|a s]; simpl; auto with arith.
Qed.

Lemma length_take (n : nat) (s : string) :
  String.length (take n s) = Nat.min n (String.length s).
Proof.
  revert s; induction n as [|n IH]; intros [|a s]; simpl; auto with arith.
Qed.

Lemma drop_app_length (s t : string) : drop (String.length s) (s +:+ t) = t.
Proof.
  induction s as [|a s IH]; [now destruct t |]. rewrite app_cons. exact IH.
Qed.

Lemma take_app_length (s t : string) : take (String.length s) (s +:+ t) = s.
Proof.
  induction s as [|a s IH]; [now destruct t |].
  rewrite app_cons. simpl. now rewrite IH.
Qed.

Lemma drop_drop (n m : nat) (s : string) : drop n (drop m s) = drop (m + n) s.
Proof.
  revert s; induction m as [|m IH]; intros s; [reflexivity|].
  destruct s as [|a s]; [now destruct n | apply IH].
Qed.

(** ** [startsWith], [includes], [indexOf] *)

Lemma startsWith_app (s t : string) : startsWith (t +:+ s) t = true.
Proof.
  induction t as [|b t IH]; [now destruct s|].
  rewrite app_cons. simpl. now rewrite Ascii.eqb_refl, IH.
Qed.

Lemma startsWith_split (s t : string) :
  startsWith s t = true -> s = t +:+ drop (String.length t) s.
Proof.
  revert s; induction t as [|b t IH]; intros s H; [now destruct s|].
  destruct s as [|a s]; [discriminate|]. simpl in H.
  apply andb_true_iff in H as [Hab Hst]. apply Ascii.eqb_eq in Hab as ->.
  rewrite app_cons. simpl. f_equal. now apply IH.
Qed.

Lemma startsWith_length (s t : string) :
  startsWith s t = true -> (String.length t <= String.length s)%nat.
Proof.
  intros H. rewrite (startsWith_split s t H), length_app. lia.
Qed.

Lemma indexOf_eq (s t : string) :
  indexOf s t
  = if startsWith s t then Some 0%nat
    else match s with
         | String _ s' =>
             match indexOf s' t with Some i => Some (S i) | None => None end
         | EmptyString => None
         end.
Proof. destruct s; reflexivity. Qed.

Lemma includes_eq (s t : string) :
  includes s t
  = startsWith s t
    || match s with String _ s' => includes s' t | EmptyString => false end.
Proof. destruct s; reflexivity. Qed.

Lemma indexOf_split (s t : string) (i : nat) :
  indexOf s t = Some i ->
  s = take i s +:+ t +:+ drop (i + String.length t) s.
Proof.
  revert i; induction s as [|a s IH]; intros i; rewrite indexOf_eq;
    destruct (startsWith _ t) eqn:E; try discriminate.
  - intros [= <-]. now apply startsWith_split.
  - intros [= <-]. now apply startsWith_split.
  - destruct (indexOf s t) as [j|] eqn:Ej; [|discriminate].
    intros [= <-]. simpl. rewrite app_cons. f_equal. now apply IH.
Qed.

Lemma includes_app (pre t post : string) :
  includes (pre +:+ t +:+ post) t = true.
Proof.
  induction pre as [|a pre IH].
  - rewrite app_nil_l, includes_eq. now rewrite startsWith_app.
  - rewrite app_cons, includes_eq, IH. apply orb_true_r.
Qed.

Lemma includes_app_r (p s t : string) :
  includes s t = true -> includes (p +:+ s) t = true.
Proof.
  intros H. induction p as [|a p IH]; [exact H|].
  rewrite app_cons, includes_eq, IH. apply orb_true_r.
Qed.

Lemma includes_indexOf (s t : string) :
  includes s t = true -> exists i, indexOf s t = Some i.
Proof.
  induction s as [|a s IH]; rewrite includes_eq, indexOf_eq;
    destruct (startsWith _ t); eauto; simpl; try discriminate.
  intros H. destruct (IH H) as [i ->]. eauto.
Qed.

Lemma includes_length (s t : string) :
  includes s t = true -> (String.length t <= String.length s)%nat.
Proof.
  induction s as [|a s IH]; rewrite includes_eq;
    destruct (startsWith _ t) eqn:E; simpl; try discriminate;
    try (intros _; now apply startsWith_length in E).
  intros H. apply IH in H. lia.
Qed.

(** Removing the first occurrence of a text that occurs. *)
Lemma replace_first_remove (s t : string) :
  includes s t = true ->
  exists pre post, s = pre +:+ t +:+ post /\ replace_first s t "" = pre +:+ post.
Proof.
  intros H. destruct (includes_indexOf s t H) as [i Hi].
  exists (take i s), (drop (i + String.length t) s). split.
  - now apply indexOf_split.
  - unfold replace_first. now rewrite Hi, app_nil_l.
Qed.

End JsFacts.

(** ** Facts about trimming and the ends of a string *)

Module TrimFacts.
Import JsFacts.

Lemma length_trimStart (s : string) :
  (String.length (trimStart s) <= String.length s)%nat.
Proof.
  induction s as [|a s IH]; simpl; [lia|]. destruct (is_ws a); simpl; lia.
Qed.

(** [trimEnd] keeps a prefix. *)
Lemma trimEnd_prefix (s : string) : exists r, s = trimEnd s +:+ r.
Proof.
  induction s as [|a s IH]; [now exists ""|].
  destruct IH as [r Hr]. simpl.
  destruct (trimEnd s) as [|b t] eqn:E.
  - destruct (is_ws a).
    + now exists (String a s).
    + exists s. reflexivity.
  - exists r. rewrite app_cons. now rewrite <- Hr.
Qed.

Lemma length_trimEnd (s : string) :
  (String.length (trimEnd s) <= String.length s)%nat.
Proof.
  destruct (trimEnd_prefix s) as [r Hr]. rewrite Hr at 2.
  rewrite length_app. lia.
Qed.

Lemma length_trim (s : string) :
  (String.length (trim s) <= String.length s)%nat.
Proof.
  unfold trim. pose proof (length_trimEnd (trimStart s)).
  pose proof (length_trimStart s). lia.
Qed.

Lemma endsWith_eq (s t : string) :
  endsWith s t
  = String.eqb s t
    || match s with String _ s' => endsWith s' t | EmptyString => false end.
Proof. destruct s; reflexivity. Qed.

Lemma endsWith_length (s t : string) :
  endsWith s t = true -> (String.length t <= String.length s)%nat.
Proof.
  induction s as [|a s IH]; rewrite endsWith_eq;
    [destruct (String.eqb_spec "" t) as [<-|Hne]
    |destruct (String.eqb_spec (String a s) t) as [<-|Hne]];
    simpl; try lia; try discriminate.
  intros H. apply IH in H. lia.
Qed.

Lemma endsWith_includes (s t : string) :
  endsWith s t = true -> includes s t = true.
Proof.
  induction s as [|a s IH]; rewrite endsWith_eq, includes_eq;
    [destruct (String.eqb_spec "" t) as [<-|Hne]
    |destruct (String.eqb_spec (String a s) t) as [<-|Hne]]; simpl.
  - reflexivity.
  - discriminate.
  - intros _. rewrite Ascii.eqb_refl. simpl.
    rewrite <- (app_nil_r s) at 1. now rewrite startsWith_app.
  - intros H. rewrite (IH H). apply orb_true_r.
Qed.

Lemma startsWith_includes (s t : string) :
  startsWith s t = true -> includes s t = true.
Proof. intros H. now rewrite includes_eq, H. Qed.

(** A prefix that starts with [t] makes the whole start with [t]. *)
Lemma startsWith_prefix (p r t : string) :
  startsWith p t = true -> startsWith (p +:+ r) t = true.
Proof.
  intros H. rewrite (startsWith_split p t H), app_assoc.
  apply startsWith_app.
Qed.

Lemma length_dropEnd (n : nat) (s : string) :
  String.length (dropEnd n s) = (String.length s - n)%nat.
Proof. unfold dropEnd. rewrite length_take. lia. Qed.

Lemma dropEnd_prefix (n : nat) (s : string) : exists r, s = dropEnd n s +:+ r.
Proof.
  unfold dropEnd. exists (drop (String.length s - n) s).
  now rewrite take_drop.
Qed.

End TrimFacts.

(** ** Facts about substrings *)

Module SubstringFacts.
Import JsFacts TrimFacts.

Lemma trimStart_suffix (s : string) : exists l, s = l +:+ trimStart s.
Proof.
  induction s as [|a s [l Hl]]; [now exists ""|]. simpl.
  destruct (is_ws a).
  - exists (String a l). rewrite app_cons. now rewrite <- Hl.
  - now exists "".
Qed.

Lemma includes_split (s t : string) :
  includes s t = true -> exists pre post, s = pre +:+ t +:+ post.
Proof.
  intros H. destruct (includes_indexOf s t H) as [i Hi].
  exists (take i s), (drop (i + String.length t) s).
  apply indexOf_split, Hi.
Qed.

Lemma includes_app_l (s r t : string) :
  includes s t = true -> includes (s +:+ r) t = true.
Proof.
  intros H. destruct (includes_split s t H) as (pre & post & ->).
  rewrite !app_assoc. apply includes_app.
Qed.

(** What the trimmed text contains, the text contains. *)
Lemma includes_trim (s t : string) :
  includes (trim s) t = true -> includes s t = true.
Proof.
  intros H. unfold trim in H.
  destruct (trimStart_suffix s) as [l Hl].
  destruct (trimEnd_prefix (trimStart s)) as [r Hr].
  rewrite Hl, Hr. now apply includes_app_r, includes_app_l.
Qed.

End SubstringFacts.

(** ** Next-run computation *)

Section ScheduleProps.
Import Schedule Scenarios.
Local Open Scope Z_scope.

Lemma ceil_steps (every elapsed : Z) :
  1 <= every -> 0 <= elapsed ->
  let steps := Z.max 1 ((elapsed + every - 1) / every) in
  1 <= steps /\ elapsed <= steps * every /\
  forall j, 1 <= j -> elapsed <= j * every -> steps <= j.
Proof.
  intros He Hel steps.
  assert (Hq : (elapsed + every - 1) / every * every <= elapsed + every - 1).
  { rewrite Z.mul_comm. apply Z.mul_div_le. lia. }
  assert (Hr : elapsed + every - 1 < ((elapsed + every - 1) / every + 1) * every).
  { pose proof (Z.mod_pos_bound (elapsed + every - 1) every ltac:(lia)).
    pose proof (Z.div_mod (elapsed + every - 1) every ltac:(lia)). nia. }
  subst steps. split; [lia|]. split.
  - set (q := (elapsed + every - 1) / every) in *.
    destruct (Z.max_spec 1 q) as [[? ->]|[? ->]].
    + lia.
    + assert ((q + 1) * every <= 2 * every) by (apply Z.mul_le_mono_nonneg_r; lia).
      lia.
  - intros j Hj Hle.
    destruct (Z.max_spec 1 ((elapsed + every - 1) / every)) as [[? ->]|[? ->]]; [|lia].
    apply Z.lt_succ_r, Z.div_lt_upper_bound; [lia|].
    replace (every * Z.succ j) with (j * every + every) by ring. lia.
Qed.

(** C3. For an every-schedule, with [everyMs] and [anchor] the values the
    function computes first (the period, at least 1, and the anchor, at
    least 0 and [now] when none is given): before the anchor the next run
    is the anchor; from the anchor on it is [anchor + k * everyMs] for the
    smallest [k >= 1] that does not lie before [now].  With a period of
    60000 and the anchor 1000000 the next run is 1060000 at 1059000 and
    1120000 at 1060001; with period 1 and the anchor at [now] it is
    [now + 1]. *)
Theorem every_next_run (croner : Croner) (everyMs0 : Z) (anchorMs : option Z)
    (now : Z) :
  let everyMs := Z.max 1 everyMs0 in
  let anchor := Z.max 0 (default now anchorMs) in
  let next := computeNextRunAtMs croner (Every everyMs0 anchorMs) now in
  (now < anchor -> next = Ret (Some anchor))
  /\ (anchor <= now ->
      exists k, 1 <= k /\ next = Ret (Some (anchor + k * everyMs))
                /\ now <= anchor + k * everyMs
                /\ forall j, 1 <= j -> now <= anchor + j * everyMs -> k <= j)
  /\ computeNextRunAtMs croner (Every 60000 (Some 1000000)) 1059000
     = Ret (Some 1060000)
  /\ computeNextRunAtMs croner (Every 60000 (Some 1000000)) 1060001
     = Ret (Some 1120000)
  /\ (everyMs0 = 1 -> anchor = now -> next = Ret (Some (now + 1))).
Proof.
  intros everyMs anchor next. subst next. unfold computeNextRunAtMs.
  fold everyMs. fold anchor.
  repeat split.
  - intros H. apply Z.ltb_lt in H. now rewrite H.
  - intros H. assert (Hlt : (now <? anchor) = false) by (apply Z.ltb_ge; lia).
    rewrite Hlt.
    destruct (ceil_steps everyMs (now - anchor)) as (H1 & H2 & H3);
      [subst everyMs; lia | lia |].
    eexists. split; [exact H1|]. split; [reflexivity|]. split; [lia|].
    intros j Hj Hle. apply H3; lia.
  - intros He Ha. assert (Hlt : (now <? anchor) = false) by (apply Z.ltb_ge; lia).
    rewrite Hlt. subst everyMs. rewrite He, Ha.
    change (Z.max 1 1) with 1.
    replace (now - now + 1 - 1) with 0 by lia.
    change (Z.max 1 (0 / 1)) with 1. do 2 f_equal; lia.
Qed.

Lemma every_next_run_witness :
  computeNextRunAtMs (fun _ _ _ => Ret None) (Every 1 (Some 5)) 5 = Ret (Some 6).
Proof.
  destruct (every_next_run (fun _ _ _ => Ret None) 1 (Some 5) 5)
    as (_ & _ & _ & _ & H).
  apply H; reflexivity.
Defined.

(** C4. Whenever the next run computed at [now] is a time [n1],
    re-evaluating the schedule at [n1] never gives an earlier time.  An
    at-schedule, which answered its own instant [atMs > now], gives no
    time at [n1], since it fires once.  An every-schedule gives a time,
    and that time is not before [n1].  A cron expression gives what
    [croner] answers at [n1] for the same trimmed pattern and time zone;
    [croner] looks forward, so a time it gives is not before [n1]. *)
Theorem next_run_monotonic (croner : Croner) (schedule : CronSchedule)
    (now n1 : Z) :
  computeNextRunAtMs croner schedule now = Ret (Some n1) ->
  croner_not_before croner schedule ->
  (forall n2,
      computeNextRunAtMs croner schedule n1 = Ret (Some n2) -> n1 <= n2)
  /\ match schedule with
     | At atMs =>
         now < atMs /\ n1 = atMs
         /\ computeNextRunAtMs croner schedule n1 = Ret None
     | Every _ _ =>
         exists n2,
           computeNextRunAtMs croner schedule n1 = Ret (Some n2)
           /\ n1 <= n2
     | CronExpr expr tz =>
         trim expr <> ""
         /\ computeNextRunAtMs croner schedule n1
            = croner (trim expr) (cron_timezone tz) n1
     end.
Proof.
  destruct schedule as [atMs | everyMs0 anchorMs | expr tz].
  - cbn [computeNextRunAtMs].
    destruct (Z.ltb_spec now atMs) as [Hlt|Hge]; intros [= <-] _.
    rewrite Z.ltb_irrefl. split; [discriminate | auto].
  - intros _ _.
    assert (Hre : exists n2,
               computeNextRunAtMs croner (Every everyMs0 anchorMs) n1
               = Ret (Some n2)
               /\ n1 <= n2).
    { cbn [computeNextRunAtMs]. cbv zeta. set (everyMs := Z.max 1 everyMs0).
      destruct (Z.ltb_spec n1 (Z.max 0 (default n1 anchorMs))) as [Hlt|Hge].
      - eexists. split; [reflexivity | lia].
      - eexists. split; [reflexivity|].
        destruct (ceil_steps everyMs (n1 - Z.max 0 (default n1 anchorMs)))
          as (_ & H2 & _); [subst everyMs; lia | lia |]. lia. }
    destruct Hre as (n2 & E & Hle). split; [|eauto].
    intros n2' E'. rewrite E in E'. injection E' as <-. exact Hle.
  - cbn [computeNextRunAtMs croner_not_before].
    destruct (is_empty (trim expr)) eqn:Hemp; [discriminate|].
    intros _ Hcroner. split; [intros n2; apply Hcroner|].
    split; [|reflexivity]. intros H. rewrite H in Hemp. discriminate.
Qed.

Lemma next_run_monotonic_witness :
  (computeNextRunAtMs every_minute (At 100) 0 = Ret (Some 100)
   /\ computeNextRunAtMs every_minute (At 100) 100 = Ret None)
  /\ (computeNextRunAtMs every_minute (Every 60000 (Some 1000000)) 1059000
      = Ret (Some 1060000)
      /\ exists n2,
           computeNextRunAtMs every_minute (Every 60000 (Some 1000000))
             1060000 = Ret (Some n2)
           /\ 1060000 <= n2)
  /\ (computeNextRunAtMs every_minute (CronExpr "* * * * *" None) 1059000
      = Ret (Some 1080000)
      /\ 1080000 <= 1140000).
Proof.
  split; [|split]; (split; [reflexivity|]).
  - exact (proj2 (proj2 (proj2
             (next_run_monotonic every_minute (At 100) 0 100 eq_refl I)))).
  - exact (proj2
             (next_run_monotonic every_minute (Every 60000 (Some 1000000))
                1059000 1060000 eq_refl I)).
  - refine (proj1
              (next_run_monotonic every_minute (CronExpr "* * * * *" None)
                 1059000 1080000 eq_refl _) 1140000 eq_refl).
    intros t n [= <-].
    pose proof (Z.mod_pos_bound t 60000 ltac:(lia)).
    pose proof (Z.div_mod t 60000 ltac:(lia)). lia.
Defined.

End ScheduleProps.

(** ** Cron job input normalization *)

Section NormalizeProps.
Import Normalize Scenarios.

Lemma get_insert_ne (m : UnknownRecord) (k k' : string) (v : JsVal) :
  k ≠ k' -> get (<[k := v]> m) k' = get m k'.
Proof. intros H. unfold get. now rewrite lookup_insert_ne. Qed.

Lemma get_insert_eq (m : UnknownRecord) (k : string) (v : JsVal) :
  get (<[k := v]> m) k = v.
Proof. unfold get. now rewrite lookup_insert_eq. Qed.

Lemma insert_get_id (m : UnknownRecord) (k : string) (v : JsVal) :
  get m k = v -> v ≠ JUndef -> <[k := v]> m = m.
Proof.
  unfold get. intros H Hv. apply insert_id.
  destruct (m !! k); simpl in H; congruence.
Qed.

Lemma unwrapJob_plain (obj : UnknownRecord) :
  enveloped obj = false -> unwrapJob obj = obj.
Proof.
  unfold enveloped, unwrapJob. intros H. apply orb_false_iff in H as [H1 H2].
  destruct (get obj "data"); try discriminate;
    destruct (get obj "job"); try discriminate; reflexivity.
Qed.

Lemma coerceSchedule_idem (s : UnknownRecord) :
  coerceSchedule (coerceSchedule s) = coerceSchedule s.
Proof.
  unfold coerceSchedule at 2 3.
  destruct (lacks_kind s) eqn:Hk.
  - destruct (isNumber (get s "atMs")) eqn:H1;
      [ unfold coerceSchedule, lacks_kind; now rewrite get_insert_eq |].
    destruct (isNumber (get s "everyMs")) eqn:H2;
      [ unfold coerceSchedule, lacks_kind; now rewrite get_insert_eq |].
    destruct (isString (get s "expr")) eqn:H3;
      [ unfold coerceSchedule, lacks_kind; now rewrite get_insert_eq |].
    unfold coerceSchedule. now rewrite Hk, H1, H2, H3.
  - unfold coerceSchedule. now rewrite Hk.
Qed.

Lemma coercePayload_idem (s : UnknownRecord) :
  coercePayload (coercePayload s) = coercePayload s.
Proof.
  unfold coercePayload at 2 3.
  destruct (lacks_kind s) eqn:Hk.
  - destruct (isString (get s "text")) eqn:H1;
      [ unfold coercePayload, lacks_kind; now rewrite get_insert_eq |].
    destruct (isString (get s "message")) eqn:H2;
      [ unfold coercePayload, lacks_kind; now rewrite get_insert_eq |].
    unfold coercePayload. now rewrite Hk, H1, H2.
  - unfold coercePayload. now rewrite Hk.
Qed.

Lemma normalize_unfold (o : UnknownRecord) (options : NormalizeOptions) :
  normalizeCronJobInput (JObj o) options
  = JObj (if flag_set (applyDefaults options)
          then apply_defaults (coerce_fields (unwrapJob o))
          else coerce_fields (unwrapJob o)).
Proof. reflexivity. Qed.

Lemma coerce_fields_get (base : UnknownRecord) (k : string) :
  k ≠ "schedule" -> k ≠ "payload" -> get (coerce_fields base) k = get base k.
Proof.
  intros H1 H2. unfold coerce_fields.
  destruct (get base "payload"); destruct (get base "schedule");
    rewrite ?get_insert_ne by congruence; reflexivity.
Qed.

Lemma coerce_fields_idem (base : UnknownRecord) :
  coerce_fields (coerce_fields base) = coerce_fields base.
Proof.
  unfold coerce_fields at 1.
  assert (Hs : match get (coerce_fields base) "schedule" with
               | JObj s => <["schedule" := JObj (coerceSchedule s)]>
                             (coerce_fields base)
               | _ => coerce_fields base
               end = coerce_fields base).
  { assert (Hg : get (coerce_fields base) "schedule"
                 = match get base "schedule" with
                   | JObj s => JObj (coerceSchedule s)
                   | v => v
                   end).
    { unfold coerce_fields.
      destruct (get base "payload"); rewrite ?get_insert_ne by discriminate;
        destruct (get base "schedule") eqn:E; rewrite ?get_insert_eq; auto. }
    rewrite Hg. destruct (get base "schedule") eqn:E; try reflexivity.
    rewrite coerceSchedule_idem. apply insert_get_id; [|discriminate].
    exact Hg. }
  assert (Hg : get (coerce_fields base) "payload"
               = match get base "payload" with
                 | JObj s => JObj (coercePayload s)
                 | v => v
                 end).
  { unfold coerce_fields.
    destruct (get base "payload") eqn:E; rewrite ?get_insert_eq; auto;
      destruct (get base "schedule"); rewrite ?get_insert_ne by discriminate;
      auto. }
  rewrite Hg. destruct (get base "payload") eqn:E; rewrite Hs; try reflexivity.
  rewrite coercePayload_idem. apply insert_get_id; [|discriminate].
  exact Hg.
Qed.

Lemma coerce_fields_insert (m : UnknownRecord) (k : string) (v : JsVal) :
  k ≠ "schedule" -> k ≠ "payload" ->
  coerce_fields (<[k := v]> m) = <[k := v]> (coerce_fields m).
Proof.
  intros H1 H2. unfold coerce_fields. rewrite !get_insert_ne by congruence.
  destruct (get m "payload"); destruct (get m "schedule"); try reflexivity;
    apply map_eq; intros i; rewrite !lookup_insert;
    repeat case_decide; subst; congruence.
Qed.

Ltac split_ifs :=
  repeat match goal with
         | |- context [if ?b then _ else _] =>
             lazymatch b with
             | context [if _ then _ else _] => fail
             | _ => destruct b eqn:?
             end
         end.

Lemma coerce_fields_apply_defaults (m : UnknownRecord) :
  coerce_fields m = m -> coerce_fields (apply_defaults m) = apply_defaults m.
Proof.
  intros H. unfold apply_defaults. split_ifs;
    rewrite ?coerce_fields_insert by discriminate; now rewrite H.
Qed.

Lemma apply_defaults_get (m : UnknownRecord) (k : string) :
  k ≠ "wakeMode" -> k ≠ "sessionTarget" -> get (apply_defaults m) k = get m k.
Proof.
  intros H1 H2. unfold apply_defaults. split_ifs;
    rewrite ?get_insert_ne by congruence; reflexivity.
Qed.

Lemma apply_defaults_idem (m : UnknownRecord) :
  apply_defaults (apply_defaults m) = apply_defaults m.
Proof.
  unfold apply_defaults at 2 3.
  set (m1 := if negb (truthy (get m "wakeMode"))
             then <["wakeMode" := JStr "next-heartbeat"]> m else m).
  assert (Hw : truthy (get m1 "wakeMode") = true).
  { subst m1. destruct (truthy (get m "wakeMode")) eqn:E; simpl; auto.
    now rewrite get_insert_eq. }
  assert (Hfix : forall m', get m' "wakeMode" = get m1 "wakeMode" ->
            apply_defaults m'
            = if negb (truthy (get m' "sessionTarget"))
                 && isRecord (get m' "payload")
              then
                let kind :=
                  match get m' "payload" with
                  | JObj payload =>
                      match get payload "kind" with
                      | JStr k => k | _ => EmptyString end
                  | _ => EmptyString
                  end in
                let next :=
                  if String.eqb kind "systemEvent"
                  then <["sessionTarget" := JStr "main"]> m' else m' in
                if String.eqb kind "agentTurn"
                then <["sessionTarget" := JStr "isolated"]> next else next
              else m').
  { intros m' Hm'. unfold apply_defaults. rewrite Hm', Hw. reflexivity. }
  destruct (negb (truthy (get m1 "sessionTarget")) && isRecord (get m1 "payload"))
    eqn:Hc.
  - cbv zeta.
    set (kind := match get m1 "payload" with
                 | JObj payload =>
                     match get payload "kind" with
                     | JStr k => k | _ => EmptyString end
                 | _ => EmptyString
                 end) in *.
    destruct (String.eqb kind "systemEvent") eqn:E1;
      destruct (String.eqb kind "agentTurn") eqn:E2.
    + apply String.eqb_eq in E1, E2. congruence.
    + rewrite Hfix by (now rewrite get_insert_ne).
      now rewrite get_insert_eq.
    + rewrite Hfix by (now rewrite get_insert_ne).
      now rewrite get_insert_eq.
    + rewrite Hfix by reflexivity. rewrite Hc. cbv zeta. fold kind.
      now rewrite E1, E2.
  - rewrite Hfix by reflexivity. now rewrite Hc.
Qed.

Lemma apply_defaults_not_enveloped (m : UnknownRecord) :
  enveloped (apply_defaults m) = enveloped m.
Proof. unfold enveloped. now rewrite !apply_defaults_get by discriminate. Qed.

Lemma coerce_fields_not_enveloped (m : UnknownRecord) :
  enveloped (coerce_fields m) = enveloped m.
Proof. unfold enveloped. now rewrite !coerce_fields_get by discriminate. Qed.

Lemma normalizeCronJobInput_idem (raw : JsVal) (options : NormalizeOptions) :
  plain_job raw ->
  normalizeCronJobInput (normalizeCronJobInput raw options) options
  = normalizeCronJobInput raw options.
Proof.
  destruct raw as [| | | | | |o]; try reflexivity.
  intros Hp. simpl in Hp. rewrite (normalize_unfold o).
  destruct (flag_set (applyDefaults options)) eqn:Hf;
    rewrite normalize_unfold, Hf; f_equal.
  - rewrite unwrapJob_plain
      by now rewrite apply_defaults_not_enveloped, coerce_fields_not_enveloped.
    rewrite coerce_fields_apply_defaults by apply coerce_fields_idem.
    apply apply_defaults_idem.
  - rewrite unwrapJob_plain by now rewrite coerce_fields_not_enveloped.
    apply coerce_fields_idem.
Qed.

(** C5, amended. Normalizing twice gives what normalizing once gives, for
    [normalizeCronJobInput], [normalizeCronJobCreate] and
    [normalizeCronJobPatch] alike, on every input whose job object, once
    its [data] or [job] envelope is opened, has no record-valued [data] or
    [job] property of its own. *)
Theorem normalize_idempotent_on_plain_jobs (raw : JsVal)
    (options : NormalizeOptions) (options' : option NormalizeOptions) :
  plain_job raw ->
  normalizeCronJobInput (normalizeCronJobInput raw options) options
  = normalizeCronJobInput raw options
  /\ normalizeCronJobCreate (normalizeCronJobCreate raw options') options'
     = normalizeCronJobCreate raw options'
  /\ normalizeCronJobPatch (normalizeCronJobPatch raw options') options'
     = normalizeCronJobPatch raw options'.
Proof.
  intros H. unfold normalizeCronJobCreate, normalizeCronJobPatch.
  auto using normalizeCronJobInput_idem.
Qed.

Lemma normalize_idempotent_on_plain_jobs_witness :
  normalizeCronJobCreate (normalizeCronJobCreate wrapped_job None) None
  = normalizeCronJobCreate wrapped_job None.
Proof.
  refine (proj1 (proj2 (normalize_idempotent_on_plain_jobs wrapped_job
                          DEFAULT_OPTIONS None _))).
  vm_compute. reflexivity.
Defined.

(** C5, counterexample. A job inside two [data] envelopes: the first
    normalization opens the outer one, the second opens the inner one. *)
Lemma normalize_not_idempotent_nested_envelope :
  normalizeCronJobInput (normalizeCronJobInput doubly_wrapped DEFAULT_OPTIONS)
    DEFAULT_OPTIONS
  <> normalizeCronJobInput doubly_wrapped DEFAULT_OPTIONS.
Proof.
  intros H.
  apply (f_equal (fun v => match v with
                           | JObj o => isRecord (get o "data")
                           | _ => false
                           end)) in H.
  vm_compute in H. discriminate.
Qed.

End NormalizeProps.
(** ** Model fallback *)

Section FallbackProps.
Import ModelFallback Scenarios.

Lemma example_candidates :
  resolveFallbackCandidates (Some example_cfg) "openai" "gpt-x"
  = [ {| provider := "openai"; model := "gpt-x" |};
      {| provider := "anthropic"; model := "claude-y" |};
      {| provider := "google"; model := "gemini-z" |} ].
Proof. vm_compute. reflexivity. Qed.

Section RunnerProps.
Context {W T : Type}.
Variable run : string -> string -> @Eff W T.
Variable onError : option (ErrorInfo -> @Eff W unit).

Lemma try_from_all_fail (total : nat) (cs : list ModelCandidate) :
  forall i acc last w errs w',
    all_fail run onError total i cs w errs w' ->
    try_from run onError total cs i acc last w
    = (w', Exhausted (acc ++ zip_with attempt_of cs errs)
             (match reverse errs with e :: _ => Some e | [] => last end)).
Proof.
  induction cs as [|c cs IH]; intros i acc last w errs w' H;
    inversion H as [|i' c' cs' e errs' w0 w1 w'' Hf Hrest]; subst.
  - simpl. now rewrite app_nil_r.
  - destruct Hf as (w2 & Hrun & Habort & Hnotify). simpl.
    rewrite Hrun, Habort, Hnotify.
    rewrite (IH _ _ _ _ _ _ Hrest). rewrite <- app_assoc. simpl.
    f_equal. f_equal. rewrite reverse_cons.
    destruct (reverse errs'); reflexivity.
Qed.

Lemma all_fail_length total i cs w errs w' :
  all_fail run onError total i cs w errs w' -> length errs = length cs.
Proof. induction 1; simpl; congruence. Qed.

Lemma try_from_abort (total : nat) (pre : list ModelCandidate) :
  forall i acc last w errs w1 c post w2 e,
    all_fail run onError total i pre w errs w1 ->
    run (provider c) (model c) w1 = (w2, Throw e) ->
    isAbortError e = true ->
    try_from run onError total (pre ++ c :: post) i acc last w
    = (w2, Raised e).
Proof.
  induction pre as [|p pre IH]; intros i acc last w errs w1 c post w2 e H Hrun Ha;
    inversion H as [|i' c' cs' e' errs' w0 w1' w'' Hf Hrest]; subst.
  - simpl. now rewrite Hrun, Ha.
  - destruct Hf as (w3 & Hrun' & Habort & Hnotify). simpl.
    rewrite Hrun', Habort, Hnotify. eapply IH; eauto.
Qed.

Lemma join_includes (sep x : string) (l : list string) :
  In x l -> exists pre post, join sep l = pre +:+ x +:+ post.
Proof.
  induction l as [|y l IH]; [intros []|].
  intros [->|Hin].
  - destruct l as [|z l].
    + exists "", "". simpl. now rewrite JsFacts.app_nil_r.
    + exists "", (sep +:+ join sep (z :: l)). reflexivity.
  - destruct (IH Hin) as (pre & post & E). destruct l as [|z l]; [destruct Hin|].
    exists (y +:+ sep +:+ pre), post.
    change (join sep (y :: z :: l)) with (y +:+ sep +:+ join sep (z :: l)).
    now rewrite E, !JsFacts.app_assoc.
Qed.

(** C1. When the first candidate of the resolved chain (the primary)
    fails with an error that is no cancellation and the second (the first
    fallback) succeeds, the runner returns the fallback's result tagged
    with the fallback's provider and model, and [attempts] holds exactly
    one entry: the primary's provider, model and error text.  For the
    primary openai/gpt-x with the fallbacks anthropic/claude-y and
    google/gemini-z this is anthropic/claude-y with one attempt naming
    openai/gpt-x. *)
Theorem fallback_returns_first_working_fallback
    (cfg : option ClawdConfig) (provider0 model0 : string)
    (c0 c1 : ModelCandidate) (rest : list ModelCandidate)
    (e : Thrown) (r : T) (w w1 w2 : W) :
  resolveFallbackCandidates cfg provider0 model0 = c0 :: c1 :: rest ->
  fails_at run onError (length (c0 :: c1 :: rest)) 0 c0 e w w1 ->
  run (provider c1) (model c1) w1 = (w2, Ret r) ->
  runWithModelFallback run onError cfg provider0 model0 w
  = (w2, Ret {| result := r;
                result_provider := provider c1;
                result_model := model c1;
                attempts := [ {| attempt_provider := provider c0;
                                 attempt_model := model c0;
                                 attempt_error := error_text e |} ] |}).
Proof.
  intros Hc (w' & Hrun & Habort & Hnotify) Hok.
  unfold runWithModelFallback. rewrite Hc.
  cbn [try_from]. rewrite Hrun, Habort, Hnotify. cbn [try_from].
  now rewrite Hok.
Qed.

(** C2, amended. When every candidate fails with an error that is no
    cancellation: a chain of two or more candidates raises the aggregate
    error, whose message counts the attempts and names each provider and
    model with its error; a chain of the primary alone raises the
    primary's own error again.  A cancellation is propagated at once,
    whatever its position, and no later candidate is tried. *)
Theorem fallback_failure_modes
    (cfg : option ClawdConfig) (provider0 model0 : string) (w : W) :
  let cands := resolveFallbackCandidates cfg provider0 model0 in
  let total := length cands in
  (* two or more candidates, all failing: the aggregate error *)
  (forall errs w',
      (2 <= total)%nat ->
      all_fail run onError total 0 cands w errs w' ->
      let atts := zip_with attempt_of cands errs in
      let aggregate :=
        ThrownError "Error"
          ("All models failed (" +:+ string_of_nat total +:+ "): "
           +:+ join " | " (attempt_line <$> atts)) in
      runWithModelFallback run onError cfg provider0 model0 w
      = (w', Throw aggregate)
      /\ length atts = total
      /\ names_every_attempt aggregate atts)
  (* the primary alone, failing: its own error *)
  /\ (forall c e w',
         cands = [c] ->
         fails_at run onError 1 0 c e w w' ->
         thrown_truthy e = true ->
         runWithModelFallback run onError cfg provider0 model0 w
         = (w', Throw e))
  (* a cancellation: propagated at once *)
  /\ (forall pre c post errs w1 w2 e,
         cands = pre ++ c :: post ->
         all_fail run onError total 0 pre w errs w1 ->
         run (provider c) (model c) w1 = (w2, Throw e) ->
         isAbortError e = true ->
         runWithModelFallback run onError cfg provider0 model0 w
         = (w2, Throw e)).
Proof.
  intros cands total. split; [|split].
  - intros errs w' Htot Hall atts aggregate.
    pose proof (all_fail_length _ _ _ _ _ _ Hall) as Hlen.
    assert (Hatts : length atts = total).
    { unfold atts. rewrite length_zip_with. subst total. lia. }
    split; [|split; [exact Hatts|]].
    + unfold runWithModelFallback. fold cands. fold total.
      rewrite (try_from_all_fail _ _ _ _ _ _ _ _ Hall). simpl app.
      fold atts.
      destruct (reverse errs) as [|e0 er] eqn:Er.
      { apply (f_equal length) in Er. rewrite length_reverse in Er.
        simpl in Er. subst total. lia. }
      assert (Hle : (length atts <=? 1)%nat = false)
        by (apply Nat.leb_gt; lia).
      rewrite Hle. simpl andb. unfold all_failed_message, aggregate.
      rewrite Hatts.
      destruct atts as [|a0 al]; [simpl in Hatts; lia|].
      destruct total as [|n]; [lia|]. reflexivity.
    + unfold names_every_attempt. apply Forall_forall. intros a Ha.
      apply list_elem_of_In in Ha. unfold aggregate. cbn [error_text].
      destruct (join_includes " | " (attempt_line a) (attempt_line <$> atts))
        as (pre & post & E).
      { apply in_map_iff. eauto. }
      rewrite E. do 3 apply JsFacts.includes_app_r.
      apply JsFacts.includes_app.
  - intros c e w' Hc Hf Ht.
    unfold runWithModelFallback. fold cands. rewrite Hc. cbn [length].
    rewrite (try_from_all_fail 1 [c] 0 [] None w [e] w').
    + simpl. now rewrite Ht.
    + econstructor; [exact Hf | constructor].
  - intros pre c post errs w1 w2 e Hc Hf Hrun Ha.
    unfold runWithModelFallback. fold cands. fold total. rewrite Hc.
    now rewrite (try_from_abort total pre 0 [] None w errs w1 c post w2 e).
Qed.

End RunnerProps.

Lemma fallback_returns_first_working_fallback_witness :
  runWithModelFallback openai_down None (Some example_cfg) "openai" "gpt-x" 0%nat
  = (2%nat,
     Ret {| result := "reply of claude-y";
            result_provider := "anthropic";
            result_model := "claude-y";
            attempts := [ {| attempt_provider := "openai";
                             attempt_model := "gpt-x";
                             attempt_error := "429 rate limited" |} ] |}).
Proof.
  apply (fallback_returns_first_working_fallback openai_down None
           (Some example_cfg) "openai" "gpt-x"
           {| provider := "openai"; model := "gpt-x" |}
           {| provider := "anthropic"; model := "claude-y" |}
           [ {| provider := "google"; model := "gemini-z" |} ]
           (ThrownError "Error" "429 rate limited") "reply of claude-y"
           0%nat 1%nat 2%nat).
  - vm_compute. reflexivity.
  - exists 1%nat. repeat split.
  - reflexivity.
Defined.

Lemma fallback_failure_modes_witness :
  runWithModelFallback all_down None (Some example_cfg) "openai" "gpt-x" 0%nat
  = (3%nat,
     Throw (ThrownError "Error"
              "All models failed (3): openai/gpt-x: boom | anthropic/claude-y: boom | google/gemini-z: boom")).
Proof.
  destruct (fallback_failure_modes all_down None (Some example_cfg)
              "openai" "gpt-x" 0%nat) as [Hall _].
  apply (Hall [ThrownError "Error" "boom"; ThrownError "Error" "boom";
               ThrownError "Error" "boom"] 3%nat).
  - vm_compute. lia.
  - vm_compute.
    apply (all_fail_cons _ _ _ _ _ _ _ _ 0%nat 1%nat 3%nat);
      [exists 1%nat; repeat split|].
    apply (all_fail_cons _ _ _ _ _ _ _ _ 1%nat 2%nat 3%nat);
      [exists 2%nat; repeat split|].
    apply (all_fail_cons _ _ _ _ _ _ _ _ 2%nat 3%nat 3%nat);
      [exists 3%nat; repeat split|].
    constructor.
Defined.

(** C2, counterexample. The primary alone, failing with "boom": the error
    raised is that error, which names no provider and no model. *)
Lemma single_candidate_failure_not_aggregated :
  runWithModelFallback all_down None None "openai" "gpt-x" 0%nat
  = (1%nat, Throw (ThrownError "Error" "boom"))
  /\ ~ names_every_attempt (ThrownError "Error" "boom")
         [ {| attempt_provider := "openai"; attempt_model := "gpt-x";
              attempt_error := "boom" |} ].
Proof.
  split; [vm_compute; reflexivity|].
  intros H. apply Forall_inv in H. vm_compute in H. discriminate.
Qed.

End FallbackProps.

(** ** Heartbeat suppression *)



Module HeartbeatFacts.
Import Heartbeat JsFacts TrimFacts.
Local Open Scope Z_scope.

Lemma token_nonempty : (1 <= String.length HEARTBEAT_TOKEN)%nat.
Proof. vm_compute. lia. Qed.

Lemma strip_leading_eq (fuel : nat) (text : string) (d : bool) :
  strip_leading fuel text d
  = if startsWith text HEARTBEAT_TOKEN then
      match fuel with
      | O => None
      | S fuel' =>
          strip_leading fuel'
            (trimStart (drop (String.length HEARTBEAT_TOKEN) text)) true
      end
    else Some (text, d).
Proof. destruct fuel; reflexivity. Qed.

Lemma strip_trailing_eq (fuel : nat) (text : string) (d : bool) :
  strip_trailing fuel text d
  = if endsWith text HEARTBEAT_TOKEN then
      match fuel with
      | O => None
      | S fuel' =>
          strip_trailing fuel'
            (trimEnd (dropEnd (String.length HEARTBEAT_TOKEN) text)) true
      end
    else Some (text, d).
Proof. destruct fuel; reflexivity. Qed.

(** The first loop ends within its fuel, on a text without the token at
    its start. *)
Lemma strip_leading_total (fuel : nat) :
  forall text d,
    (String.length text <= fuel)%nat ->
    exists text',
      strip_leading fuel text d
      = Some (text', d || startsWith text HEARTBEAT_TOKEN)
      /\ startsWith text' HEARTBEAT_TOKEN = false
      /\ (String.length text' <= String.length text)%nat
      /\ (startsWith text HEARTBEAT_TOKEN = false -> text' = text).
Proof.
  induction fuel as [|fuel IH]; intros text d Hlen;
    rewrite strip_leading_eq;
    destruct (startsWith text HEARTBEAT_TOKEN) eqn:Hs;
    try (exists text; rewrite orb_false_r; auto).
  - apply startsWith_length in Hs. pose proof token_nonempty. lia.
  - pose proof (startsWith_length _ _ Hs) as Hl. pose proof token_nonempty.
    pose proof (length_trimStart
                  (drop (String.length HEARTBEAT_TOKEN) text)) as Ht.
    rewrite length_drop in Ht.
    destruct (IH (trimStart (drop (String.length HEARTBEAT_TOKEN) text)) true)
      as (text' & E & Hno & Hle & _); [lia|].
    exists text'. rewrite E, orb_true_r.
    split; [reflexivity|]. split; [exact Hno|]. split; [lia | discriminate].
Qed.

(** The second loop ends within its fuel, on a prefix of its input
    without the token at its end. *)
Lemma strip_trailing_total (fuel : nat) :
  forall text d,
    (String.length text <= fuel)%nat ->
    exists text',
      strip_trailing fuel text d
      = Some (text', d || endsWith text HEARTBEAT_TOKEN)
      /\ endsWith text' HEARTBEAT_TOKEN = false
      /\ (exists r, text = text' +:+ r)
      /\ (endsWith text HEARTBEAT_TOKEN = false -> text' = text).
Proof.
  induction fuel as [|fuel IH]; intros text d Hlen;
    rewrite strip_trailing_eq;
    destruct (endsWith text HEARTBEAT_TOKEN) eqn:Hs;
    try (exists text; rewrite orb_false_r; repeat split; auto;
         exists ""; now rewrite app_nil_r).
  - apply endsWith_length in Hs. pose proof token_nonempty. lia.
  - pose proof (endsWith_length _ _ Hs) as Hl. pose proof token_nonempty.
    set (cut := dropEnd (String.length HEARTBEAT_TOKEN) text).
    pose proof (length_trimEnd cut) as Ht.
    pose proof (length_dropEnd (String.length HEARTBEAT_TOKEN) text) as Hc.
    fold cut in Hc.
    destruct (IH (trimEnd cut) true) as (text' & E & Hno & [r Hr] & _); [lia|].
    exists text'. rewrite E, orb_true_r.
    split; [reflexivity|]. split; [exact Hno|]. split; [|discriminate].
    destruct (trimEnd_prefix cut) as [r1 Hr1].
    destruct (dropEnd_prefix (String.length HEARTBEAT_TOKEN) text)
      as [r2 Hr2]. fold cut in Hr2.
    exists (r +:+ r1 +:+ r2).
    rewrite Hr2 at 1. rewrite Hr1 at 1. rewrite Hr at 1.
    now rewrite !app_assoc.
Qed.

(** Both loops: the text that is left has no token at either edge, and
    the flag tells whether the trimmed text had one. *)
Lemma strip_edges_total (trimmed : string) :
  exists text,
    strip_edges trimmed
    = Some (text, startsWith trimmed HEARTBEAT_TOKEN
                  || endsWith trimmed HEARTBEAT_TOKEN)
    /\ startsWith text HEARTBEAT_TOKEN = false
    /\ endsWith text HEARTBEAT_TOKEN = false
    /\ (startsWith trimmed HEARTBEAT_TOKEN
        || endsWith trimmed HEARTBEAT_TOKEN = false -> text = trimmed).
Proof.
  unfold strip_edges.
  destruct (strip_leading_total (String.length trimmed) trimmed false
              ltac:(lia)) as (t1 & E1 & Hs1 & Hl1 & Hid1).
  rewrite E1. cbn [mbind option_bind].
  destruct (strip_trailing_total (String.length trimmed) t1
              (false || startsWith trimmed HEARTBEAT_TOKEN) ltac:(lia))
    as (t2 & E2 & He2 & [r Hr] & Hid2).
  rewrite E2. exists t2. rewrite orb_false_l in *.
  assert (Hflag : startsWith trimmed HEARTBEAT_TOKEN
                  || endsWith t1 HEARTBEAT_TOKEN
                  = startsWith trimmed HEARTBEAT_TOKEN
                    || endsWith trimmed HEARTBEAT_TOKEN).
  { destruct (startsWith trimmed HEARTBEAT_TOKEN) eqn:Hs; [reflexivity|].
    now rewrite (Hid1 eq_refl). }
  rewrite Hflag. repeat split; auto.
  - destruct (startsWith t2 HEARTBEAT_TOKEN) eqn:Hs2; [|reflexivity].
    apply (startsWith_prefix t2 r) in Hs2. rewrite <- Hr in Hs2. congruence.
  - intros H. apply orb_false_iff in H as [Ha Hb].
    rewrite (Hid1 Ha) in *. now apply Hid2.
Qed.

End HeartbeatFacts.

Module AutoReplyFacts.
Import AutoReplyHeartbeat JsFacts TrimFacts SubstringFacts.
Local Open Scope Z_scope.

Section Token.
Variable tok : string.
Hypothesis tok_nonempty : tok <> "".

Lemma tok_length : (1 <= String.length tok)%nat.
Proof. destruct tok; [contradiction | simpl; lia]. Qed.

Lemma strip_loop_eq (fuel : nat) (text : string) (d : bool) :
  strip_loop tok fuel text d
  = let next := trim text in
    if startsWith next tok then
      match fuel with
      | O => None
      | S fuel' =>
          strip_loop tok fuel'
            (trimStart (drop (String.length tok) next)) true
      end
    else if endsWith next tok then
      match fuel with
      | O => None
      | S fuel' =>
          strip_loop tok fuel'
            (trimEnd (slice 0 (String.length next - String.length tok)
                        next)) true
      end
    else Some (text, d).
Proof. destruct fuel; reflexivity. Qed.

(** The loop of [stripTokenAtEdges] ends within its fuel. *)
Lemma strip_loop_total (fuel : nat) :
  forall text d,
    (String.length text <= fuel)%nat ->
    exists text' d', strip_loop tok fuel text d = Some (text', d').
Proof.
  pose proof tok_length as Htok.
  induction fuel as [|fuel IH]; intros text d Hlen;
    rewrite strip_loop_eq; cbv zeta;
    pose proof (length_trim text) as Htrim;
    destruct (startsWith (trim text) tok) eqn:Hs.
  - apply startsWith_length in Hs. lia.
  - destruct (endsWith (trim text) tok) eqn:He; [|eauto].
    apply endsWith_length in He. lia.
  - apply IH.
    pose proof (length_trimStart (drop (String.length tok) (trim text))) as H.
    rewrite length_drop in H. apply startsWith_length in Hs. lia.
  - destruct (endsWith (trim text) tok) eqn:He; [|eauto].
    apply IH.
    pose proof (length_trimEnd
                  (slice 0 (String.length (trim text) - String.length tok)
                     (trim text))) as H.
    assert (Hsl : String.length
                    (slice 0 (String.length (trim text) - String.length tok)
                       (trim text))
                  = Nat.min (String.length (trim text) - String.length tok - 0)
                      (String.length (trim text) - 0))
      by (unfold slice; now rewrite length_take, length_drop).
    apply endsWith_length in He. lia.
Qed.

Lemma stripTokenAtEdges_total (raw : string) :
  exists text d, stripTokenAtEdges tok raw = Some (text, d).
Proof.
  unfold stripTokenAtEdges.
  destruct (is_empty (trim raw)); [eauto|].
  destruct (includes (trim raw) tok); cbn [negb]; [|eauto].
  destruct (strip_loop_total (String.length (trim raw)) (trim raw) false
              ltac:(lia)) as (t & d & E).
  rewrite E. cbn. eauto.
Qed.

(** Without the token in the text, nothing is stripped. *)
Lemma stripTokenAtEdges_untouched (raw text : string) :
  includes raw tok = false -> stripTokenAtEdges tok raw <> Some (text, true).
Proof.
  intros Hinc. unfold stripTokenAtEdges.
  destruct (is_empty (trim raw)); [discriminate|].
  destruct (includes (trim raw) tok) eqn:E; cbn [negb]; [|discriminate].
  apply includes_trim in E. congruence.
Qed.

Lemma stripHeartbeatToken_skips_iff (raw : string)
    (mode : option StripHeartbeatMode) (maxAckChars : option Z) :
  exists q,
    stripHeartbeatToken tok (Some raw) mode maxAckChars = Some q
    /\ (shouldSkip q = true
        <-> trim raw = ""
            \/ exists stripped,
                 stripTokenAtEdges tok (trim raw) = Some (stripped, true)
                 /\ (stripped = ""
                     \/ (mode = Some ModeHeartbeat
                         /\ Z.of_nat (String.length (trim stripped))
                            <= Z.max 0 (default 30 maxAckChars)))).
Proof.
  unfold stripHeartbeatToken.
  destruct (is_empty raw) eqn:Hraw.
  { apply is_empty_true in Hraw. subst raw. eexists. split; [reflexivity|].
    cbn. split; auto. }
  destruct (is_empty (trim raw)) eqn:Hemp.
  { apply is_empty_true in Hemp. eexists. split; [reflexivity|].
    cbn. split; auto. }
  assert (Hne : trim raw <> "")
    by (intros H; rewrite H in Hemp; discriminate).
  destruct (includes (trim raw) tok) eqn:Hinc; cbn [negb].
  - destruct (stripTokenAtEdges_total (trim raw)) as (stripped & did & E).
    rewrite E. cbn [mbind option_bind]. eexists. split; [reflexivity|].
    destruct did; cbn [negb].
    + destruct (is_empty stripped) eqn:Hst.
      * apply is_empty_true in Hst. cbn. split; auto. intros _. right.
        exists stripped. auto.
      * assert (Hsn : stripped <> "")
          by (intros H; rewrite H in Hst; discriminate).
        unfold DEFAULT_HEARTBEAT_ACK_MAX_CHARS.
        destruct mode as [[|]|]; cbn [default];
          try (cbn; split; [discriminate|];
               intros [?|(s' & Es & [?|[? _]])];
               [contradiction | congruence | discriminate]).
        destruct (Z.of_nat (String.length (trim stripped))
                  <=? Z.max 0 (default 30 maxAckChars)) eqn:Hle; cbn.
        -- split; auto. intros _. right. exists stripped.
           split; auto. right. split; auto. now apply Z.leb_le.
        -- apply Z.leb_gt in Hle. split; [discriminate|].
           intros [?|(s' & Es & [?|[_ ?]])]; [contradiction|congruence|].
           assert (s' = stripped) by congruence. subst. lia.
    + cbn. split; [discriminate|].
      intros [?|(s' & Es & _)]; [contradiction | congruence].
  - eexists. split; [reflexivity|]. cbn. split; [discriminate|].
    intros [?|(s' & Es & _)]; [contradiction|].
    now apply stripTokenAtEdges_untouched in Es.
Qed.

End Token.

End AutoReplyFacts.

(** ** Tokens at the edges of a heartbeat response *)

(** Facts on white space at the edges and on the token runs. *)
Module EdgeFacts.
Import JsFacts TrimFacts SubstringFacts.

Lemma trimStart_ws_split (s : string) :
  exists ws, all_ws ws = true /\ s = ws +:+ trimStart s.
Proof.
  induction s as [|c s (ws & Hws & Hs)]; [now exists ""|].
  cbn [trimStart]. destruct (is_ws c) eqn:Hc.
  - exists (String c ws). cbn [all_ws]. rewrite Hc, Hws, app_cons.
    now rewrite <- Hs.
  - now exists "".
Qed.

Lemma all_ws_app (a b : string) :
  all_ws (a +:+ b) = all_ws a && all_ws b.
Proof.
  induction a as [|c a IH]; [reflexivity|].
  rewrite app_cons. cbn [all_ws]. now rewrite IH, andb_assoc.
Qed.

Lemma trimEnd_ws_split (s : string) :
  exists ws, all_ws ws = true /\ s = trimEnd s +:+ ws.
Proof.
  induction s as [|c s (ws & Hws & Hs)]; [now exists ""|].
  cbn [trimEnd]. destruct (trimEnd s) as [|d r] eqn:E.
  - rewrite app_nil_l in Hs. subst ws. destruct (is_ws c) eqn:Hc.
    + exists (String c s). cbn [all_ws]. now rewrite Hc, Hws.
    + exists s. now rewrite app_cons, app_nil_l.
  - exists ws. split; [exact Hws|]. rewrite app_cons. now rewrite <- Hs.
Qed.

Lemma endsWith_app (s t : string) : endsWith (s +:+ t) t = true.
Proof.
  induction s as [|c s IH].
  - rewrite app_nil_l, endsWith_eq. now rewrite String.eqb_refl.
  - rewrite app_cons, endsWith_eq, IH. apply orb_true_r.
Qed.

Lemma endsWith_suffix (s t : string) :
  endsWith s t = true -> exists p, s = p +:+ t.
Proof.
  induction s as [|c s IH]; rewrite endsWith_eq; intros H.
  - rewrite orb_false_r in H. apply String.eqb_eq in H. now exists "".
  - apply orb_true_iff in H as [H|H].
    + apply String.eqb_eq in H. now exists "".
    + destruct (IH H) as [p ->]. now exists (String c p).
Qed.

Lemma dropEnd_app (p t : string) : dropEnd (String.length t) (p +:+ t) = p.
Proof.
  unfold dropEnd. rewrite length_app.
  replace (String.length p + String.length t - String.length t)%nat
    with (String.length p) by lia.
  apply take_app_length.
Qed.

Lemma endsWith_split (s t : string) :
  endsWith s t = true -> s = dropEnd (String.length t) s +:+ t.
Proof.
  intros H. destruct (endsWith_suffix s t H) as [p ->].
  now rewrite dropEnd_app.
Qed.

Lemma slice_dropEnd (n : nat) (s : string) :
  slice 0 (String.length s - n) s = dropEnd n s.
Proof.
  unfold slice, dropEnd. rewrite Nat.sub_0_r. now destruct s.
Qed.

End EdgeFacts.

(** Trimming twice, and splitting at a separator. *)
Module SplitFacts.
Import JsFacts TrimFacts FallbackChain.

Lemma trimStart_filled (c : ascii) (s : string) :
  is_ws c = false -> trimStart (String c s) = String c s.
Proof. intros H. simpl. now rewrite H. Qed.

(** A non-empty string that trimming leaves alone starts with a code unit
    that is no white space. *)
Lemma trim_fixed_head (s : string) :
  s <> "" -> trim s = s -> exists c s', s = String c s' /\ is_ws c = false.
Proof.
  destruct s as [|c s']; [contradiction|]. intros _ H.
  exists c, s'. split; [reflexivity|].
  destruct (is_ws c) eqn:E; [|reflexivity].
  apply (f_equal String.length) in H. unfold trim in H. simpl in H.
  rewrite E in H.
  pose proof (length_trimEnd (trimStart s')).
  pose proof (length_trimStart s'). lia.
Qed.

Lemma trim_fixed_end (s : string) : s <> "" -> trim s = s -> trimEnd s = s.
Proof.
  intros Hne H. destruct (trim_fixed_head s Hne H) as (c & s' & -> & Hc).
  unfold trim in H. now rewrite trimStart_filled in H.
Qed.

Lemma trimEnd_cons_filled (c : ascii) (r : string) :
  is_ws c = false -> trimEnd (String c r) = String c (trimEnd r).
Proof. intros H. simpl. rewrite H. now destruct (trimEnd r). Qed.

Lemma trimEnd_app_filled (s r : string) (c : ascii) :
  is_ws c = false ->
  trimEnd (s +:+ String c r) = s +:+ String c (trimEnd r).
Proof.
  intros Hc. induction s as [|a s IH].
  - rewrite !app_nil_l. now apply trimEnd_cons_filled.
  - rewrite !app_cons. simpl. rewrite IH.
    now destruct (s +:+ String c (trimEnd r)) eqn:E; [destruct s; discriminate|].
Qed.

Lemma trimEnd_idem (s : string) : trimEnd (trimEnd s) = trimEnd s.
Proof.
  induction s as [|c s IH]; [reflexivity|]. cbn [trimEnd].
  destruct (trimEnd s) as [|d r] eqn:E.
  - destruct (is_ws c) eqn:Hc; [reflexivity|]. cbn. now rewrite Hc.
  - cbn [trimEnd]. cbn [trimEnd] in IH. now rewrite IH.
Qed.

Lemma trim_head (s : string) :
  trim s = "" \/ exists c r, trim s = String c r /\ is_ws c = false.
Proof.
  unfold trim. induction s as [|c s IH]; [now left|].
  cbn [trimStart]. destruct (is_ws c) eqn:Hc; [exact IH|].
  right. rewrite trimEnd_cons_filled by exact Hc. eauto.
Qed.

Lemma trim_idem (s : string) : trim (trim s) = trim s.
Proof.
  destruct (trim_head s) as [->|(c & r & E & Hc)]; [reflexivity|].
  unfold trim at 1. rewrite E, trimStart_filled by exact Hc.
  rewrite <- E. unfold trim. apply trimEnd_idem.
Qed.

Lemma split_on_free (sep : ascii) (s : string) :
  free_of sep s = true -> split_on sep s = [s].
Proof.
  induction s as [|c s IH]; [reflexivity|]. simpl.
  intros H. apply andb_true_iff in H as [Hc Hs].
  apply negb_true_iff in Hc. rewrite Hc, (IH Hs). reflexivity.
Qed.

Lemma split_on_app (sep : ascii) (s t : string) :
  free_of sep s = true ->
  split_on sep (s +:+ String sep t) = s :: split_on sep t.
Proof.
  induction s as [|c s IH]; intros H.
  - rewrite app_nil_l. simpl. now rewrite Ascii.eqb_refl.
  - simpl in H. apply andb_true_iff in H as [Hc Hs].
    apply negb_true_iff in Hc. rewrite app_cons. simpl.
    now rewrite Hc, (IH Hs).
Qed.

Lemma split_on_head (sep : ascii) (t : string) :
  exists h l, split_on sep t = h :: l /\ (free_of sep t = true -> h = t).
Proof.
  induction t as [|c t (h & l & E & Hh)]; [now exists "", []|]. simpl.
  destruct (Ascii.eqb c sep) eqn:Hc; [exists "", (split_on sep t); split; auto; discriminate|].
  rewrite E. exists (String c h), l. split; [reflexivity|].
  simpl. intros H. now rewrite Hh.
Qed.

End SplitFacts.

Section TrimmedTexts.
Import Heartbeat JsFacts TrimFacts SubstringFacts.

(** Trimmed at the end, trimmed at the start. *)
Lemma trimEnd_drop (n : nat) (s : string) :
  trimEnd s = s -> trimEnd (drop n s) = drop n s.
Proof.
  revert s. induction n as [|n IH]; intros s H; [now destruct s|].
  destruct s as [|c s]; [reflexivity|]. cbn [drop]. apply IH.
  cbn [trimEnd] in H. destruct (trimEnd s) as [|d r] eqn:E.
  - destruct (is_ws c); [discriminate|]. now injection H as <-.
  - now injection H.
Qed.

Lemma trimEnd_trimStart (s : string) :
  trimEnd s = s -> trimEnd (trimStart s) = trimStart s.
Proof.
  intros H. destruct (trimStart_suffix s) as [l Hl].
  assert (Hd : trimStart s = drop (String.length l) s)
    by (rewrite Hl at 2; now rewrite drop_app_length).
  rewrite Hd. now apply trimEnd_drop.
Qed.

Lemma trimStart_idem (s : string) : trimStart (trimStart s) = trimStart s.
Proof.
  induction s as [|c s IH]; [reflexivity|]. cbn [trimStart].
  destruct (is_ws c) eqn:E; [exact IH|]. cbn [trimStart]. now rewrite E.
Qed.

Lemma trimStart_take (n : nat) (s : string) :
  trimStart s = s -> trimStart (take n s) = take n s.
Proof.
  destruct s as [|c s]; [now destruct n|]. destruct n; [reflexivity|].
  cbn [trimStart take]. destruct (is_ws c) eqn:E; [|reflexivity].
  intros H. apply (f_equal String.length) in H.
  pose proof (length_trimStart s). cbn [String.length] in H. lia.
Qed.

Lemma trimStart_trimEnd (s : string) :
  trimStart s = s -> trimStart (trimEnd s) = trimEnd s.
Proof.
  intros H. destruct (trimEnd_prefix s) as [r Hr].
  assert (Ht : trimEnd s = take (String.length (trimEnd s)) s)
    by (rewrite Hr at 3; now rewrite take_app_length).
  rewrite Ht. now apply trimStart_take.
Qed.

Lemma both_trimmed_trim (s : string) : both_trimmed (trim s).
Proof.
  unfold both_trimmed, trim. split.
  - apply trimStart_trimEnd, trimStart_idem.
  - apply SplitFacts.trimEnd_idem.
Qed.

Lemma both_trimmed_fixed (s : string) : both_trimmed s -> trim s = s.
Proof. intros [H1 H2]. unfold trim. now rewrite H1. Qed.

Lemma strip_leading_trimmed (fuel : nat) :
  forall text d text' d',
    both_trimmed text ->
    strip_leading fuel text d = Some (text', d') -> both_trimmed text'.
Proof.
  induction fuel as [|fuel IH]; intros text d text' d' Ht;
    rewrite HeartbeatFacts.strip_leading_eq;
    destruct (startsWith text HEARTBEAT_TOKEN);
    try discriminate; try (now intros [= <- <-]).
  apply IH. destruct Ht as [_ He]. split.
  - apply trimStart_idem.
  - now apply trimEnd_trimStart, trimEnd_drop.
Qed.

Lemma strip_trailing_trimmed (fuel : nat) :
  forall text d text' d',
    both_trimmed text ->
    strip_trailing fuel text d = Some (text', d') -> both_trimmed text'.
Proof.
  induction fuel as [|fuel IH]; intros text d text' d' Ht;
    rewrite HeartbeatFacts.strip_trailing_eq;
    destruct (endsWith text HEARTBEAT_TOKEN);
    try discriminate; try (now intros [= <- <-]).
  apply IH. destruct Ht as [Hs _]. split.
  - apply trimStart_trimEnd. unfold dropEnd. now apply trimStart_take.
  - apply SplitFacts.trimEnd_idem.
Qed.

Lemma strip_edges_trimmed (trimmed text : string) (d : bool) :
  both_trimmed trimmed ->
  strip_edges trimmed = Some (text, d) -> both_trimmed text.
Proof.
  intros Ht. unfold strip_edges.
  destruct (strip_leading _ trimmed false) as [[t1 d1]|] eqn:E1;
    [|discriminate]. cbn [mbind option_bind].
  intros E2. apply strip_leading_trimmed in E1; [|exact Ht].
  now apply strip_trailing_trimmed in E2.
Qed.

End TrimmedTexts.

Module TokenRuns.
Import JsFacts TrimFacts SubstringFacts EdgeFacts.

Lemma trimStart_app (a b : string) :
  trimStart (a +:+ b)
  = if is_empty (trimStart a) then trimStart b else trimStart a +:+ b.
Proof.
  induction a as [|c a IH].
  - rewrite app_nil_l. reflexivity.
  - rewrite app_cons. cbn [trimStart]. destruct (is_ws c); [exact IH|].
    cbn [is_empty]. now rewrite app_cons.
Qed.

Lemma trimEnd_app (a b : string) :
  trimEnd (a +:+ b)
  = if is_empty (trimEnd b) then trimEnd a else a +:+ trimEnd b.
Proof.
  induction a as [|c a IH].
  - rewrite !app_nil_l. now destruct (trimEnd b).
  - rewrite app_cons. cbn [trimEnd]. rewrite IH.
    destruct (trimEnd b) as [|d r]; cbn [is_empty]; [reflexivity|].
    rewrite app_cons. destruct a as [|e a]; [now rewrite app_nil_l|].
    now rewrite app_cons.
Qed.

Lemma trimStart_all_ws (ws : string) : all_ws ws = true -> trimStart ws = "".
Proof.
  induction ws as [|c ws IH]; [reflexivity|]. cbn [all_ws trimStart].
  intros H. apply andb_true_iff in H as [-> H]. now apply IH.
Qed.

Lemma trimEnd_all_ws (ws : string) : all_ws ws = true -> trimEnd ws = "".
Proof.
  induction ws as [|c ws IH]; [reflexivity|]. cbn [all_ws trimEnd].
  intros H. apply andb_true_iff in H as [-> H]. now rewrite IH.
Qed.

Lemma app_empty (a b : string) : a +:+ b = "" -> a = "" /\ b = "".
Proof.
  destruct a; [rewrite app_nil_l; auto|]. rewrite app_cons. discriminate.
Qed.

(** A run of tokens that follows a text can be read from its left end:
    white space, then a run of tokens that precedes a text. *)
Lemma tokens_before_snoc (tok l ws : string) :
  tokens_before tok l -> l <> "" -> all_ws ws = true ->
  tokens_before tok (l +:+ ws +:+ tok).
Proof.
  intros Hl. induction Hl as [|w l Hw Hl IH]; [contradiction|].
  intros _ Hws. destruct l as [|c l].
  - rewrite app_nil_r, app_assoc.
    replace (tok +:+ w +:+ ws +:+ tok)
      with (tok +:+ (w +:+ ws) +:+ (tok +:+ "" +:+ ""))
      by now rewrite !app_nil_r, !app_assoc.
    constructor; [rewrite all_ws_app; now rewrite Hw, Hws|].
    constructor; [reflexivity | constructor].
  - replace ((tok +:+ w +:+ String c l) +:+ ws +:+ tok)
      with (tok +:+ w +:+ (String c l +:+ ws +:+ tok))
      by now rewrite !app_assoc.
    constructor; [exact Hw|]. now apply IH.
Qed.

Lemma tokens_after_view (tok trail : string) :
  tokens_after tok trail ->
  exists ws l,
    all_ws ws = true /\ trail = ws +:+ l /\ tokens_before tok l.
Proof.
  induction 1 as [|r w Hr (ws & l & Hws & -> & Hl) Hw].
  - exists "", "". repeat split. constructor.
  - destruct l as [|c l].
    + exists (ws +:+ w), (tok +:+ "" +:+ "").
      rewrite all_ws_app, Hws, Hw. split; [reflexivity|]. split.
      * now rewrite !app_nil_r, !app_assoc.
      * constructor; [reflexivity | constructor].
    + exists ws, (String c l +:+ w +:+ tok).
      split; [exact Hws|]. split; [now rewrite !app_assoc|].
      now apply tokens_before_snoc.
Qed.

(** A word whose characters are neither white space nor the given
    character cannot begin in [s] and run on into a text that starts with
    white space or with that character. *)
Lemma prefix_through (mark : ascii) (t : string) :
  forallb (fun c => negb (is_ws c) && negb (Ascii.eqb c mark))
    (list_ascii_of_string t) = true ->
  forall s trail,
    (trail = ""
     \/ exists c rest,
          trail = String c rest /\ (is_ws c = true \/ c = mark)) ->
    startsWith (s +:+ trail) t = true -> startsWith s t = true.
Proof.
  induction t as [|b t IH]; intros Hp s trail Hh H; [now destruct s|].
  cbn [list_ascii_of_string forallb] in Hp.
  apply andb_true_iff in Hp as [Hb Hp].
  apply andb_true_iff in Hb as [Hb1 Hb2].
  destruct s as [|c s].
  - rewrite app_nil_l in H. destruct Hh as [->|(c & rest & -> & Hc)];
      [discriminate|].
    cbn [startsWith] in H. apply andb_true_iff in H as [H _].
    apply Ascii.eqb_eq in H. subst c. destruct Hc as [Hc| ->].
    + rewrite Hc in Hb1. discriminate.
    + rewrite Ascii.eqb_refl in Hb2. discriminate.
  - rewrite app_cons in H. cbn [startsWith] in *.
    apply andb_true_iff in H as [-> H]. cbn [andb]. now apply (IH Hp s trail).
Qed.

(** Tokens that cannot run into a neighbour. *)
Section Plain.
Variable tok : string.
Hypothesis plain : plain_token tok = true.

Lemma plain_nonempty : tok <> "".
Proof. intros E. rewrite E in plain. discriminate. Qed.

Lemma trimEnd_filled (mark : ascii) (s : string) :
  forallb (fun c => negb (is_ws c) && negb (Ascii.eqb c mark))
    (list_ascii_of_string s) = true ->
  trimEnd s = s.
Proof.
  induction s as [|c s IH]; [reflexivity|].
  cbn [list_ascii_of_string forallb trimEnd]. intros H.
  apply andb_true_iff in H as [Hc H]. apply andb_true_iff in Hc as [Hc _].
  rewrite (IH H). destruct s; [|reflexivity].
  now destruct (is_ws c).
Qed.

Lemma plain_trimStart (x : string) : trimStart (tok +:+ x) = tok +:+ x.
Proof.
  destruct tok as [|mark rest]; [discriminate|]. cbn [plain_token] in plain.
  apply andb_true_iff in plain as [Hm _]. rewrite app_cons.
  cbn [trimStart]. now destruct (is_ws mark).
Qed.

Lemma plain_trimEnd (x : string) : trimEnd (x +:+ tok) = x +:+ tok.
Proof.
  assert (Ht : trimEnd tok = tok /\ is_empty tok = false).
  { destruct tok as [|mark rest]; [discriminate|]. cbn [plain_token] in plain.
    apply andb_true_iff in plain as [Hm Hr]. split; [|reflexivity].
    cbn [trimEnd]. rewrite (trimEnd_filled mark rest Hr).
    destruct rest; [|reflexivity]. now destruct (is_ws mark). }
  destruct Ht as [Ht Hne]. now rewrite trimEnd_app, Ht, Hne.
Qed.

Lemma tokens_before_trimStart (l : string) :
  tokens_before tok l -> trimStart l = l.
Proof. destruct 1; [reflexivity | apply plain_trimStart]. Qed.

Lemma tokens_after_trimEnd (y r : string) :
  tokens_after tok r -> r <> "" -> trimEnd (y +:+ r) = y +:+ r.
Proof.
  destruct 1 as [|r w Hr Hw]; [contradiction|]. intros _.
  rewrite <- !app_assoc. apply plain_trimEnd.
Qed.

(** A run of tokens after a text begins with white space or with the
    first character of the token. *)
Lemma tokens_after_head (trail : string) :
  tokens_after tok trail ->
  trail = ""
  \/ exists c rest,
       trail = String c rest
       /\ (is_ws c = true \/ startsWith tok (String c "") = true).
Proof.
  induction 1 as [|r w Hr IH Hw]; [now left|]. right.
  destruct IH as [->|(c & rest & -> & Hc)].
  - rewrite app_nil_l. destruct w as [|c w].
    + rewrite app_nil_l. destruct tok as [|mark rest]; [discriminate|].
      exists mark, rest. split; [reflexivity|]. right.
      cbn [startsWith]. rewrite Ascii.eqb_refl. now destruct rest.
    + cbn [all_ws] in Hw. apply andb_true_iff in Hw as [Hc _].
      rewrite app_cons. eauto.
  - rewrite app_cons. eauto.
Qed.

(** The text that is left does not let a token begin in it and end in the
    run of tokens after it. *)
Lemma no_token_across (s trail : string) :
  s <> "" -> startsWith s tok = false -> tokens_after tok trail ->
  startsWith (s +:+ trail) tok = false.
Proof.
  intros Hne Hs Ht. destruct s as [|c s]; [contradiction|].
  destruct (startsWith (String c s +:+ trail) tok) eqn:E; [|reflexivity].
  pose proof (tokens_after_head trail Ht) as Hhead.
  destruct tok as [|mark rest]; [discriminate|]. cbn [plain_token] in plain.
  apply andb_true_iff in plain as [_ Hr].
  rewrite app_cons in E. cbn [startsWith] in *.
  apply andb_true_iff in E as [Hc E]. rewrite Hc in Hs. cbn [andb] in Hs.
  apply (prefix_through mark rest Hr s trail) in E; [congruence|].
  destruct Hhead as [->|(a & t & -> & [Ha|Ha])]; [now left | |]; right;
    exists a, t; (split; [reflexivity|]); [now left|]. right.
  apply andb_true_iff in Ha as [Ha _]. apply Ascii.eqb_eq in Ha. congruence.
Qed.

End Plain.

End TokenRuns.

(** What the two loops of [processHeartbeatResponse] take off. *)
Module HeartbeatEdges.
Import Heartbeat JsFacts TrimFacts SubstringFacts EdgeFacts HeartbeatFacts.

Lemma strip_leading_lead (fuel : nat) :
  forall text d text' d',
    strip_leading fuel text d = Some (text', d') ->
    exists lead,
      text = lead +:+ text' /\ tokens_before HEARTBEAT_TOKEN lead.
Proof.
  induction fuel as [|fuel IH]; intros text d text' d';
    rewrite strip_leading_eq;
    destruct (startsWith text HEARTBEAT_TOKEN) eqn:Hs;
    try discriminate;
    try (intros [= <- <-]; exists ""; split; [reflexivity | constructor]).
  intros H. apply IH in H as (lead & Hl & Hlead).
  destruct (trimStart_ws_split (drop (String.length HEARTBEAT_TOKEN) text))
    as (ws & Hws & Hd).
  exists (HEARTBEAT_TOKEN +:+ ws +:+ lead). split.
  - rewrite (startsWith_split _ _ Hs) at 1. rewrite Hd, Hl.
    now rewrite !app_assoc.
  - now constructor.
Qed.

Lemma strip_trailing_trail (fuel : nat) :
  forall text d text' d',
    strip_trailing fuel text d = Some (text', d') ->
    exists trail,
      text = text' +:+ trail /\ tokens_after HEARTBEAT_TOKEN trail.
Proof.
  induction fuel as [|fuel IH]; intros text d text' d';
    rewrite strip_trailing_eq;
    destruct (endsWith text HEARTBEAT_TOKEN) eqn:Hs;
    try discriminate;
    try (intros [= <- <-]; exists ""; split;
         [now rewrite app_nil_r | constructor]).
  intros H. apply IH in H as (trail & Hl & Htrail).
  destruct (trimEnd_ws_split (dropEnd (String.length HEARTBEAT_TOKEN) text))
    as (ws & Hws & Hd).
  exists (trail +:+ ws +:+ HEARTBEAT_TOKEN). split.
  - rewrite (endsWith_split _ _ Hs) at 1. rewrite Hd, Hl.
    now rewrite !app_assoc.
  - now constructor.
Qed.

(** The text that the loops leave is the trimmed text without the tokens
    at its edges. *)
Lemma strip_edges_stripped_of (trimmed text : string) (d : bool) :
  both_trimmed trimmed ->
  strip_edges trimmed = Some (text, d) ->
  stripped_of HEARTBEAT_TOKEN trimmed text.
Proof.
  intros Ht E.
  pose proof (strip_edges_trimmed _ _ _ Ht E) as Hboth.
  destruct (strip_edges_total trimmed) as (x & Ex & Hs & He & _).
  rewrite E in Ex. injection Ex as <- _.
  unfold strip_edges in E.
  destruct (strip_leading _ trimmed false) as [[t1 d1]|] eqn:E1;
    [|discriminate]. cbn [mbind option_bind] in E.
  apply strip_leading_lead in E1 as (lead & H1 & Hlead).
  apply strip_trailing_trail in E as (trail & H2 & Htrail).
  exists lead, trail. rewrite H1, H2. auto 10.
Qed.

End HeartbeatEdges.

Module HeartbeatUnique.
Import Heartbeat JsFacts TrimFacts SubstringFacts EdgeFacts HeartbeatFacts
  TokenRuns.

Lemma strip_leading_fuel (f1 : nat) :
  forall f2 text d,
    (String.length text <= f1)%nat -> (String.length text <= f2)%nat ->
    strip_leading f1 text d = strip_leading f2 text d.
Proof.
  induction f1 as [|f1 IH]; intros f2 text d H1 H2;
    rewrite (strip_leading_eq _ text), (strip_leading_eq f2 text);
    destruct (startsWith text HEARTBEAT_TOKEN) eqn:Hs; try reflexivity;
    pose proof (startsWith_length _ _ Hs) as Hl; pose proof token_nonempty.
  - lia.
  - destruct f2 as [|f2]; [lia|].
    pose proof (length_trimStart
                  (drop (String.length HEARTBEAT_TOKEN) text)) as Ht.
    rewrite length_drop in Ht. apply IH; lia.
Qed.

Lemma strip_trailing_fuel (f1 : nat) :
  forall f2 text d,
    (String.length text <= f1)%nat -> (String.length text <= f2)%nat ->
    strip_trailing f1 text d = strip_trailing f2 text d.
Proof.
  induction f1 as [|f1 IH]; intros f2 text d H1 H2;
    rewrite (strip_trailing_eq _ text), (strip_trailing_eq f2 text);
    destruct (endsWith text HEARTBEAT_TOKEN) eqn:Hs; try reflexivity;
    pose proof (endsWith_length _ _ Hs) as Hl; pose proof token_nonempty.
  - lia.
  - destruct f2 as [|f2]; [lia|].
    pose proof (length_trimEnd
                  (dropEnd (String.length HEARTBEAT_TOKEN) text)) as Ht.
    pose proof (length_dropEnd (String.length HEARTBEAT_TOKEN) text).
    apply IH; lia.
Qed.

Lemma token_plain : plain_token HEARTBEAT_TOKEN = true.
Proof. reflexivity. Qed.

(** The first loop goes through a run of tokens. *)
Lemma strip_leading_run (lead : string) :
  tokens_before HEARTBEAT_TOKEN lead ->
  forall fuel x d,
    (String.length (lead +:+ x) <= fuel)%nat ->
    strip_leading fuel (lead +:+ x) d
    = if is_empty lead then strip_leading fuel x d
      else strip_leading fuel (trimStart x) true.
Proof.
  induction 1 as [|w l Hw Hl IH]; intros fuel x d Hfuel;
    [now rewrite app_nil_l|].
  assert (Hne : is_empty (HEARTBEAT_TOKEN +:+ w +:+ l) = false)
    by reflexivity.
  rewrite Hne. rewrite !app_assoc in *.
  rewrite strip_leading_eq, startsWith_app.
  rewrite !length_app in Hfuel. pose proof token_nonempty.
  destruct fuel as [|fuel]; [lia|].
  rewrite drop_app_length, trimStart_app, (trimStart_all_ws w Hw).
  cbn [is_empty].
  pose proof (length_trimStart x) as Hx.
  destruct l as [|c l].
  - rewrite app_nil_l. apply strip_leading_fuel; lia.
  - rewrite (trimStart_app (String c l)),
      (tokens_before_trimStart _ token_plain _ Hl). cbn [is_empty].
    rewrite IH by (rewrite length_app; lia). cbn [is_empty].
    apply strip_leading_fuel; lia.
Qed.

(** The second loop goes through a run of tokens. *)
Lemma strip_trailing_run (trail : string) :
  tokens_after HEARTBEAT_TOKEN trail ->
  forall fuel y d,
    endsWith y HEARTBEAT_TOKEN = false -> trimEnd y = y ->
    (String.length (y +:+ trail) <= fuel)%nat ->
    strip_trailing fuel (y +:+ trail) d
    = Some (y, d || negb (is_empty trail)).
Proof.
  induction 1 as [|r w Hr IH Hw]; intros fuel y d He Hy Hfuel.
  - rewrite app_nil_r, strip_trailing_eq, He. cbn [is_empty negb].
    now rewrite orb_false_r.
  - assert (Hne : is_empty (r +:+ w +:+ HEARTBEAT_TOKEN) = false).
    { destruct (r +:+ w +:+ HEARTBEAT_TOKEN) eqn:E; [|reflexivity].
      apply app_empty in E as [_ E]. apply app_empty in E as [_ E].
      discriminate. }
    rewrite Hne. cbn [negb]. rewrite orb_true_r.
    replace (y +:+ r +:+ w +:+ HEARTBEAT_TOKEN)
      with (((y +:+ r) +:+ w) +:+ HEARTBEAT_TOKEN) in *
      by now rewrite !app_assoc.
    rewrite strip_trailing_eq, endsWith_app.
    rewrite !length_app in Hfuel. pose proof token_nonempty.
    destruct fuel as [|fuel]; [lia|].
    rewrite dropEnd_app, trimEnd_app, (trimEnd_all_ws w Hw). cbn [is_empty].
    assert (Hyr : trimEnd (y +:+ r) = y +:+ r).
    { destruct r as [|c r]; [now rewrite app_nil_r|].
      now apply (tokens_after_trimEnd _ token_plain). }
    rewrite Hyr, IH by (auto; rewrite length_app; lia).
    now rewrite orb_true_l.
Qed.

(** A text that is a run of tokens is stripped to nothing. *)
Lemma strip_leading_only_tokens (l : string) (fuel : nat) (d : bool) :
  tokens_before HEARTBEAT_TOKEN l -> (String.length l <= fuel)%nat ->
  exists d', strip_leading fuel l d = Some ("", d').
Proof.
  intros Hl Hfuel. rewrite <- (app_nil_r l).
  rewrite strip_leading_run by (auto; now rewrite app_nil_r).
  destruct (is_empty l); rewrite strip_leading_eq; cbn; eauto.
Qed.

(** The loops find every text that the edges allow. *)
Lemma strip_edges_of_stripped (trimmed s : string) :
  both_trimmed trimmed -> stripped_of HEARTBEAT_TOKEN trimmed s ->
  exists d, strip_edges trimmed = Some (s, d).
Proof.
  intros [Hb1 Hb2] (lead & trail & Htr & Hlead & Htrail & Hs & He & Hs1 & Hs2).
  unfold strip_edges.
  destruct s as [|c s].
  - (* nothing is left *)
    rewrite app_nil_l in *.
    destruct (tokens_after_view _ _ Htrail) as (ws & l & Hws & -> & Hl).
    assert (Hx : trimStart (ws +:+ l) = l).
    { rewrite trimStart_app, (trimStart_all_ws ws Hws). cbn [is_empty].
      now apply (tokens_before_trimStart _ token_plain). }
    assert (E1 : forall fuel,
               (String.length trimmed <= fuel)%nat ->
               exists d1, strip_leading fuel trimmed false = Some ("", d1)).
    { intros fuel Hf. rewrite Htr in Hf |- *.
      rewrite strip_leading_run by auto. rewrite !length_app in Hf.
      destruct (is_empty lead) eqn:El.
      - apply is_empty_true in El. subst lead. rewrite app_nil_l in Htr.
        assert (Hwl : ws +:+ l = l)
          by (rewrite <- Htr in Hx |- *; congruence).
        rewrite Hwl. apply strip_leading_only_tokens; [exact Hl | lia].
      - rewrite Hx. apply strip_leading_only_tokens; [exact Hl | lia]. }
    destruct (E1 _ (le_n _)) as [d1 ->]. cbn [mbind option_bind].
    rewrite strip_trailing_eq.
    replace (endsWith "" HEARTBEAT_TOKEN) with false by reflexivity. eauto.
  - (* some text is left *)
    set (x := String c s +:+ trail) in *.
    assert (Hx : trimStart x = x).
    { subst x. rewrite trimStart_app, Hs1. reflexivity. }
    assert (Hno : startsWith x HEARTBEAT_TOKEN = false)
      by now apply (no_token_across _ token_plain).
    assert (E1 : forall fuel,
               (String.length trimmed <= fuel)%nat ->
               exists d1, strip_leading fuel trimmed false = Some (x, d1)).
    { intros fuel Hf. rewrite Htr in Hf |- *.
      rewrite strip_leading_run by auto.
      destruct (is_empty lead); [|rewrite Hx];
        rewrite strip_leading_eq, Hno; eauto. }
    destruct (E1 _ (le_n _)) as [d1 ->]. cbn [mbind option_bind].
    assert (Hlen : (String.length x <= String.length trimmed)%nat)
      by (rewrite Htr, length_app; lia).
    subst x. rewrite strip_trailing_run; eauto.
Qed.

(** So the text that is left is determined by the trimmed text. *)
Lemma stripped_of_unique (trimmed s1 s2 : string) :
  both_trimmed trimmed ->
  stripped_of HEARTBEAT_TOKEN trimmed s1 ->
  stripped_of HEARTBEAT_TOKEN trimmed s2 -> s1 = s2.
Proof.
  intros Hb H1 H2.
  destruct (strip_edges_of_stripped _ _ Hb H1) as [d1 E1].
  destruct (strip_edges_of_stripped _ _ Hb H2) as [d2 E2].
  congruence.
Qed.

End HeartbeatUnique.

(** What the loop of [stripTokenAtEdges] takes off. *)
Module AutoReplyEdges.
Import AutoReplyHeartbeat JsFacts TrimFacts SubstringFacts EdgeFacts.

Section Token.
Variable tok : string.

Lemma strip_loop_edges (fuel : nat) :
  forall text d text' d',
    both_trimmed text ->
    strip_loop tok fuel text d = Some (text', d') ->
    (exists lead trail,
        text = lead +:+ text' +:+ trail
        /\ tokens_before tok lead /\ tokens_after tok trail)
    /\ both_trimmed text'
    /\ startsWith text' tok = false
    /\ endsWith text' tok = false
    /\ d' = d || startsWith text tok || endsWith text tok.
Proof.
  induction fuel as [|fuel IH]; intros text d text' d' Ht;
    rewrite AutoReplyFacts.strip_loop_eq; cbv zeta;
    rewrite (both_trimmed_fixed text Ht);
    destruct (startsWith text tok) eqn:Hs; try discriminate;
    destruct (endsWith text tok) eqn:He; try discriminate;
    try (intros [= <- <-]; rewrite !orb_false_r;
         split; [exists "", ""; rewrite app_nil_l, app_nil_r;
                 repeat split; constructor|]; auto).
  - (* a token at the start, and one at the end *)
    intros H. destruct Ht as [_ Hend].
    apply IH in H as ((lead & trail & Hl & Hlead & Htrail) & Hb & H1 & H2 & Hflag);
      [|split; [apply trimStart_idem
               | now apply trimEnd_trimStart, trimEnd_drop]].
    destruct (trimStart_ws_split (drop (String.length tok) text))
      as (ws & Hws & Hd).
    split; [|split; [exact Hb|split; [exact H1|split; [exact H2|]]];
             cbn [orb] in Hflag; rewrite Hflag; now destruct d].
    exists (tok +:+ ws +:+ lead), trail. split; [|split; auto].
    + rewrite (startsWith_split _ _ Hs) at 1. rewrite Hd, Hl.
      now rewrite !app_assoc.
    + now constructor.
  - (* a token at the start only *)
    intros H. destruct Ht as [_ Hend].
    apply IH in H as ((lead & trail & Hl & Hlead & Htrail) & Hb & H1 & H2 & Hflag);
      [|split; [apply trimStart_idem
               | now apply trimEnd_trimStart, trimEnd_drop]].
    destruct (trimStart_ws_split (drop (String.length tok) text))
      as (ws & Hws & Hd).
    split; [|split; [exact Hb|split; [exact H1|split; [exact H2|]]];
             cbn [orb] in Hflag; rewrite Hflag; now destruct d].
    exists (tok +:+ ws +:+ lead), trail. split; [|split; auto].
    + rewrite (startsWith_split _ _ Hs) at 1. rewrite Hd, Hl.
      now rewrite !app_assoc.
    + now constructor.
  - (* a token at the end only *)
    rewrite slice_dropEnd. intros H. destruct Ht as [Hstart _].
    apply IH in H as ((lead & trail & Hl & Hlead & Htrail) & Hb & H1 & H2 & Hflag);
      [|split; [apply trimStart_trimEnd; unfold dropEnd;
                now apply trimStart_take
               | apply SplitFacts.trimEnd_idem]].
    destruct (trimEnd_ws_split (dropEnd (String.length tok) text))
      as (ws & Hws & Hd).
    split; [|split; [exact Hb|split; [exact H1|split; [exact H2|]]];
             cbn [orb] in Hflag; rewrite Hflag; now destruct d].
    exists lead, (trail +:+ ws +:+ tok). split; [|split; auto].
    + rewrite (endsWith_split _ _ He) at 1. rewrite Hd, Hl.
      now rewrite !app_assoc.
    + now constructor.
Qed.

End Token.

End AutoReplyEdges.

Module AutoReplyRule.
Import AutoReplyHeartbeat JsFacts TrimFacts SubstringFacts EdgeFacts.

Section Rule.
Variable tok : string.
Hypothesis tok_nonempty : tok <> "".

Lemma no_token_in_nothing :
  startsWith "" tok = false /\ endsWith "" tok = false.
Proof.
  destruct tok as [|c t]; [contradiction|]. split; reflexivity.
Qed.

Lemma stripped_of_untouched (trimmed : string) :
  both_trimmed trimmed ->
  startsWith trimmed tok = false -> endsWith trimmed tok = false ->
  stripped_of tok trimmed trimmed.
Proof.
  intros Hb Hs He. exists "", "". rewrite app_nil_l, app_nil_r.
  repeat split; try constructor; auto; apply Hb.
Qed.

(** What [stripHeartbeatToken] returns, told by the edges of the trimmed
    text. *)
Lemma stripHeartbeatToken_rule (raw : string)
    (mode : option StripHeartbeatMode) (maxAckChars : option Z) :
  let trimmed := trim raw in
  let at_edge := startsWith trimmed tok || endsWith trimmed tok in
  exists middle q,
    stripped_of tok trimmed middle
    /\ stripHeartbeatToken tok (Some raw) mode maxAckChars = Some q
    /\ (shouldSkip q = true
        <-> trimmed = ""
            \/ (at_edge = true
                /\ (trim (collapse_ws middle) = ""
                    \/ (mode = Some ModeHeartbeat
                        /\ Z.of_nat
                             (String.length
                                (trim (trim (collapse_ws middle))))
                           <= Z.max 0 (default 30 maxAckChars)))))
    /\ (shouldSkip q = false ->
        text q = if at_edge then trim (collapse_ws middle) else trimmed)
    /\ (shouldSkip q = true -> text q = "")
    /\ didStrip q = at_edge.
Proof.
  intros trimmed at_edge.
  pose proof (both_trimmed_trim raw) as Hboth. fold trimmed in Hboth.
  destruct no_token_in_nothing as [Hn1 Hn2].
  unfold stripHeartbeatToken. fold trimmed.
  assert (Hblank : trimmed = "" ->
            exists middle q,
              stripped_of tok trimmed middle
              /\ Some {| shouldSkip := true; text := ""; didStrip := false |}
                 = Some q
              /\ (shouldSkip q = true
                  <-> trimmed = ""
                      \/ (at_edge = true
                          /\ (trim (collapse_ws middle) = ""
                              \/ (mode = Some ModeHeartbeat
                                  /\ Z.of_nat
                                       (String.length
                                          (trim (trim (collapse_ws middle))))
                                     <= Z.max 0 (default 30 maxAckChars)))))
              /\ (shouldSkip q = false ->
                  text q = if at_edge then trim (collapse_ws middle)
                           else trimmed)
              /\ (shouldSkip q = true -> text q = "")
              /\ didStrip q = at_edge).
  { intros E. exists "". eexists. split; [|split; [reflexivity|]].
    - rewrite E. now apply stripped_of_untouched.
    - cbn [shouldSkip text didStrip]. subst at_edge. rewrite E, Hn1, Hn2.
      repeat split; auto; discriminate. }
  destruct (is_empty raw) eqn:Hraw.
  { apply is_empty_true in Hraw. apply Hblank. subst trimmed.
    now rewrite Hraw. }
  destruct (is_empty trimmed) eqn:Hemp;
    [apply Hblank; now apply is_empty_true|].
  assert (Hne : trimmed <> "")
    by (intros H; rewrite H in Hemp; discriminate).
  destruct (includes trimmed tok) eqn:Hinc; cbn [negb].
  - unfold stripTokenAtEdges.
    rewrite (both_trimmed_fixed trimmed Hboth), Hemp, Hinc. cbn [negb].
    destruct (AutoReplyFacts.strip_loop_total tok tok_nonempty
                (String.length trimmed) trimmed false ltac:(lia))
      as (middle & did & E).
    rewrite E. cbn [mbind option_bind].
    destruct (AutoReplyEdges.strip_loop_edges tok _ _ _ _ _ Hboth E)
      as ((lead & trail & Hl & Hlead & Htrail) & Hb & H1 & H2 & Hflag).
    cbn [orb] in Hflag. fold at_edge in Hflag. subst did.
    exists middle. eexists.
    split; [exists lead, trail; auto 10|]. split; [reflexivity|].
    destruct at_edge eqn:Hedge; cbn [negb].
    + destruct (is_empty (trim (collapse_ws middle))) eqn:Hst.
      * apply is_empty_true in Hst. cbn [shouldSkip text didStrip].
        repeat split; auto; discriminate.
      * assert (Hsn : trim (collapse_ws middle) <> "")
          by (intros H; rewrite H in Hst; discriminate).
        unfold DEFAULT_HEARTBEAT_ACK_MAX_CHARS.
        destruct mode as [[|]|]; cbn [default];
          try (cbn [shouldSkip text didStrip];
               repeat split; auto; try discriminate;
               intros [?|[_ [?|[? _]]]];
               [contradiction | contradiction | discriminate]).
        destruct (Z.of_nat (String.length (trim (trim (collapse_ws middle))))
                  <=? Z.max 0 (default 30 maxAckChars)) eqn:Hle;
          cbn [shouldSkip text didStrip].
        -- apply Z.leb_le in Hle. repeat split; auto; discriminate.
        -- apply Z.leb_gt in Hle. repeat split; auto; try discriminate.
           intros [?|[_ [?|[_ ?]]]]; [contradiction | contradiction | lia].
    + cbn [shouldSkip text didStrip]. repeat split; auto; try discriminate.
      intros [?|[? _]]; [contradiction | discriminate].
  - assert (Hs : startsWith trimmed tok = false).
    { destruct (startsWith trimmed tok) eqn:H; [|reflexivity].
      apply startsWith_includes in H. congruence. }
    assert (He : endsWith trimmed tok = false).
    { destruct (endsWith trimmed tok) eqn:H; [|reflexivity].
      apply endsWith_includes in H. congruence. }
    exists trimmed. eexists.
    split; [now apply stripped_of_untouched|]. split; [reflexivity|].
    subst at_edge. rewrite Hs, He. cbn [shouldSkip text didStrip orb].
    repeat split; auto; try discriminate.
    intros [?|[? _]]; [contradiction | discriminate].
Qed.

End Rule.

End AutoReplyRule.

Module AutoReplyUnique.
Import AutoReplyHeartbeat JsFacts TrimFacts SubstringFacts EdgeFacts
  TokenRuns.

Section Plain.
Variable tok : string.
Hypothesis plain : plain_token tok = true.

Lemma strip_loop_fuel (f1 : nat) :
  forall f2 text d,
    (String.length text <= f1)%nat -> (String.length text <= f2)%nat ->
    strip_loop tok f1 text d = strip_loop tok f2 text d.
Proof.
  pose proof (AutoReplyFacts.tok_length tok (plain_nonempty tok plain))
    as Htok.
  induction f1 as [|f1 IH]; intros f2 text d H1 H2;
    rewrite (AutoReplyFacts.strip_loop_eq tok _ text),
      (AutoReplyFacts.strip_loop_eq tok f2 text); cbv zeta;
    pose proof (length_trim text) as Htrim;
    destruct (startsWith (trim text) tok) eqn:Hs;
    try (apply startsWith_length in Hs);
    destruct (endsWith (trim text) tok) eqn:He;
    try (apply endsWith_length in He);
    try reflexivity; try lia;
    (destruct f2 as [|f2]; [lia|]); apply IH.
  1-4: pose proof (length_trimStart
                     (drop (String.length tok) (trim text))) as H;
       rewrite length_drop in H; lia.
  all: pose proof (length_trimEnd
                     (slice 0 (String.length (trim text) - String.length tok)
                        (trim text))) as H;
       rewrite slice_dropEnd in *;
       pose proof (length_dropEnd (String.length tok) (trim text)); lia.
Qed.

(** The loop goes through a run of tokens at the start. *)
Lemma strip_loop_run_lead (lead : string) :
  tokens_before tok lead ->
  forall fuel x d,
    both_trimmed (lead +:+ x) ->
    (String.length (lead +:+ x) <= fuel)%nat ->
    strip_loop tok fuel (lead +:+ x) d
    = if is_empty lead then strip_loop tok fuel x d
      else strip_loop tok fuel (trimStart x) true.
Proof.
  pose proof (plain_nonempty tok plain) as Hne.
  pose proof (AutoReplyFacts.tok_length tok Hne) as Htok.
  induction 1 as [|w l Hw Hl IH]; intros fuel x d Hb Hfuel;
    [now rewrite app_nil_l|].
  assert (He : is_empty (tok +:+ w +:+ l) = false)
    by (destruct tok; [contradiction | reflexivity]).
  rewrite He. rewrite AutoReplyFacts.strip_loop_eq. cbv zeta.
  rewrite (both_trimmed_fixed _ Hb). rewrite !app_assoc in *.
  rewrite startsWith_app. rewrite !length_app in Hfuel.
  destruct fuel as [|fuel]; [lia|].
  rewrite drop_app_length, trimStart_app, (trimStart_all_ws w Hw).
  cbn [is_empty]. pose proof (length_trimStart x) as Hx.
  destruct l as [|c l].
  - rewrite app_nil_l. apply strip_loop_fuel; lia.
  - assert (Hlx : trimStart (String c l +:+ x) = String c l +:+ x).
    { rewrite trimStart_app, (tokens_before_trimStart tok plain _ Hl).
      reflexivity. }
    rewrite Hlx, IH.
    + cbn [is_empty]. apply strip_loop_fuel; lia.
    + split; [exact Hlx|]. destruct Hb as [_ Hend].
      apply (trimEnd_drop (String.length (tok +:+ w))) in Hend.
      rewrite <- (app_assoc tok w), drop_app_length in Hend. exact Hend.
    + rewrite length_app. lia.
Qed.

(** The loop goes through a run of tokens at the end. *)
Lemma strip_loop_run_trail (trail : string) :
  tokens_after tok trail ->
  forall fuel y d,
    y <> "" -> both_trimmed y ->
    startsWith y tok = false -> endsWith y tok = false ->
    (String.length (y +:+ trail) <= fuel)%nat ->
    strip_loop tok fuel (y +:+ trail) d
    = Some (y, d || negb (is_empty trail)).
Proof.
  pose proof (plain_nonempty tok plain) as Hne.
  pose proof (AutoReplyFacts.tok_length tok Hne) as Htok.
  induction 1 as [|r w Hr IH Hw]; intros fuel y d Hy Hb Hs He Hfuel;
    rewrite AutoReplyFacts.strip_loop_eq; cbv zeta.
  - rewrite app_nil_r, (both_trimmed_fixed _ Hb), Hs, He.
    cbn [is_empty negb]. now rewrite orb_false_r.
  - assert (Hno : startsWith (y +:+ r +:+ w +:+ tok) tok = false)
      by (apply (no_token_across tok plain); auto; now constructor).
    assert (Hemp : is_empty (r +:+ w +:+ tok) = false).
    { destruct (r +:+ w +:+ tok) eqn:E; [|reflexivity].
      apply app_empty in E as [_ E]. apply app_empty in E as [_ E].
      contradiction. }
    rewrite Hemp. cbn [negb]. rewrite orb_true_r.
    replace (y +:+ r +:+ w +:+ tok) with (((y +:+ r) +:+ w) +:+ tok) in *
      by now rewrite !app_assoc.
    assert (Hfix : trim (((y +:+ r) +:+ w) +:+ tok)
                   = ((y +:+ r) +:+ w) +:+ tok).
    { apply both_trimmed_fixed. split; [|apply (plain_trimEnd tok plain)].
      rewrite !app_assoc, trimStart_app. destruct Hb as [-> _].
      destruct y; [contradiction | reflexivity]. }
    rewrite Hfix, Hno, endsWith_app. rewrite !length_app in Hfuel.
    destruct fuel as [|fuel]; [lia|].
    rewrite slice_dropEnd, dropEnd_app, trimEnd_app, (trimEnd_all_ws w Hw).
    cbn [is_empty].
    assert (Hyr : trimEnd (y +:+ r) = y +:+ r).
    { destruct r as [|c r]; [rewrite app_nil_r; apply Hb|].
      now apply (tokens_after_trimEnd tok plain). }
    rewrite Hyr, IH by (auto; rewrite length_app; lia).
    now rewrite orb_true_l.
Qed.

(** A text that is a run of tokens is stripped to nothing. *)
Lemma strip_loop_only_tokens (l : string) (fuel : nat) (d : bool) :
  tokens_before tok l -> both_trimmed l -> (String.length l <= fuel)%nat ->
  exists d', strip_loop tok fuel l d = Some ("", d').
Proof.
  pose proof (plain_nonempty tok plain) as Hne.
  intros Hl Hb Hfuel. rewrite <- (app_nil_r l).
  rewrite strip_loop_run_lead by (auto; now rewrite app_nil_r).
  assert (Hs : startsWith "" tok = false)
    by (destruct tok; [contradiction | reflexivity]).
  assert (He : endsWith "" tok = false)
    by (destruct tok; [contradiction | reflexivity]).
  destruct (is_empty l); rewrite AutoReplyFacts.strip_loop_eq; cbv zeta;
    cbn [trimStart trim trimEnd]; rewrite Hs, He; eauto.
Qed.

(** The loop finds every text that the edges allow. *)
Lemma strip_loop_of_stripped (text s : string) (fuel : nat) (d : bool) :
  both_trimmed text -> stripped_of tok text s ->
  (String.length text <= fuel)%nat ->
  exists d', strip_loop tok fuel text d = Some (s, d').
Proof.
  intros Hb (lead & trail & Htr & Hlead & Htrail & Hs & He & Hs1 & Hs2) Hfuel.
  subst text. rewrite strip_loop_run_lead by auto.
  rewrite !length_app in Hfuel.
  destruct s as [|c s].
  - (* nothing is left *)
    rewrite app_nil_l in *.
    destruct (tokens_after_view _ _ Htrail) as (ws & l & Hws & -> & Hl).
    assert (Hx : trimStart (ws +:+ l) = l).
    { rewrite trimStart_app, (trimStart_all_ws ws Hws). cbn [is_empty].
      now apply (tokens_before_trimStart tok plain). }
    rewrite length_app in Hfuel.
    destruct (is_empty lead) eqn:El.
    + apply is_empty_true in El. subst lead. rewrite app_nil_l in Hb.
      assert (Hwl : ws +:+ l = l) by (destruct Hb as [Hb _]; congruence).
      rewrite Hwl in *. apply strip_loop_only_tokens; auto. lia.
    + rewrite Hx. apply strip_loop_only_tokens; auto; [|lia].
      split; [now apply (tokens_before_trimStart tok plain)|].
      destruct Hb as [_ Hend].
      apply (trimEnd_drop (String.length (lead +:+ ws))) in Hend.
      rewrite <- (app_assoc lead ws), drop_app_length in Hend. exact Hend.
  - (* some text is left *)
    assert (Hx : trimStart (String c s +:+ trail) = String c s +:+ trail).
    { rewrite trimStart_app, Hs1. reflexivity. }
    destruct (is_empty lead); [|rewrite Hx];
      rewrite strip_loop_run_trail; eauto; try discriminate;
      try (now split); rewrite length_app; lia.
Qed.

(** So the text that is left is determined by the trimmed text. *)
Lemma plain_stripped_of_unique (text s1 s2 : string) :
  both_trimmed text ->
  stripped_of tok text s1 -> stripped_of tok text s2 -> s1 = s2.
Proof.
  intros Hb H1 H2.
  destruct (strip_loop_of_stripped _ _ (String.length text) false Hb H1
              (le_n _)) as [d1 E1].
  destruct (strip_loop_of_stripped _ _ (String.length text) false Hb H2
              (le_n _)) as [d2 E2].
  congruence.
Qed.

End Plain.

End AutoReplyUnique.

Section HeartbeatProps.
Import JsFacts TrimFacts HeartbeatEdges HeartbeatUnique AutoReplyRule
  AutoReplyUnique.
Local Open Scope Z_scope.

Lemma processHeartbeatResponse_withheld_iff (response : string)
    (ackMaxChars : option Z) :
  let trimmed := trim response in
  let at_edge :=
    startsWith trimmed Heartbeat.HEARTBEAT_TOKEN
    || endsWith trimmed Heartbeat.HEARTBEAT_TOKEN in
  exists stripped p,
    Heartbeat.strip_edges trimmed = Some (stripped, at_edge)
    /\ Heartbeat.processHeartbeatResponse response ackMaxChars = Some p
    /\ (Heartbeat.shouldDeliver p = false
        <-> trimmed = ""
            \/ (at_edge = true
                /\ (stripped = ""
                    \/ Z.of_nat (String.length stripped)
                       <= default 30 ackMaxChars)))
    /\ (Heartbeat.shouldDeliver p = true ->
        Heartbeat.text p = stripped
        /\ startsWith (Heartbeat.text p) Heartbeat.HEARTBEAT_TOKEN = false
        /\ endsWith (Heartbeat.text p) Heartbeat.HEARTBEAT_TOKEN = false)
    /\ (Heartbeat.shouldDeliver p = false -> Heartbeat.text p = "").
Proof.
  intros trimmed at_edge.
  destruct (HeartbeatFacts.strip_edges_total trimmed)
    as (stripped & E & Hs & He & Hid).
  fold at_edge in E, Hid.
  unfold Heartbeat.processHeartbeatResponse. fold trimmed.
  destruct (is_empty trimmed) eqn:Hemp.
  - apply is_empty_true in Hemp. exists stripped. eexists.
    split; [exact E|]. split; [reflexivity|]. cbn.
    repeat split; auto; discriminate.
  - assert (Hne : trimmed <> "") by (intros H; rewrite H in Hemp; discriminate).
    destruct (includes trimmed Heartbeat.HEARTBEAT_TOKEN) eqn:Hinc; cbn [negb].
    + rewrite E. cbn [mbind option_bind].
      exists stripped. eexists. split; [reflexivity|]. split; [reflexivity|].
      destruct at_edge eqn:Hedge; cbn [negb].
      * destruct (is_empty stripped
                  || (Z.of_nat (String.length stripped) <=? default 30 ackMaxChars))
          eqn:Hshort; cbn.
        -- repeat split; auto; try discriminate. intros _. right. split; auto.
           apply orb_true_iff in Hshort as [H|H].
           ++ left. now apply is_empty_true.
           ++ right. now apply Z.leb_le.
        -- apply orb_false_iff in Hshort as [Hn H]. apply Z.leb_gt in H.
           repeat split; auto; try discriminate.
           intros [?|[_ [->|?]]]; [contradiction | discriminate | lia].
      * cbn. rewrite (Hid eq_refl) in *.
        repeat split; auto; try discriminate.
        intros [?|[? _]]; [contradiction | discriminate].
    + exists stripped. eexists. split; [exact E|]. split; [reflexivity|]. cbn.
      assert (Hedge : at_edge = false).
      { subst at_edge. apply orb_false_iff. split.
        - destruct (startsWith trimmed _) eqn:H; [|reflexivity].
          apply startsWith_includes in H. congruence.
        - destruct (endsWith trimmed _) eqn:H; [|reflexivity].
          apply endsWith_includes in H. congruence. }
      rewrite (Hid Hedge) in *. rewrite Hedge.
      repeat split; auto; try discriminate.
      intros [?|[? _]]; [contradiction | discriminate].
Qed.

(** C6, amended. Let [trimmed] be the trimmed response.  The tokens at
    its edges are stripped: [trimmed] is a run of tokens, each followed by
    white space, then the text [stripped], then a run of tokens, each
    preceded by white space, where [stripped] is trimmed and has no token
    at either edge; for the token [[HEARTBEAT_OK]] there is exactly one
    such text, and it is [trimmed] itself when no token stands at an edge,
    so a token in the middle stays.  The response is withheld if and only
    if [trimmed] is empty, or a token stands at an edge of [trimmed] and
    [stripped] is empty or has at most [ackMaxChars] (default 30)
    characters; a withheld response has the empty text, any other is
    delivered as [stripped].  [stripHeartbeatToken] strips the edges in
    the same way, for every non-empty token (the text that is left is
    again the only such text when the token holds no white space and its
    first character does not come again in it), and then turns each run
    of white space inside that text into one space.  It skips if and only
    if [trimmed] is empty, or a token stands at an edge and the text that
    is left is empty or, in heartbeat mode only, has at most
    [max 0 ackMaxChars] characters; otherwise it hands on the text that is
    left when a token stood at an edge and [trimmed] when none did, and
    [didStrip] tells which. *)
Theorem heartbeat_suppression_rule (response : string)
    (ackMaxChars : option Z) (token : string)
    (mode : option AutoReplyHeartbeat.StripHeartbeatMode) :
  token <> "" ->
  let trimmed := trim response in
  (let at_edge :=
     startsWith trimmed Heartbeat.HEARTBEAT_TOKEN
     || endsWith trimmed Heartbeat.HEARTBEAT_TOKEN in
   exists stripped p,
     stripped_of Heartbeat.HEARTBEAT_TOKEN trimmed stripped
     /\ (forall other,
            stripped_of Heartbeat.HEARTBEAT_TOKEN trimmed other ->
            other = stripped)
     /\ (at_edge = false -> stripped = trimmed)
     /\ Heartbeat.processHeartbeatResponse response ackMaxChars = Some p
     /\ (Heartbeat.shouldDeliver p = false
         <-> trimmed = ""
             \/ (at_edge = true
                 /\ (stripped = ""
                     \/ Z.of_nat (String.length stripped)
                        <= default 30 ackMaxChars)))
     /\ (Heartbeat.shouldDeliver p = true -> Heartbeat.text p = stripped)
     /\ (Heartbeat.shouldDeliver p = false -> Heartbeat.text p = ""))
  /\ (let at_edge := startsWith trimmed token || endsWith trimmed token in
      exists middle q,
        stripped_of token trimmed middle
        /\ (plain_token token = true ->
            forall other, stripped_of token trimmed other -> other = middle)
        /\ AutoReplyHeartbeat.stripHeartbeatToken token (Some response) mode
             ackMaxChars = Some q
        /\ (let stripped := trim (collapse_ws middle) in
            (AutoReplyHeartbeat.shouldSkip q = true
             <-> trimmed = ""
                 \/ (at_edge = true
                     /\ (stripped = ""
                         \/ (mode = Some AutoReplyHeartbeat.ModeHeartbeat
                             /\ Z.of_nat (String.length (trim stripped))
                                <= Z.max 0 (default 30 ackMaxChars)))))
            /\ (AutoReplyHeartbeat.shouldSkip q = false ->
                AutoReplyHeartbeat.text q
                = if at_edge then stripped else trimmed)
            /\ (AutoReplyHeartbeat.shouldSkip q = true ->
                AutoReplyHeartbeat.text q = "")
            /\ AutoReplyHeartbeat.didStrip q = at_edge)).
Proof.
  intros Htoken trimmed. split.
  - intros at_edge.
    destruct (processHeartbeatResponse_withheld_iff response ackMaxChars)
      as (stripped & p & Hstrip & Hp & Hiff & Hdel & Hwith).
    fold trimmed in Hstrip, Hiff. fold at_edge in Hstrip, Hiff.
    pose proof (both_trimmed_trim response) as Hboth. fold trimmed in Hboth.
    pose proof (strip_edges_stripped_of _ _ _ Hboth Hstrip) as Hof.
    exists stripped, p. split; [exact Hof|]. split.
    { intros other Hother. exact (stripped_of_unique _ _ _ Hboth Hother Hof). }
    split.
    { intros Hedge.
      destruct (HeartbeatFacts.strip_edges_total trimmed)
        as (x & Ex & _ & _ & Hid).
      rewrite Hstrip in Ex. injection Ex as <-. now apply Hid. }
    split; [exact Hp|]. split; [exact Hiff|]. split; [|exact Hwith].
    intros H. now apply Hdel.
  - intros at_edge.
    destruct (stripHeartbeatToken_rule token Htoken response mode ackMaxChars)
      as (middle & q & Hof & Hrule).
    exists middle, q. split; [exact Hof|]. split; [|exact Hrule].
    intros Hplain other Hother.
    exact (plain_stripped_of_unique token Hplain _ _ _
             (both_trimmed_trim response) Hother Hof).
Qed.

Lemma heartbeat_suppression_rule_witness :
  exists p,
    Heartbeat.processHeartbeatResponse "[HEARTBEAT_OK] all quiet" None = Some p
    /\ Heartbeat.shouldDeliver p = false.
Proof.
  destruct (heartbeat_suppression_rule "[HEARTBEAT_OK] all quiet" None
              "HEARTBEAT_OK" None ltac:(discriminate))
    as [(stripped & p & _ & Hone & _ & Hp & Hiff & _) _].
  exists p. split; [exact Hp|]. apply Hiff. right.
  split; [vm_compute; reflexivity|]. right.
  rewrite <- (Hone "all quiet"); [vm_compute; discriminate|].
  exists (Heartbeat.HEARTBEAT_TOKEN +:+ " " +:+ ""), "".
  split; [reflexivity|]. split; [now constructor; [|constructor]|].
  split; [constructor|]. repeat split.
Defined.

(** C6, counterexample. The empty response is withheld although it holds
    no token; a response with the token in its middle and six characters
    around it is delivered, token included. *)
Lemma heartbeat_suppression_not_token_plus_ack :
  (Heartbeat.processHeartbeatResponse "" None
   = Some {| Heartbeat.text := ""; Heartbeat.shouldDeliver := false |}
   /\ ~ Heartbeat.solely_token_plus 30 "")
  /\ (Heartbeat.processHeartbeatResponse "ok [HEARTBEAT_OK] ok" None
      = Some {| Heartbeat.text := "ok [HEARTBEAT_OK] ok";
                Heartbeat.shouldDeliver := true |}
      /\ Heartbeat.solely_token_plus 30 "ok [HEARTBEAT_OK] ok").
Proof.
  split; split; try (vm_compute; reflexivity).
  - intros (pre & post & E & _). apply (f_equal String.length) in E.
    rewrite !length_app in E. pose proof HeartbeatFacts.token_nonempty.
    simpl in E. lia.
  - exists "ok ", " ok". split; [reflexivity | vm_compute; discriminate].
Qed.

End HeartbeatProps.
(** ** Directive extraction *)

Section DirectiveProps.
Import Regex Directives JsFacts.

Lemma slice_includes (i j : nat) (s : string) : includes s (slice i j s) = true.
Proof.
  unfold slice.
  rewrite <- (take_drop i s) at 1.
  rewrite <- (take_drop (j - i) (drop i s)) at 1.
  apply includes_app.
Qed.

Lemma exec_includes (re : Regex) (body m0 : string) (m1 : option string) :
  exec re body = Some (m0, m1) -> includes body m0 = true.
Proof.
  unfold exec. destruct (exec_from re 0 None body) as [m|]; [|discriminate].
  simpl. intros [= <- _]. apply slice_includes.
Qed.

Lemma extract_with_matched {L : Type} (re : Regex)
    (normalize : option string -> option L) (body m0 : string)
    (m1 : option string) :
  body <> "" ->
  exec re body = Some (m0, m1) ->
  let r := extract_with re normalize (Some body) in
  level r = normalize m1 /\ rawLevel r = m1 /\ hasDirective r = true
  /\ exists pre post,
       body = pre +:+ m0 +:+ post
       /\ cleaned r = trim (collapse_ws (pre +:+ post)).
Proof.
  intros Hne Hex r. subst r. unfold extract_with.
  destruct body as [|c body]; [contradiction|]. cbn [is_empty].
  rewrite Hex. cbn [level rawLevel hasDirective cleaned].
  repeat split.
  destruct (replace_first_remove _ _ (exec_includes _ _ _ _ Hex))
    as (pre & post & E1 & E2).
  exists pre, post. now rewrite E2.
Qed.

(** C7, amended. When the think pattern matches a message with an
    argument word that is no recognized level, extraction returns no level,
    the raw word, [hasDirective = true], and a cleaned text from which the
    matched directive, argument included, is removed: the message splits
    as [pre ++ match ++ post] and the cleaned text is [pre ++ post] with
    its white space collapsed and trimmed.  [extractAllDirectives] reports
    no think level and [hasDirectives = true].  The verbose pattern
    behaves the same way. *)
Theorem unknown_argument_directive_is_stripped (body m0 word : string) :
  body <> "" ->
  (exec think_re body = Some (m0, Some word) ->
   normalizeThinkLevel (Some word) = None ->
   let r := extractThinkDirective (Some body) in
   level r = None /\ rawLevel r = Some word /\ hasDirective r = true
   /\ thinkLevel (extractAllDirectives body) = None
   /\ hasDirectives (extractAllDirectives body) = true
   /\ exists pre post,
        body = pre +:+ m0 +:+ post
        /\ cleaned r = trim (collapse_ws (pre +:+ post)))
  /\ (exec verbose_re body = Some (m0, Some word) ->
      normalizeVerboseLevel (Some word) = None ->
      let r := extractVerboseDirective (Some body) in
      level r = None /\ rawLevel r = Some word /\ hasDirective r = true
      /\ exists pre post,
           body = pre +:+ m0 +:+ post
           /\ cleaned r = trim (collapse_ws (pre +:+ post))).
Proof.
  intros Hne. split.
  - intros Hex Hlv r.
    destruct (extract_with_matched think_re normalizeThinkLevel body m0
                (Some word) Hne Hex) as (H1 & H2 & H3 & H4).
    fold (extractThinkDirective (Some body)) in H1, H2, H3, H4. fold r in H1, H2, H3, H4.
    rewrite Hlv in H1. repeat split; auto.
    unfold extractAllDirectives. cbn [hasDirectives]. fold r. now rewrite H3.
  - intros Hex Hlv r.
    destruct (extract_with_matched verbose_re normalizeVerboseLevel body m0
                (Some word) Hne Hex) as (H1 & H2 & H3 & H4).
    fold (extractVerboseDirective (Some body)) in H1, H2, H3, H4. fold r in H1, H2, H3, H4.
    rewrite Hlv in H1. repeat split; auto.
Qed.

Lemma unknown_argument_directive_is_stripped_witness :
  cleaned (extractThinkDirective (Some "/think banana draft it")) = "draft it"
  /\ level (extractThinkDirective (Some "/think banana draft it")) = None.
Proof.
  destruct (unknown_argument_directive_is_stripped "/think banana draft it"
              "/think banana" "banana" ltac:(discriminate)) as [Hthink _].
  destruct (Hthink ltac:(vm_compute; reflexivity) ltac:(vm_compute; reflexivity))
    as (Hl & _ & _ & _ & _ & _).
  split; [vm_compute; reflexivity | exact Hl].
Defined.

(** C7, counterexample. "/think banana draft it": no level, and the
    cleaned text "draft it" no longer holds the directive. *)
Lemma unknown_think_argument_directive_removed :
  let r := extractThinkDirective (Some "/think banana draft it") in
  level r = None
  /\ cleaned r = "draft it"
  /\ includes (cleaned r) "/think" = false
  /\ cleanedMessage (extractAllDirectives "/think banana draft it") = "draft it".
Proof. vm_compute. repeat split. Qed.

End DirectiveProps.

(** ** Skill filtering *)

Section SkillFilterProps.
Import Skills Scenarios.

Section SkillProps.
Variable JSON_parse : string -> option JsVal.
Variable platform : string.
Variable process_env : gmap string string.
Variable executable_in : string -> string -> bool.
Variable delimiter : ascii.

Lemma resolved_metadata_has_no_requires (fm : gmap string string)
    (md : ClawdSkillMetadata) :
  resolveClawdMetadata JSON_parse fm = Some md -> requires md = None.
Proof.
  unfold resolveClawdMetadata.
  destruct (fm !! "metadata") as [raw|]; [|discriminate].
  destruct (is_empty raw); [discriminate|].
  destruct (JSON_parse raw) as [[| | | | | |parsed]|]; try discriminate.
  destruct (get parsed "clawd"); try discriminate; now intros [= <-].
Qed.

(** What [shouldIncludeSkill] decides for an entry as it is given. *)
Lemma shouldIncludeSkill_spec (entry : SkillEntry)
    (config : option ClawdConfig) :
  let skillConfig :=
    resolveSkillConfig config (resolveSkillKey (skill entry) (Some entry)) in
  let osList := default [] (clawd entry ≫= os) in
  let meta_requires := clawd entry ≫= requires in
  shouldIncludeSkill platform process_env executable_in delimiter entry config
  = true
  <-> (skillConfig ≫= enabled) ≠ Some false
      /\ (osList = [] \/ In platform osList)
      /\ ((clawd entry ≫= always) = Some true
          \/ (forall bin, In bin (default [] (meta_requires ≫= bins)) ->
                hasBinary process_env executable_in delimiter bin = true)
             /\ (forall name, In name (default [] (meta_requires ≫= req_env)) ->
                   env_satisfied process_env entry skillConfig name = true)).
Proof.
  intros skillConfig osList meta_requires. unfold shouldIncludeSkill.
  fold skillConfig. fold osList. fold meta_requires.
  assert (Hos : (0 <? length osList)%nat
                && negb (existsb (String.eqb platform) osList) = false
                <-> osList = [] \/ In platform osList).
  { destruct osList as [|o l] eqn:E; [simpl; tauto|].
    change (0 <? length (o :: l))%nat with true. rewrite andb_true_l.
    rewrite negb_false_iff, existsb_exists. split.
    - intros (x & Hx & Heq). apply String.eqb_eq in Heq. subst. auto.
    - intros [?|H]; [discriminate|]. exists platform. split; auto.
      apply String.eqb_refl. }
  case_bool_decide as Hen.
  { split; [discriminate|]. intros (H & _). contradiction. }
  destruct ((0 <? length osList)%nat
            && negb (existsb (String.eqb platform) osList)) eqn:Eos.
  { split; [discriminate|]. intros (_ & H & _). apply Hos in H. discriminate. }
  assert (Hos' : osList = [] \/ In platform osList) by now apply Hos.
  case_bool_decide as Hal.
  { split; auto. }
  destruct (forallb _ (default [] (meta_requires ≫= bins))) eqn:Eb; simpl.
  - rewrite forallb_forall in Eb. rewrite forallb_forall. split.
    + intros H. repeat split; auto.
    + intros (_ & _ & [H|[_ H]]); [contradiction | exact H].
  - split; [discriminate|]. intros (_ & _ & [H|[H _]]); [contradiction|].
    apply forallb_forall in H. congruence.
Qed.

(** For an entry built by [loadSkillEntries], only the configuration
    switch and the platform list decide. *)
Lemma loaded_skill_requirements_unchecked (s : Skill)
    (fm : gmap string string) (config : option ClawdConfig) :
  let entry := load_entry JSON_parse s fm in
  shouldIncludeSkill platform process_env executable_in delimiter entry config
  = true
  <-> (resolveSkillConfig config (resolveSkillKey s (Some entry)) ≫= enabled)
      ≠ Some false
      /\ (default [] (clawd entry ≫= os) = []
          \/ In platform (default [] (clawd entry ≫= os))).
Proof.
  intros entry. rewrite shouldIncludeSkill_spec.
  assert (Hreq : clawd entry ≫= requires = None).
  { unfold entry, load_entry. simpl.
    destruct (resolveClawdMetadata JSON_parse fm) as [md|] eqn:E; [|reflexivity].
    simpl. now apply resolved_metadata_has_no_requires in E. }
  rewrite Hreq. simpl. split.
  - intros (H1 & H2 & _). auto.
  - intros (H1 & H2). split; [exact H1|]. split; [exact H2|].
    right. split; intros ? [].
Qed.

End SkillProps.

(** C8, at the failing input. A skill whose front matter requires the
    binary [gh], loaded on a host where [gh] is nowhere on [PATH]: the
    metadata that [resolveClawdMetadata] builds has no [requires], and
    the skill passes the filter. *)
Theorem skill_with_missing_binary_is_kept :
  let entry := load_entry parse_gh gh_skill gh_frontmatter in
  hasBinary bare_env nothing_installed ":" "gh" = false
  /\ clawd entry ≫= requires = None
  /\ shouldIncludeSkill "linux" bare_env nothing_installed ":" entry None = true
  /\ filterSkillEntries "linux" bare_env nothing_installed ":" [entry] None
     = [entry].
Proof. vm_compute. repeat split. Qed.

End SkillFilterProps.

(** ** Store persistence *)

Section PersistProps.
Import Fs Scenarios.

Section StoreProps.
Context {W Store : Type}.
Variable fs : FsCall -> W -> W * outcome FsError unit.
Variable dirname : string -> string.
Variable stringify : Store -> string.
Variable pid : string.
Variable rand : string.

Lemma call_log (c : FsCall) (st : Logged W) :
  (call fs c st).1.2 = st.2 ++ [c].
Proof. destruct st as [w log]. unfold call. now destruct (fs c w). Qed.

Lemma adds_only_call (P : FsCall -> bool) (c : FsCall) :
  P c = true -> adds_only P (call fs c).
Proof.
  intros H st. exists [c]. rewrite call_log. simpl. now rewrite H.
Qed.

Lemma adds_only_and_then (P : FsCall -> bool) (a b : Action W) :
  adds_only P a -> adds_only P b -> adds_only P (and_then a b).
Proof.
  intros Ha Hb st. unfold and_then.
  destruct (Ha st) as (ca & Ea & Pa).
  destruct (a st) as [st1 [u|e]]; simpl in Ea.
  - destruct (Hb st1) as (cb & Eb & Pb). exists (ca ++ cb).
    rewrite Eb, Ea, app_assoc. split; [reflexivity|].
    rewrite forallb_app. now rewrite Pa, Pb.
  - exists ca. auto.
Qed.

Lemma adds_only_finally (P : FsCall -> bool) (a b : Action W) :
  adds_only P a -> adds_only P b -> adds_only P (finally a b).
Proof.
  intros Ha Hb st. unfold finally.
  destruct (Ha st) as (ca & Ea & Pa).
  destruct (a st) as [st1 r]; simpl in Ea.
  destruct (Hb st1) as (cb & Eb & Pb).
  exists (ca ++ cb).
  destruct (b st1) as [st2 [u|e]]; simpl in *;
    rewrite Eb, Ea, app_assoc; (split; [reflexivity|]);
    rewrite forallb_app; now rewrite Pa, Pb.
Qed.

Lemma adds_only_write_or_recover (storePath json tmp : string) :
  adds_only (fun c => negb (is_copy c))
    (SessionStore.write_or_recover fs dirname storePath json tmp).
Proof.
  intros st. unfold SessionStore.write_or_recover.
  pose proof (adds_only_and_then (fun c => negb (is_copy c))
                (call fs (WriteFile tmp json))
                (call fs (Rename tmp storePath))
                (adds_only_call _ _ eq_refl) (adds_only_call _ _ eq_refl) st)
    as (c1 & E1 & P1).
  destruct (and_then _ _ st) as [st1 [u|err]]; simpl in E1; [eauto|].
  destruct (SessionStore.is_ENOENT err); [|eauto].
  pose proof (adds_only_and_then (fun c => negb (is_copy c))
                (call fs (Mkdir (dirname storePath)))
                (call fs (WriteFile storePath json))
                (adds_only_call _ _ eq_refl) (adds_only_call _ _ eq_refl) st1)
    as (c2 & E2 & P2).
  exists (c1 ++ c2).
  assert (forallb (fun c => negb (is_copy c)) (c1 ++ c2) = true)
    by (rewrite forallb_app; now rewrite P1, P2).
  destruct (and_then _ _ st1) as [st2 [u|err2]]; simpl in E2 |- *;
    [|destruct (SessionStore.is_ENOENT err2)]; simpl;
    rewrite E2, E1, app_assoc; auto.
Qed.

(** C9, amended. A persist of the session store whose temporary write
    and rename succeed makes the directory, writes the serialized JSON to
    [<path>.<pid>.<uuid>.tmp], renames that file onto the store path and
    then removes the temporary name; no persist of the session store
    ever copies a file, so it leaves no [.bak].  A persist of the cron
    store writes the temporary file, renames it and then copies the
    store to [<path>.bak], succeeding whatever becomes of the copy. *)
Theorem session_store_persist_discipline (storePath : string) (store : Store)
    (w : W) (log : list FsCall) :
  let dir := dirname storePath in
  let json := stringify store in
  let tmp := storePath +:+ "." +:+ pid +:+ "." +:+ rand +:+ ".tmp" in
  let bak := storePath +:+ ".bak" in
  (* the session store, when the temporary write and the rename succeed *)
  (forall w1 w2 w3 w4 r,
      fs (Mkdir dir) w = (w1, Ret tt) ->
      fs (WriteFile tmp json) w1 = (w2, Ret tt) ->
      fs (Rename tmp storePath) w2 = (w3, Ret tt) ->
      fs (Rm tmp) w3 = (w4, r) ->
      SessionStore.saveSessionStore fs dirname stringify pid rand
        storePath store (w, log)
      = ((w4, log ++ [Mkdir dir; WriteFile tmp json; Rename tmp storePath;
                      Rm tmp]), r))
  (* the session store never copies a file *)
  /\ (exists calls,
         (SessionStore.saveSessionStore fs dirname stringify pid rand
            storePath store (w, log)).1.2 = log ++ calls
         /\ forallb (fun c => negb (is_copy c)) calls = true)
  (* the cron store: temporary file, rename, best-effort backup *)
  /\ (forall w1 w2 w3 w4 r,
         fs (Mkdir dir) w = (w1, Ret tt) ->
         fs (WriteFile tmp json) w1 = (w2, Ret tt) ->
         fs (Rename tmp storePath) w2 = (w3, Ret tt) ->
         fs (CopyFile storePath bak) w3 = (w4, r) ->
         CronStore.saveCronStore fs dirname stringify pid rand
           storePath store (w, log)
         = ((w4, log ++ [Mkdir dir; WriteFile tmp json;
                         Rename tmp storePath; CopyFile storePath bak]),
            Ret tt)).
Proof.
  intros dir json tmp bak. split; [|split].
  - intros w1 w2 w3 w4 r H1 H2 H3 H4.
    unfold SessionStore.saveSessionStore, SessionStore.write_or_recover,
      SessionStore.tmp_path, and_then, finally, call.
    fold dir json tmp. rewrite H1, H2, H3, H4.
    rewrite <- !app_assoc. simpl. now destruct r as [[]|e].
  - apply (adds_only_and_then (fun c => negb (is_copy c))).
    + now apply adds_only_call.
    + apply adds_only_finally.
      * apply adds_only_write_or_recover.
      * now apply adds_only_call.
  - intros w1 w2 w3 w4 r H1 H2 H3 H4.
    unfold CronStore.saveCronStore, CronStore.tmp_path, and_then,
      best_effort, call.
    fold dir json tmp bak. rewrite H1, H2, H3, H4.
    rewrite <- !app_assoc. reflexivity.
Qed.

End StoreProps.

Lemma session_store_persist_discipline_witness :
  SessionStore.saveSessionStore plain_fs state_dir show_store "4242" "u-1"
    "/state/sessions.json" "{}" (∅, [])
  = (({[ "/state/sessions.json" := "{}" ]},
      [ Mkdir "/state";
        WriteFile "/state/sessions.json.4242.u-1.tmp" "{}";
        Rename "/state/sessions.json.4242.u-1.tmp" "/state/sessions.json";
        Rm "/state/sessions.json.4242.u-1.tmp" ]), Ret tt).
Proof.
  destruct (session_store_persist_discipline plain_fs state_dir show_store
              "4242" "u-1" "/state/sessions.json" "{}" ∅ []) as [Hmain _].
  apply (Hmain ∅ {[ "/state/sessions.json.4242.u-1.tmp" := "{}" ]}
           {[ "/state/sessions.json" := "{}" ]}); vm_compute; reflexivity.
Defined.

(** C9, counterexample. A successful persist of the session store on a
    file system where every call succeeds: the store file is written, no
    [.bak] file exists and no copy was asked for. *)
Lemma session_store_makes_no_backup :
  let after :=
    SessionStore.saveSessionStore plain_fs state_dir show_store "4242" "u-1"
      "/state/sessions.json" "{}" (∅, []) in
  after.2 = Ret tt
  /\ after.1.1 !! "/state/sessions.json" = Some "{}"
  /\ after.1.1 !! "/state/sessions.json.bak" = None
  /\ ~ In (CopyFile "/state/sessions.json" "/state/sessions.json.bak")
         after.1.2.
Proof.
  vm_compute. repeat split; try reflexivity.
  intros H. repeat (destruct H as [H|H]; [discriminate|]). exact H.
Qed.

End PersistProps.

(** ** Pairing reply *)

Section PairingProps.
Import Pairing.

(** C10, amended. For every provider, id line and code the reply is the
    line "Clawdbot: access not configured.", a blank line, the id line, a
    blank line, "Pairing code: " with the code, a blank line, "Ask the bot
    owner to approve with:" and the command "clawdbot pairing approve "
    with the provider, followed by the placeholder [<code>] as it
    stands. *)
Theorem pairing_reply_keeps_code_placeholder (provider idLine code : string) :
  buildPairingReply provider idLine code
  = "Clawdbot: access not configured." +:+ nl +:+ nl
    +:+ idLine +:+ nl +:+ nl
    +:+ "Pairing code: " +:+ code +:+ nl +:+ nl
    +:+ "Ask the bot owner to approve with:" +:+ nl
    +:+ "clawdbot pairing approve " +:+ provider +:+ " <code>".
Proof.
  unfold buildPairingReply, join.
  now rewrite !JsFacts.app_assoc, !JsFacts.app_nil_l.
Qed.

(** C10, counterexample. For discord and the code ABC123 the last line
    ends in the placeholder, not in ABC123. *)
Lemma pairing_reply_not_spec_template :
  buildPairingReply "discord" "Your Discord user id: 1" "ABC123"
  <> spec_pairing_reply "discord" "Your Discord user id: 1" "ABC123".
Proof. vm_compute. discriminate. Qed.

End PairingProps.

(** * Further properties of the code *)

(** ** Model references and the candidate chain *)

Section ParseProps.
Import ModelFallback FallbackChain JsFacts TrimFacts SplitFacts.

Lemma parse_of_key_then (p m t d : string) :
  p <> "" -> m <> "" -> trim p = p -> trim m = m ->
  free_of "/" p = true -> free_of "/" m = true ->
  (t = "" \/ exists rest, t = String "/" rest) ->
  trim (p +:+ String "/" m +:+ t) = p +:+ String "/" m +:+ trimEnd t ->
  parseModelRef (p +:+ String "/" m +:+ t) d
  = Some {| provider := p; model := m |}.
Proof.
  intros Hp Hm Htp Htm Hfp Hfm Ht Htrim. unfold parseModelRef. rewrite Htrim.
  assert (Hne : is_empty (p +:+ String "/" m +:+ trimEnd t) = false).
  { destruct p; [contradiction | reflexivity]. }
  rewrite Hne.
  assert (Hinc : includes (p +:+ String "/" m +:+ trimEnd t) "/" = true).
  { change (String "/" m +:+ trimEnd t) with ("/" +:+ (m +:+ trimEnd t)).
    apply includes_app. }
  rewrite Hinc.
  change (String "/" m +:+ trimEnd t) with (String "/" (m +:+ trimEnd t)).
  rewrite split_on_app by exact Hfp.
  assert (Hsplit : exists l, split_on "/" (m +:+ trimEnd t) = m :: l).
  { destruct Ht as [->|[rest ->]].
    - simpl trimEnd. rewrite app_nil_r, split_on_free by exact Hfm. eauto.
    - rewrite trimEnd_cons_filled by reflexivity.
      rewrite split_on_app by exact Hfm. eauto. }
  destruct Hsplit as [l ->].
  assert (is_empty p = false) as -> by (destruct p; [contradiction|reflexivity]).
  assert (is_empty m = false) as -> by (destruct m; [contradiction|reflexivity]).
  simpl. now rewrite Htp, Htm.
Qed.

(** X1. [parseModelRef] reads back what [modelKey] wrote, for a provider and a
    model that are trimmed, non-empty and free of slashes; and whatever
    follows a second slash of a reference is dropped. *)
Theorem parseModelRef_reads_modelKey (p m d : string) :
  p <> "" -> m <> "" -> trim p = p -> trim m = m ->
  free_of "/" p = true -> free_of "/" m = true ->
  parseModelRef (modelKey p m) d = Some {| provider := p; model := m |}
  /\ forall rest,
       parseModelRef (modelKey p m +:+ "/" +:+ rest) d
       = Some {| provider := p; model := m |}.
Proof.
  intros Hp Hm Htp Htm Hfp Hfm.
  destruct (trim_fixed_head p Hp Htp) as (c & p' & Ep & Hc).
  assert (Hstart : forall x, trimStart (p +:+ x) = p +:+ x).
  { intros x. rewrite Ep, app_cons. now apply trimStart_filled. }
  split.
  - unfold modelKey.
    rewrite <- (app_nil_r m) at 1.
    change ("/" +:+ m +:+ "") with (String "/" m +:+ "").
    apply parse_of_key_then; auto.
    unfold trim. rewrite Hstart.
    change (String "/" m +:+ "") with (String "/" (m +:+ "")).
    rewrite trimEnd_app_filled by reflexivity.
    rewrite app_nil_r. simpl trimEnd at 2.
    now rewrite (trim_fixed_end m Hm Htm), app_nil_r.
  - intros rest. unfold modelKey. rewrite !app_assoc.
    change ("/" +:+ m +:+ "/" +:+ rest) with (String "/" m +:+ String "/" rest).
    apply parse_of_key_then; eauto.
    unfold trim. rewrite Hstart.
    rewrite (trimEnd_cons_filled "/" rest) by reflexivity.
    rewrite <- !app_assoc. now apply trimEnd_app_filled.
Qed.

Lemma parseModelRef_reads_modelKey_witness :
  parseModelRef "openrouter/anthropic/claude-3" "anthropic"
  = Some {| provider := "openrouter"; model := "anthropic" |}.
Proof.
  refine (proj2 (parseModelRef_reads_modelKey "openrouter" "anthropic"
                   "anthropic" _ _ _ _ _ _) "claude-3");
    try discriminate; reflexivity.
Defined.

End ParseProps.

Section CandidateProps.
Import ModelFallback FallbackChain Scenarios.

Lemma addCandidate_appends allowlist st c enforce :
  exists added, (addCandidate allowlist st c enforce).2 = st.2 ++ added.
Proof.
  destruct st as [seen cands]. unfold addCandidate.
  destruct (is_empty (provider c) || is_empty (model c));
    [exists []; simpl; now rewrite app_nil_r|].
  destruct (decide _); [exists []; simpl; now rewrite app_nil_r|].
  destruct (enforce && _); [exists []; simpl; now rewrite app_nil_r|].
  now exists [c].
Qed.

Lemma addCandidate_ok allowlist st c enforce :
  (enforce = false -> st.2 = []) ->
  chain_ok allowlist st -> chain_ok allowlist (addCandidate allowlist st c enforce).
Proof.
  intros Hfirst [Hseen Hdist Hfill Hallow]. destruct st as [seen cands].
  simpl in *. unfold addCandidate.
  destruct (is_empty (provider c) || is_empty (model c)) eqn:Hemp;
    [now constructor|].
  apply orb_false_iff in Hemp as [Hp Hm].
  destruct (decide (modelKey (provider c) (model c) ∈ seen)) as [Hin|Hnin];
    [now constructor|].
  destruct (enforce && from_option _ false allowlist) eqn:Hen;
    [now constructor|].
  constructor; simpl.
  - intros k. rewrite fmap_app, elem_of_app, elem_of_union, elem_of_singleton.
    simpl. rewrite list_elem_of_singleton, Hseen. unfold candidate_key. tauto.
  - rewrite fmap_app. apply NoDup_app. split; [exact Hdist|]. split.
    + intros k Hk. simpl. rewrite list_elem_of_singleton. intros ->.
      apply Hnin, Hseen, Hk.
    + simpl. apply NoDup_singleton.
  - apply Forall_app. split; [exact Hfill|]. constructor; [|constructor].
    split; intros E; rewrite E in *; discriminate.
  - intros allowed Hal. specialize (Hallow allowed Hal).
    destruct cands as [|c0 cands]; [constructor|]. simpl in *.
    apply Forall_app. split; [exact Hallow|]. constructor; [|constructor].
    destruct enforce; [|now specialize (Hfirst eq_refl)].
    rewrite Hal in Hen. simpl in Hen.
    apply bool_decide_eq_false in Hen.
    unfold candidate_key. destruct (decide (modelKey (provider c) (model c) ∈ allowed)); tauto.
Qed.

Lemma or_default_filled (s fallback : string) :
  fallback <> "" -> or_default s fallback <> "".
Proof.
  intros Hf. unfold or_default. destruct (is_empty (trim s)) eqn:E; [exact Hf|].
  intros H. rewrite H in E. discriminate.
Qed.

(** The state after the primary and after the fallbacks. *)
Lemma resolve_chain (cfg : option ClawdConfig) (provider0 model0 : string) :
  let primary := {| provider := or_default provider0 DEFAULT_PROVIDER;
                    model := or_default model0 DEFAULT_MODEL |} in
  exists seen rest,
    resolveFallbackCandidates cfg provider0 model0 = primary :: rest
    /\ chain_ok (buildAllowedModelKeys cfg DEFAULT_PROVIDER)
         (seen, primary :: rest).
Proof.
  intros primary. unfold resolveFallbackCandidates.
  set (allow := buildAllowedModelKeys cfg DEFAULT_PROVIDER).
  set (idx := buildModelAliasIndex _ _).
  fold primary.
  assert (Hp : provider primary <> "" /\ model primary <> "").
  { split; apply or_default_filled; discriminate. }
  assert (H0 : addCandidate allow (∅, []) primary false
               = ({[ candidate_key primary ]} ∪ ∅, [primary])).
  { unfold addCandidate.
    assert (is_empty (provider primary) || is_empty (model primary) = false)
      as ->.
    { destruct Hp. destruct (provider primary), (model primary); simpl;
        congruence. }
    destruct (decide _) as [Hin|]; [set_solver|]. reflexivity. }
  rewrite H0.
  assert (Hok0 : chain_ok allow ({[ candidate_key primary ]} ∪ ∅, [primary])).
  { rewrite <- H0. apply addCandidate_ok; [reflexivity|].
    constructor; simpl; try constructor; set_solver. }
  generalize dependent ({[ candidate_key primary ]} ∪ (∅ : gset string)).
  intros seen0 _ Hok0.
  assert (Hgen : forall raws seen rest,
             chain_ok allow (seen, primary :: rest) ->
             exists seen' rest',
               fold_left
                 (fun st raw =>
                    match resolveModelRef raw DEFAULT_PROVIDER idx with
                    | Some (ref, _) => addCandidate allow st ref true
                    | None => st
                    end) raws (seen, primary :: rest)
               = (seen', primary :: rest')
               /\ chain_ok allow (seen', primary :: rest')).
  { induction raws as [|raw raws IH]; intros seen rest Hok; [simpl; eauto|].
    cbn [fold_left].
    destruct (resolveModelRef raw DEFAULT_PROVIDER idx) as [[ref b]|];
      [|now apply IH].
    destruct (addCandidate_appends allow (seen, primary :: rest) ref true)
      as [added Hadd].
    pose proof (addCandidate_ok allow (seen, primary :: rest) ref true
                  ltac:(discriminate) Hok) as Hok'.
    destruct (addCandidate allow (seen, primary :: rest) ref true)
      as [seen1 cands1]. simpl in Hadd. subst cands1.
    change ((primary :: rest) ++ added) with (primary :: (rest ++ added)) in *.
    now apply (IH seen1 (rest ++ added)). }
  destruct (Hgen (cfg_fallbacks cfg) seen0 [] Hok0) as (seen' & rest' & E & Hok).
  rewrite E. simpl. eauto.
Qed.

(** X2. The fallback chain is never empty: it starts with the primary,
    whatever the allow-list says, and every candidate has a provider and
    a model. *)
Theorem fallback_chain_starts_with_primary (cfg : option ClawdConfig)
    (provider0 model0 : string) :
  exists rest,
    resolveFallbackCandidates cfg provider0 model0
    = {| provider := or_default provider0 DEFAULT_PROVIDER;
         model := or_default model0 DEFAULT_MODEL |} :: rest
    /\ Forall (fun c => provider c <> "" /\ model c <> "")
         (resolveFallbackCandidates cfg provider0 model0).
Proof.
  destruct (resolve_chain cfg provider0 model0) as (seen & rest & E & Hok).
  exists rest. split; [exact E|]. rewrite E. apply (ok_filled _ _ Hok).
Qed.

(** X3. No two candidates of the fallback chain have the same
    [provider/model] key, so no model is tried twice. *)
Theorem fallback_chain_has_distinct_keys (cfg : option ClawdConfig)
    (provider0 model0 : string) :
  NoDup ((fun c => modelKey (provider c) (model c))
           <$> resolveFallbackCandidates cfg provider0 model0).
Proof.
  destruct (resolve_chain cfg provider0 model0) as (seen & rest & E & Hok).
  rewrite E. apply (ok_distinct _ _ Hok).
Qed.

(** X4. When [agent.models] gives an allow-list, every candidate after
    the primary is on it; the primary itself is exempt. *)
Theorem fallback_chain_respects_allowlist (cfg : option ClawdConfig)
    (provider0 model0 : string) (allowed : gset string) :
  buildAllowedModelKeys cfg DEFAULT_PROVIDER = Some allowed ->
  Forall (fun c => modelKey (provider c) (model c) ∈ allowed)
    (tail (resolveFallbackCandidates cfg provider0 model0)).
Proof.
  intros Hal.
  destruct (resolve_chain cfg provider0 model0) as (seen & rest & E & Hok).
  rewrite E. apply (ok_allowed _ _ Hok allowed Hal).
Qed.

Lemma fallback_chain_respects_allowlist_witness :
  Forall (fun c => modelKey (provider c) (model c)
                   ∈ ({[ "anthropic/claude-y" ]} : gset string))
    (tail (resolveFallbackCandidates (Some allowlisted_cfg) "openai" "gpt-x"))
  /\ resolveFallbackCandidates (Some allowlisted_cfg) "openai" "gpt-x"
     = [ {| provider := "openai"; model := "gpt-x" |};
         {| provider := "anthropic"; model := "claude-y" |} ].
Proof.
  split; [|vm_compute; reflexivity].
  apply fallback_chain_respects_allowlist. vm_compute. reflexivity.
Defined.

Lemma parseModelRef_trimmed (raw d : string) (c : ModelCandidate) :
  d <> "" -> trim d = d ->
  parseModelRef raw d = Some c ->
  provider c <> "" /\ trim (provider c) = provider c
  /\ trim (model c) = model c.
Proof.
  intros Hd Htd. unfold parseModelRef.
  destruct (is_empty (trim raw)) eqn:He; [discriminate|].
  assert (Hplain : Some {| provider := d; model := trim raw |} = Some c ->
                   provider c <> "" /\ trim (provider c) = provider c
                   /\ trim (model c) = model c).
  { intros [= <-]. cbn. split; [exact Hd|]. split; [exact Htd|].
    apply SplitFacts.trim_idem. }
  destruct (includes (trim raw) "/"); [|exact Hplain].
  destruct (split_on "/" (trim raw)) as [|p [|m l]] eqn:Hs;
    [exact Hplain | exact Hplain |].
  destruct (negb (is_empty p) && negb (is_empty m)) eqn:Hpm; [|exact Hplain].
  intros [= <-]. cbn.
  split; [|split; apply SplitFacts.trim_idem].
  destruct (SplitFacts.trim_head raw) as [E|(a & r & E & Ha)];
    [rewrite E in He; discriminate|].
  rewrite E in Hs. cbn [split_on] in Hs.
  destruct (Ascii.eqb a "/").
  - injection Hs as <- _. discriminate.
  - destruct (split_on "/" r) as [|p' ps]; injection Hs as <- _; unfold trim;
      rewrite SplitFacts.trimStart_filled, SplitFacts.trimEnd_cons_filled
        by exact Ha; discriminate.
Qed.

Lemma resolvePrimaryModel_trimmed (cfg : option ClawdConfig) :
  let p := resolvePrimaryModel cfg in
  provider p <> "" /\ trim (provider p) = provider p
  /\ trim (model p) = model p.
Proof.
  cbv zeta. unfold resolvePrimaryModel.
  assert (Hdef : provider {| provider := DEFAULT_PROVIDER;
                             model := DEFAULT_MODEL |} <> ""
                 /\ trim DEFAULT_PROVIDER = DEFAULT_PROVIDER
                 /\ trim DEFAULT_MODEL = DEFAULT_MODEL)
    by (repeat split; [discriminate | vm_compute; reflexivity ..]).
  destruct ((cfg ≫= agent) ≫= agent_model) as [[ref|p0 [m0|] f]|];
    try exact Hdef.
  - destruct (parseModelRef ref DEFAULT_PROVIDER) as [c|] eqn:E;
      [|exact Hdef].
    apply (parseModelRef_trimmed ref DEFAULT_PROVIDER); [discriminate | | exact E].
    vm_compute; reflexivity.
  - destruct (is_empty m0); [exact Hdef|]. cbn.
    split; [|split; [|apply SplitFacts.trim_idem]].
    + destruct (is_empty (trim (default "" p0))) eqn:E; [discriminate|].
      intros H. rewrite H in E. discriminate.
    + destruct (is_empty (trim (default "" p0)));
        [vm_compute; reflexivity | apply SplitFacts.trim_idem].
Qed.

(** X5. The primary model read from the configuration always names a
    provider, and the fallback chain built for it starts with it; only when
    the configured model name is blank after trimming does the chain start
    with the default model instead. *)
Theorem primary_model_heads_its_chain (cfg cfg' : option ClawdConfig) :
  let p := resolvePrimaryModel cfg in
  provider p <> ""
  /\ exists rest,
       resolveFallbackCandidates cfg' (provider p) (model p)
       = {| provider := provider p;
            model := if is_empty (model p) then DEFAULT_MODEL else model p |}
         :: rest.
Proof.
  cbv zeta.
  destruct (resolvePrimaryModel_trimmed cfg) as (Hp & Htp & Htm).
  split; [exact Hp|].
  destruct (resolve_chain cfg' (provider (resolvePrimaryModel cfg))
              (model (resolvePrimaryModel cfg))) as (seen & rest & E & _).
  exists rest. rewrite E. unfold or_default. rewrite Htp, Htm.
  now destruct (provider (resolvePrimaryModel cfg)).
Qed.

Section RunInvariant.
Context {W T : Type}.
Variable run : string -> string -> @Eff W T.
Variable onError : option (ErrorInfo -> @Eff W unit).

Lemma try_from_returned (total : nat) (rest : list ModelCandidate) :
  forall i acc last w w' r,
    try_from run onError total rest i acc last w = (w', Returned r) ->
    exists pre c post atts,
      rest = pre ++ c :: post
      /\ result_provider r = provider c /\ result_model r = model c
      /\ attempts r = acc ++ atts
      /\ attempt_names <$> atts = candidate_names <$> pre.
Proof.
  induction rest as [|c rest IH]; intros i acc last w w' r; [discriminate|].
  cbn [try_from].
  destruct (run (provider c) (model c) w) as [w1 [res|err]].
  - intros [= <- <-]. exists [], c, rest, []. simpl.
    now rewrite app_nil_r.
  - destruct (isAbortError err); [discriminate|].
    destruct (notify _ _ w1) as [w2 [u|err']]; [|discriminate].
    intros H. apply IH in H as (pre & c' & post & atts & -> & Hp & Hm & Ha & Hn).
    exists (c :: pre), c', post,
      ({| attempt_provider := provider c; attempt_model := model c;
          attempt_error := error_text err |} :: atts).
    repeat split; auto.
    + rewrite Ha, <- app_assoc. reflexivity.
    + now rewrite !fmap_cons, Hn.
Qed.

(** X6. Whenever the runner returns, the result is tagged with one of the
    candidates, and the attempts are the candidates before it, in order. *)
Theorem fallback_result_follows_its_attempts (cfg : option ClawdConfig)
    (provider0 model0 : string) (w w' : W) (r : FallbackResult) :
  runWithModelFallback run onError cfg provider0 model0 w = (w', Ret r) ->
  exists pre c post,
    resolveFallbackCandidates cfg provider0 model0 = pre ++ c :: post
    /\ result_provider r = provider c /\ result_model r = model c
    /\ attempt_names <$> attempts r = candidate_names <$> pre.
Proof.
  unfold runWithModelFallback.
  destruct (try_from _ _ _ _ _ _ _ w) as [w1 [r1|e|atts last]] eqn:E.
  - intros [= <- <-].
    apply try_from_returned in E as (pre & c & post & atts & Hc & Hp & Hm & Ha & Hn).
    exists pre, c, post. rewrite Ha. auto.
  - discriminate.
  - destruct last as [e|]; [destruct (_ && _)|]; discriminate.
Qed.

End RunInvariant.

Lemma fallback_result_follows_its_attempts_witness :
  exists pre c post,
    resolveFallbackCandidates (Some example_cfg) "openai" "gpt-x"
    = pre ++ c :: post
    /\ provider c = "anthropic" /\ model c = "claude-y"
    /\ candidate_names <$> pre = [("openai", "gpt-x")].
Proof.
  destruct (fallback_result_follows_its_attempts openai_down None
              (Some example_cfg) "openai" "gpt-x" 0%nat 2%nat
              {| result := "reply of claude-y";
                 result_provider := "anthropic";
                 result_model := "claude-y";
                 attempts := [ {| attempt_provider := "openai";
                                  attempt_model := "gpt-x";
                                  attempt_error := "429 rate limited" |} ] |}
              ltac:(vm_compute; reflexivity))
    as (pre & c & post & Hc & Hp & Hm & Hn).
  exists pre, c, post. simpl in *. auto.
Defined.

End CandidateProps.

(** ** More on schedules and on job normalization *)

Section ScheduleWindowProps.
Import Schedule.
Local Open Scope Z_scope.

(** X7. Once its anchor has passed, an every-schedule is due within one
    period: the next run is never before [now] and at most one period
    after it, a whole period only at the anchor itself.  The next run can
    be [now]: asked again at the instant it returned, the function returns
    that same instant.  Without an anchor the next run, asked for at such
    a time, is a whole period after the time of asking. *)
Theorem every_schedule_is_due_within_a_period (croner : Croner)
    (everyMs0 anchorMs now : Z) :
  Z.max 0 anchorMs <= now ->
  let everyMs := Z.max 1 everyMs0 in
  let schedule := Every everyMs0 (Some anchorMs) in
  exists next,
    computeNextRunAtMs croner schedule now = Ret (Some next)
    /\ now <= next <= now + everyMs
    /\ (Z.max 0 anchorMs < now -> next < now + everyMs)
    /\ computeNextRunAtMs croner schedule next = Ret (Some next)
    /\ computeNextRunAtMs croner (Every everyMs0 None) now
       = Ret (Some (now + everyMs)).
Proof.
  intros Hnow everyMs schedule. subst schedule. cbn [computeNextRunAtMs].
  fold everyMs. cbn [default]. unfold id.
  set (anchor := Z.max 0 anchorMs) in *.
  assert (He : 1 <= everyMs) by (subst everyMs; lia).
  assert (Hlt : (now <? anchor) = false) by (apply Z.ltb_ge; lia).
  rewrite Hlt.
  set (steps := Z.max 1 ((now - anchor + everyMs - 1) / everyMs)).
  destruct (ceil_steps everyMs (now - anchor)) as (H1 & H2 & _);
    [lia | lia |]. fold steps in H1, H2.
  assert (Hup : now - anchor + everyMs - 1
                < everyMs * ((now - anchor + everyMs - 1) / everyMs)
                  + everyMs).
  { pose proof (Z.mul_succ_div_gt (now - anchor + everyMs - 1) everyMs) as H.
    lia. }
  assert (Hlow : everyMs * ((now - anchor + everyMs - 1) / everyMs)
                 <= now - anchor + everyMs - 1)
    by (apply Z.mul_div_le; lia).
  exists (anchor + steps * everyMs).
  split; [reflexivity|]. split; [|split; [|split]].
  - split; [lia|]. subst steps.
    destruct (Z.max_spec 1 ((now - anchor + everyMs - 1) / everyMs))
      as [[Hs ->]|[_ ->]]; lia.
  - intros Hpast. subst steps.
    destruct (Z.max_spec 1 ((now - anchor + everyMs - 1) / everyMs))
      as [[Hs ->]|[_ ->]]; lia.
  - assert (Hlt2 : (anchor + steps * everyMs <? anchor) = false)
      by (apply Z.ltb_ge; nia).
    rewrite Hlt2. do 2 f_equal. f_equal.
    replace (anchor + steps * everyMs - anchor + everyMs - 1)
      with (steps * everyMs + (everyMs - 1)) by lia.
    rewrite Z.div_add_l by lia. rewrite (Z.div_small (everyMs - 1)) by lia.
    lia.
  - assert (Hn : 0 <= now) by lia.
    rewrite (Z.max_r 0 now) by lia. rewrite Z.ltb_irrefl.
    replace (now - now + everyMs - 1) with (everyMs - 1) by lia.
    rewrite (Z.div_small (everyMs - 1)) by lia.
    change (Z.max 1 0) with 1. do 2 f_equal. lia.
Qed.

Lemma every_schedule_is_due_within_a_period_witness :
  exists next,
    computeNextRunAtMs (fun _ _ _ => Ret None) (Every 60000 (Some 1000000))
      1059000 = Ret (Some next)
    /\ 1059000 <= next <= 1059000 + 60000.
Proof.
  destruct (every_schedule_is_due_within_a_period (fun _ _ _ => Ret None)
              60000 1000000 1059000 ltac:(vm_compute; discriminate))
    as (next & H1 & H2 & _).
  exists next. split; [exact H1 | exact H2].
Defined.

End ScheduleWindowProps.

Section NormalizeFieldProps.
Import Normalize.

Lemma coerce_adds_kind_only (add : UnknownRecord -> UnknownRecord)
    (rec : UnknownRecord) :
  (add rec = rec \/ exists k, add rec = <["kind" := JStr k]> rec
                              /\ lacks_kind rec = true) ->
  forall key, key <> "kind" -> add rec !! key = rec !! key.
Proof.
  intros [->|(k & -> & _)] key Hk; [reflexivity|].
  now rewrite lookup_insert_ne.
Qed.

Lemma coerceSchedule_shape (s : UnknownRecord) :
  coerceSchedule s = s
  \/ exists k, coerceSchedule s = <["kind" := JStr k]> s
               /\ lacks_kind s = true.
Proof.
  unfold coerceSchedule. destruct (lacks_kind s); [|now left].
  repeat (match goal with |- context [if ?b then _ else _] => destruct b end);
    eauto.
Qed.

Lemma coercePayload_shape (s : UnknownRecord) :
  coercePayload s = s
  \/ exists k, coercePayload s = <["kind" := JStr k]> s
               /\ lacks_kind s = true.
Proof.
  unfold coercePayload. destruct (lacks_kind s); [|now left].
  repeat (match goal with |- context [if ?b then _ else _] => destruct b end);
    eauto.
Qed.

Lemma dom_insert_present (m : UnknownRecord) (k : string) (v v' : JsVal) :
  m !! k = Some v -> dom (<[k := v']> m) = dom m.
Proof.
  intros H. apply dom_insert_lookup_L. now rewrite H.
Qed.

Lemma coerce_fields_dom (base : UnknownRecord) :
  dom (coerce_fields base) = dom base.
Proof.
  unfold coerce_fields, get.
  destruct (base !! "schedule") as [[]|] eqn:Es;
    destruct (base !! "payload") as [[]|] eqn:Ep; cbn; try reflexivity;
    repeat (erewrite dom_insert_present;
            [|rewrite ?lookup_insert_ne by discriminate; eassumption]);
    reflexivity.
Qed.

Lemma coerce_fields_lookup_schedule (base : UnknownRecord) :
  coerce_fields base !! "schedule"
  = match base !! "schedule" with
    | Some (JObj schedule) => Some (JObj (coerceSchedule schedule))
    | other => other
    end.
Proof.
  unfold coerce_fields, get.
  destruct (base !! "payload") as [[]|];
    destruct (base !! "schedule") as [[]|] eqn:E; cbn;
    rewrite ?lookup_insert_ne by discriminate;
    rewrite ?lookup_insert_eq; auto.
Qed.

Lemma coerce_fields_lookup_payload (base : UnknownRecord) :
  coerce_fields base !! "payload"
  = match base !! "payload" with
    | Some (JObj payload) => Some (JObj (coercePayload payload))
    | other => other
    end.
Proof.
  unfold coerce_fields, get.
  destruct (base !! "schedule") as [[]|];
    destruct (base !! "payload") as [[]|] eqn:E; cbn;
    rewrite ?lookup_insert_eq; rewrite ?lookup_insert_ne by discriminate;
    auto.
Qed.

(** X8. Normalizing a patch adds no property to the job and drops none: the
    result has the properties of the unwrapped input, all with their
    values, except that a [schedule] or [payload] object that has no usable
    [kind] may be given one; an object that has a [kind] is left alone. *)
Theorem patch_normalization_only_infers_kinds (o : UnknownRecord) :
  let base := unwrapJob o in
  exists r,
    normalizeCronJobPatch (JObj o) None = JObj r
    /\ dom r = dom base
    /\ (forall key, key <> "schedule" -> key <> "payload" ->
          r !! key = base !! key)
    /\ (forall field v,
          field = "schedule" \/ field = "payload" ->
          base !! field = Some v ->
          match v with
          | JObj rec =>
              exists rec', r !! field = Some (JObj rec')
                /\ (forall key, key <> "kind" -> rec' !! key = rec !! key)
                /\ (lacks_kind rec = false -> rec' = rec)
          | _ => r !! field = Some v
          end).
Proof.
  intros base. exists (coerce_fields base).
  split; [reflexivity|]. split; [apply coerce_fields_dom|]. split.
  - intros key H1 H2. unfold coerce_fields.
    destruct (get base "payload"); destruct (get base "schedule");
      now rewrite ?lookup_insert_ne by congruence.
  - intros field v Hf Hv.
    destruct Hf as [-> | ->];
      [rewrite coerce_fields_lookup_schedule
      |rewrite coerce_fields_lookup_payload];
      rewrite Hv; destruct v as [| |b|n|s|items|rec]; try reflexivity;
      eexists; (split; [reflexivity|]); split.
    + apply coerce_adds_kind_only, coerceSchedule_shape.
    + intros Hk. unfold coerceSchedule. now rewrite Hk.
    + apply coerce_adds_kind_only, coercePayload_shape.
    + intros Hk. unfold coercePayload. now rewrite Hk.
Qed.

(** X9. A created job always gets a wake mode, and a session target that
    follows the payload kind inferred in the same call: a payload with a
    [text] and no kind makes the job target the main session, one with
    only a [message] an isolated session.  A wake mode or session target
    that was given is kept. *)
Theorem create_defaults_follow_inferred_payload_kind (o : UnknownRecord) :
  let base := unwrapJob o in
  exists r,
    normalizeCronJobCreate (JObj o) None = JObj r
    /\ truthy (get r "wakeMode") = true
    /\ (truthy (get base "wakeMode") = true ->
        get r "wakeMode" = get base "wakeMode")
    /\ (truthy (get base "sessionTarget") = true ->
        get r "sessionTarget" = get base "sessionTarget")
    /\ (forall p,
          get base "payload" = JObj p -> lacks_kind p = true ->
          truthy (get base "sessionTarget") = false ->
          (isString (get p "text") = true ->
           get r "sessionTarget" = JStr "main")
          /\ (isString (get p "text") = false ->
              isString (get p "message") = true ->
              get r "sessionTarget" = JStr "isolated")).
Proof.
  intros base. exists (apply_defaults (coerce_fields base)).
  split; [reflexivity|].
  set (next := coerce_fields base).
  assert (Hw : get next "wakeMode" = get base "wakeMode")
    by (apply coerce_fields_get; discriminate).
  assert (Ht : get next "sessionTarget" = get base "sessionTarget")
    by (apply coerce_fields_get; discriminate).
  set (next1 := if negb (truthy (get next "wakeMode"))
                then <["wakeMode" := JStr "next-heartbeat"]> next else next).
  assert (Ht1 : get next1 "sessionTarget" = get base "sessionTarget").
  { subst next1. destruct (negb _); [|exact Ht].
    now rewrite get_insert_ne by discriminate. }
  assert (Hp1 : get next1 "payload" = get next "payload").
  { subst next1. destruct (negb _); [|reflexivity].
    now rewrite get_insert_ne by discriminate. }
  assert (Hw1 : truthy (get next1 "wakeMode") = true
                /\ (truthy (get base "wakeMode") = true ->
                    get next1 "wakeMode" = get base "wakeMode")).
  { subst next1. rewrite <- Hw.
    destruct (truthy (get next "wakeMode")) eqn:E; cbn; [now split|].
    rewrite get_insert_eq. split; [reflexivity | discriminate]. }
  assert (Hwk : get (apply_defaults next) "wakeMode"
                = get next1 "wakeMode").
  { unfold apply_defaults. fold next1.
    repeat (match goal with
            | |- context [if ?b then _ else _] => destruct b
            end); now rewrite ?get_insert_ne by discriminate. }
  rewrite Hwk.
  split; [apply Hw1|]. split; [apply Hw1|]. split.
  - intros Hgiven. unfold apply_defaults. fold next1.
    rewrite Ht1, Hgiven. exact Ht1.
  - intros p Hp Hk Hnone. unfold apply_defaults. fold next1.
    rewrite Ht1, Hnone, Hp1. cbn [negb andb].
    assert (Hnp : get next "payload" = JObj (coercePayload p)).
    { subst next. unfold coerce_fields. rewrite Hp.
      now rewrite get_insert_eq. }
    rewrite Hnp. cbn [isRecord]. unfold coercePayload. rewrite Hk.
    split.
    + intros Htext. rewrite Htext, get_insert_eq. cbn.
      now rewrite get_insert_eq.
    + intros Htext Hmsg. rewrite Htext, Hmsg, get_insert_eq. cbn.
      now rewrite get_insert_eq.
Qed.

End NormalizeFieldProps.

(** ** Session keys and entries *)

Section SessionProps.
Import Sessions.

Abbreviation chars := list_ascii_of_string.

Lemma dash_invalid_runs_chars (b : bool) (s : string) :
  forallb is_id_char (chars (dash_invalid_runs b s)) = true.
Proof.
  revert b; induction s as [|c s IH]; intros b; [reflexivity|].
  cbn [dash_invalid_runs].
  destruct (is_id_char c) eqn:Hc.
  - cbn. now rewrite Hc, IH.
  - destruct b; [apply IH|]. cbn. now rewrite IH.
Qed.

Lemma strip_leading_dashes_chars (P : ascii -> bool) (s : string) :
  forallb P (chars s) = true ->
  forallb P (chars (strip_leading_dashes s)) = true.
Proof.
  induction s as [|c s IH]; [easy|].
  cbn [strip_leading_dashes]. destruct (Ascii.eqb c "-"); [|easy].
  cbn. intros [_ H]%andb_true_iff. now apply IH.
Qed.

Lemma strip_trailing_dashes_chars (P : ascii -> bool) (s : string) :
  forallb P (chars s) = true ->
  forallb P (chars (strip_trailing_dashes s)) = true.
Proof.
  induction s as [|c s IH]; [easy|].
  cbn. intros [Hc H]%andb_true_iff. specialize (IH H).
  destruct (strip_trailing_dashes s) as [|d r].
  - destruct (Ascii.eqb c "-"); cbn; [easy|]. now rewrite Hc.
  - cbn in *. now rewrite Hc, IH.
Qed.

Lemma take_chars (P : ascii -> bool) (n : nat) (s : string) :
  forallb P (chars s) = true -> forallb P (chars (take n s)) = true.
Proof.
  revert s; induction n as [|n IH]; intros [|c s]; try easy.
  cbn. intros [Hc H]%andb_true_iff. now rewrite Hc, IH.
Qed.

Lemma take_length_le (n : nat) (s : string) :
  (String.length (take n s) <= n)%nat.
Proof.
  revert s; induction n as [|n IH]; intros [|c s]; cbn; try lia.
  specialize (IH s). lia.
Qed.

Lemma strip_leading_dashes_head (s : string) :
  startsWith (strip_leading_dashes s) "-" = false.
Proof.
  induction s as [|c s IH]; [reflexivity|].
  cbn [strip_leading_dashes]. destruct (Ascii.eqb c "-") eqn:Hc; [exact IH|].
  cbn. now rewrite Hc.
Qed.

Lemma default_agent_id_safe :
  DEFAULT_AGENT_ID <> ""
  /\ (String.length DEFAULT_AGENT_ID <= 64)%nat
  /\ forallb is_id_char_i (chars DEFAULT_AGENT_ID) = true
  /\ startsWith DEFAULT_AGENT_ID "-" = false.
Proof. repeat split; [discriminate | cbn; lia]. Qed.

Lemma id_char_weaken (l : list ascii) :
  forallb is_id_char l = true -> forallb is_id_char_i l = true.
Proof.
  induction l as [|c l IH]; [easy|]. cbn.
  intros [Hc H]%andb_true_iff. unfold is_id_char_i at 1.
  now rewrite Hc, IH.
Qed.

(** X10. Whatever text is given, an agent id comes out non-empty, at most 64
    code units long and made only of ASCII letters, digits, [_] and [-];
    so it can be used as a directory name. *)
Theorem normalizeAgentId_is_a_safe_name (value : option string) :
  let id := normalizeAgentId value in
  id <> ""
  /\ (String.length id <= 64)%nat
  /\ forallb is_id_char_i (chars id) = true
  /\ startsWith id "-" = false.
Proof.
  cbv zeta. unfold normalizeAgentId.
  set (t := trim (default "" value)).
  destruct (is_empty t) eqn:Ht; [exact default_agent_id_safe|].
  destruct (valid_agent_id t) eqn:Hv.
  - destruct t as [|c r]; [discriminate|].
    cbn in Hv. apply andb_true_iff in Hv as [Hv Hr].
    apply andb_true_iff in Hv as [Hc Hl]. apply Nat.leb_le in Hl.
    split; [easy|]. split; [cbn; lia|]. split.
    + cbn. rewrite Hr, andb_true_r. unfold is_id_char_i, is_id_char.
      destruct (is_lower_alnum c); [reflexivity|]. cbn in Hc. rewrite Hc.
      now rewrite orb_true_r.
    + cbn. destruct (Ascii.eqb c "-") eqn:E; [|reflexivity].
      apply Ascii.eqb_eq in E. subst c. discriminate.
  - set (d := strip_leading_dashes _).
    destruct (is_empty (take 64 (strip_trailing_dashes d))) eqn:He;
      [exact default_agent_id_safe|].
    split; [now destruct (take 64 (strip_trailing_dashes d))|].
    split; [apply take_length_le|]. split.
    + apply id_char_weaken, take_chars, strip_trailing_dashes_chars.
      apply strip_leading_dashes_chars, dash_invalid_runs_chars.
    + pose proof (strip_leading_dashes_head
                    (dash_invalid_runs false (toLowerCase t))) as Hd.
      fold d in Hd. clearbody d. clear -Hd.
      destruct d as [|c r]; [reflexivity|].
      assert (Hn : forall s, startsWith s "" = true) by now intros [|].
      cbn in Hd. rewrite Hn, andb_true_r in Hd.
      cbn [strip_trailing_dashes].
      destruct (strip_trailing_dashes r);
        [rewrite Hd|]; cbn; now rewrite ?Hn, ?andb_true_r, Hd.
Qed.

(** X11. Asking twice for the same session gives the same entry and leaves
    the store as the first call left it; the first call changes no other
    key and keeps an entry that was already there. *)
Theorem getOrCreateSession_is_stable (store : SessionStore)
    (key uuid1 uuid2 : string) (t1 t2 : Z) :
  let '(e1, s1) := getOrCreateSession store key uuid1 t1 in
  getOrCreateSession s1 key uuid2 t2 = (e1, s1)
  /\ s1 !! key = Some e1
  /\ (forall e, store !! key = Some e -> e1 = e /\ s1 = store)
  /\ (forall k, k <> key -> s1 !! k = store !! k).
Proof.
  unfold getOrCreateSession.
  destruct (store !! key) as [e|] eqn:Hk.
  - rewrite Hk. split; [reflexivity|]. split; [reflexivity|].
    split; [|reflexivity]. now intros e' [= <-].
  - rewrite lookup_insert_eq. split; [reflexivity|].
    split; [reflexivity|]. split; [discriminate|].
    intros k Hne. now apply lookup_insert_ne.
Qed.

(** X12. Two usage updates of a session add up: the counters after both are
    the counters before plus both usages, the session id is the one of the
    first update, and the model is the latest one that was given. *)
Theorem updateSessionUsage_accumulates (store : SessionStore) (key : string)
    (u1 u2 : option Usage) (m1 p1 m2 p2 : option string)
    (t1 t2 : Z) (id1 id2 : string) :
  let '(n1, s1) := updateSessionUsage store key u1 m1 p1 t1 id1 in
  let '(n2, s2) := updateSessionUsage s1 key u2 m2 p2 t2 id2 in
  let before := store !! key in
  s2 !! key = Some n2
  /\ sessionId n2 = sessionId n1
  /\ sessionId n1 = default id1 (sessionId <$> before)
  /\ inputTokens n2
     = Some (default 0 (before ≫= inputTokens)
             + default 0 (u1 ≫= input) + default 0 (u2 ≫= input))
  /\ outputTokens n2
     = Some (default 0 (before ≫= outputTokens)
             + default 0 (u1 ≫= output) + default 0 (u2 ≫= output))
  /\ totalTokens n2
     = Some (default 0 (before ≫= totalTokens)
             + default 0 (u1 ≫= total) + default 0 (u2 ≫= total))
  /\ model n2
     = match m2, m1 with
       | Some m, _ => Some m
       | None, Some m => Some m
       | None, None => before ≫= model
       end
  /\ (forall k, k <> key -> s2 !! k = store !! k).
Proof.
  unfold updateSessionUsage. cbv zeta.
  rewrite !lookup_insert_eq. cbn.
  repeat split; try reflexivity.
  intros k Hne. now rewrite !lookup_insert_ne.
Qed.

(** X13. What [updateSessionUsage] records during a run does not survive the
    run: the store written last is the one loaded before the agent ran,
    with only the session's time stamp renewed, so the model recorded by
    the update is on disk after the first save and gone after the
    second. *)
Theorem run_bookkeeping_drops_the_usage_update (disk : SessionStore)
    (key uuid1 uuid2 modelName : string) (provider0 : option string)
    (t1 t2 t3 : Z) :
  let '(after_usage, final) :=
    run_bookkeeping disk key uuid1 t1 (Some modelName) provider0
      t2 uuid2 t3 in
  (after_usage !! key ≫= model) = Some modelName
  /\ (final !! key ≫= model) = (disk !! key ≫= model)
  /\ (final !! key ≫= inputTokens) = (disk !! key ≫= inputTokens)
  /\ (updatedAt <$> final !! key) = Some t3
  /\ (sessionId <$> final !! key)
     = Some (default uuid1 (sessionId <$> disk !! key))
  /\ (forall k, k <> key -> final !! k = disk !! k).
Proof.
  unfold run_bookkeeping, getOrCreateSession, updateSessionUsage.
  destruct (disk !! key) as [e|] eqn:Hk; cbn;
    rewrite !lookup_insert_eq; cbn; repeat split; try reflexivity;
    intros k Hne; now rewrite ?lookup_insert_ne.
Qed.

End SessionProps.

(** ** Session keys *)

Section SessionKeyProps.
Import Sessions.

Lemma normalizeAgentId_main : normalizeAgentId (Some DEFAULT_AGENT_ID) = "main".
Proof. vm_compute. reflexivity. Qed.

Lemma effective_main_key_fixed (k : string) :
  let key := if is_empty (trim k) then DEFAULT_MAIN_KEY else trim k in
  (if is_empty (trim key) then DEFAULT_MAIN_KEY else trim key) = key.
Proof.
  cbv zeta. destruct (is_empty (trim k)) eqn:E; [reflexivity|].
  now rewrite SplitFacts.trim_idem, E.
Qed.

Lemma resolveMainSessionKey_shape (session : option SessionSettings) :
  resolveMainSessionKey session
  = if bool_decide ((session ≫= scope) = Some "global") then "global"
    else "agent:main:"
         +:+ (let t := trim (default DEFAULT_MAIN_KEY (session ≫= mainKey)) in
              if is_empty t then DEFAULT_MAIN_KEY else t).
Proof.
  unfold resolveMainSessionKey. destruct (bool_decide _); [reflexivity|].
  unfold buildAgentMainSessionKey. rewrite !normalizeAgentId_main.
  cbn [default from_option id]. unfold id.
  now rewrite effective_main_key_fixed.
Qed.

(** X14. Two session settings resolve to the same main session key exactly
    when both ask for the global scope, or neither does and their main
    keys are the same once trimmed (a blank or missing main key counting
    as [main]); a per-agent key is never the global key. *)
Theorem main_session_keys_do_not_collide (s1 s2 : option SessionSettings) :
  let global s := bool_decide ((s ≫= scope) = Some "global") in
  let effective s :=
    let t := trim (default DEFAULT_MAIN_KEY (s ≫= mainKey)) in
    if is_empty t then DEFAULT_MAIN_KEY else t in
  resolveMainSessionKey s1 = resolveMainSessionKey s2
  <-> global s1 = global s2
      /\ (global s1 = false -> effective s1 = effective s2).
Proof.
  cbv zeta. rewrite !resolveMainSessionKey_shape.
  destruct (bool_decide ((s1 ≫= scope) = Some "global"));
    destruct (bool_decide ((s2 ≫= scope) = Some "global")); cbv zeta.
  - split; [split; [reflexivity | discriminate] | reflexivity].
  - split; [discriminate | intros [? _]; discriminate].
  - split; [discriminate | intros [? _]; discriminate].
  - split.
    + intros H. split; [reflexivity|]. intros _.
      now injection H.
    + intros [_ H]. now rewrite (H eq_refl).
Qed.

End SessionKeyProps.

(** ** Delivering a heartbeat response twice *)

Section HeartbeatFixedPoint.
Import Heartbeat JsFacts TrimFacts SubstringFacts.

(** X15. Processing a heartbeat response settles at once: the text that
    comes out, processed again with the same limit, comes out unchanged
    and with the same verdict. *)
Theorem heartbeat_processing_is_idempotent (response : string)
    (ackMaxChars : option Z) :
  exists p,
    processHeartbeatResponse response ackMaxChars = Some p
    /\ processHeartbeatResponse (text p) ackMaxChars = Some p.
Proof.
  assert (Hplain : forall t,
             both_trimmed t -> t <> "" ->
             startsWith t HEARTBEAT_TOKEN = false ->
             endsWith t HEARTBEAT_TOKEN = false ->
             processHeartbeatResponse t ackMaxChars
             = Some {| text := t; shouldDeliver := true |}).
  { intros t Ht Hne Hs He. unfold processHeartbeatResponse.
    rewrite (both_trimmed_fixed t Ht).
    assert (is_empty t = false) as -> by now destruct t.
    destruct (includes t HEARTBEAT_TOKEN); cbn [negb]; [|reflexivity].
    destruct (HeartbeatFacts.strip_edges_total t) as (x & E & _ & _ & Hid).
    rewrite Hs, He in E, Hid. cbn [orb] in E, Hid.
    rewrite E. cbn [mbind option_bind negb]. reflexivity. }
  destruct (HeartbeatFacts.strip_edges_total (trim response))
    as (stripped & E & Hs & He & Hid).
  pose proof (strip_edges_trimmed _ _ _ (both_trimmed_trim response) E)
    as Htr.
  unfold processHeartbeatResponse at 1.
  destruct (is_empty (trim response)) eqn:Hemp; [eexists; split; reflexivity|].
  assert (Hne : trim response <> "")
    by (intros H; rewrite H in Hemp; discriminate).
  destruct (includes (trim response) HEARTBEAT_TOKEN) eqn:Hinc; cbn [negb].
  - rewrite E. cbn [mbind option_bind].
    destruct (startsWith (trim response) HEARTBEAT_TOKEN
              || endsWith (trim response) HEARTBEAT_TOKEN) eqn:Hedge;
      cbn [negb].
    + destruct (is_empty stripped
                || (Z.of_nat (String.length stripped)
                    <=? default 30 ackMaxChars)) eqn:Hshort.
      * eexists. split; reflexivity.
      * eexists. split; [reflexivity|]. cbn [text].
        apply orb_false_iff in Hshort as [Hn _].
        apply Hplain; auto. intros ->. discriminate.
    + eexists. split; [reflexivity|]. cbn [text].
      rewrite (Hid eq_refl) in Hs, He.
      apply Hplain; auto. apply both_trimmed_trim.
  - eexists. split; [reflexivity|]. cbn [text].
    apply Hplain; auto; [apply both_trimmed_trim | |].
    + destruct (startsWith (trim response) HEARTBEAT_TOKEN) eqn:H;
        [|reflexivity].
      apply startsWith_includes in H. congruence.
    + destruct (endsWith (trim response) HEARTBEAT_TOKEN) eqn:H;
        [|reflexivity].
      apply endsWith_includes in H. congruence.
Qed.

End HeartbeatFixedPoint.

(** ** Skill environment overrides and the merge of skill directories *)

Section SkillEnvProps.
Import Skills SkillEnv Scenarios MoreScenarios.

Lemma has_value_insert (m : gmap string string) (key value k : string) :
  has_value (<[key := value]> m) k
  = if decide (key = k) then negb (is_empty value) else has_value m k.
Proof.
  unfold has_value. destruct (decide (key = k)) as [->|Hne].
  - now rewrite lookup_insert_eq.
  - now rewrite lookup_insert_ne.
Qed.

Lemma push_update_ok (env0 : gmap string string) (st : EnvState)
    (key value : string) :
  is_empty value = false -> has_value st.2 key = false ->
  overrides_ok env0 st -> overrides_ok env0 (push_update st key value).
Proof.
  intros Hv Hunset [Hkeys Hprev Hrest]. destruct st as [ups e]. cbn in *.
  assert (Hfresh : key ∉ ups.*1).
  { intros Hin. apply list_elem_of_fmap in Hin as ([k p] & -> & Hin).
    destruct (Hprev _ _ Hin) as (_ & _ & H). cbn in Hunset. congruence. }
  constructor; cbn.
  - rewrite fmap_app. apply NoDup_app. split; [exact Hkeys|]. split.
    + intros k Hk. cbn. rewrite list_elem_of_singleton. now intros ->.
    + cbn. apply NoDup_singleton.
  - intros k prev Hin. apply elem_of_app in Hin as [Hin|Hin].
    + destruct (Hprev _ _ Hin) as (H1 & H2 & H3).
      split; [exact H1|]. split; [exact H2|].
      rewrite has_value_insert. destruct (decide (key = k)) as [->|]; auto.
      now rewrite Hv.
    + apply list_elem_of_singleton in Hin. injection Hin as -> ->.
      rewrite (Hrest _ Hfresh). split; [reflexivity|]. split.
      * unfold has_value in *. now rewrite <- (Hrest _ Hfresh).
      * rewrite has_value_insert, decide_True by reflexivity. now rewrite Hv.
  - intros k Hk. rewrite fmap_app, elem_of_app in Hk. cbn in Hk.
    rewrite list_elem_of_singleton in Hk.
    rewrite lookup_insert_ne by (intros ->; tauto). apply Hrest. tauto.
Qed.

Section Overrides.
Variable Object_entries : gmap string string -> list (string * string).

Lemma override_for_ok (env0 : gmap string string)
    (config : option ClawdConfig) (st : EnvState) (entry : SkillEntry) :
  overrides_ok env0 st ->
  overrides_ok env0 (override_for Object_entries config st entry).
Proof.
  intros Hok. unfold override_for.
  destruct (resolveSkillConfig config _) as [skillConfig|]; [|exact Hok].
  set (st1 := match Config.env skillConfig with Some _ => _ | None => _ end).
  assert (Hok1 : overrides_ok env0 st1).
  { subst st1. destruct (Config.env skillConfig) as [env|]; [|exact Hok].
    generalize (Object_entries env). intros l. revert st Hok.
    induction l as [|[k v] l IH]; intros st Hok; [exact Hok|].
    cbn [fold_left]. apply IH.
    destruct (is_empty v) eqn:Hv; [exact Hok|].
    destruct (has_value st.2 k) eqn:Hk; [exact Hok|].
    now apply push_update_ok. }
  clearbody st1.
  destruct (clawd entry ≫= primaryEnv) as [pe|]; [|exact Hok1].
  destruct (apiKey skillConfig) as [key|]; [|exact Hok1].
  destruct (is_empty pe); [exact Hok1|].
  destruct (is_empty key) eqn:Hk; [exact Hok1|].
  destruct (has_value st1.2 pe) eqn:Hp; [exact Hok1|].
  now apply push_update_ok.
Qed.

Lemma applySkillEnvOverrides_ok (skills : list SkillEntry)
    (config : option ClawdConfig) (env0 : gmap string string) :
  overrides_ok env0 (applySkillEnvOverrides Object_entries skills config env0).
Proof.
  unfold applySkillEnvOverrides.
  assert (H0 : overrides_ok env0 ([], env0)).
  { constructor; cbn; [constructor | intros ? ? H; inversion H | auto]. }
  revert H0. generalize (([], env0) : EnvState).
  induction skills as [|e l IH]; intros st Hok; [exact Hok|].
  cbn [fold_left]. apply IH. now apply override_for_ok.
Qed.

End Overrides.

Lemma restore_lookup (updates : list Update) :
  NoDup updates.*1 ->
  forall later key,
    (key ∉ updates.*1 -> restore updates later !! key = later !! key)
    /\ (forall prev, (key, prev) ∈ updates ->
          restore updates later !! key = prev).
Proof.
  unfold restore.
  induction updates as [|[k0 p0] ups IH]; intros Hnd later key.
  { split; [reflexivity|]. intros ? H. inversion H. }
  rewrite fmap_cons in Hnd. apply NoDup_cons in Hnd as [Hk0 Hnd].
  cbn [fold_left]. cbn in Hk0.
  set (later1 := match p0 with
                 | Some p => <[k0 := p]> later
                 | None => delete k0 later
                 end).
  assert (Hk : later1 !! k0 = p0).
  { subst later1. destruct p0; [apply lookup_insert_eq | apply lookup_delete_eq]. }
  assert (Hne : forall k, k <> k0 -> later1 !! k = later !! k).
  { intros k Hkne. subst later1.
    destruct p0; [now apply lookup_insert_ne | now apply lookup_delete_ne]. }
  destruct (IH Hnd later1 key) as [IH1 IH2]. split.
  - intros Hnot. rewrite fmap_cons, not_elem_of_cons in Hnot.
    destruct Hnot as [Hkey Hnot]. cbn in Hkey.
    rewrite (IH1 Hnot). now apply Hne.
  - intros prev Hin. apply elem_of_cons in Hin as [[= -> ->]|Hin].
    + destruct (IH Hnd later1 k0) as [IH0 _]. now rewrite (IH0 Hk0).
    + now apply IH2.
Qed.

(** X16. The undo that [applySkillEnvOverrides] returns puts the
    environment back exactly as it was before the call; and run on any
    later environment, it resets each variable the call had set to its
    earlier state and leaves every other variable as it finds it. *)
Theorem skill_env_overrides_are_undone
    (Object_entries : gmap string string -> list (string * string))
    (skills : list SkillEntry) (config : option ClawdConfig)
    (env later : gmap string string) :
  let '(updates, overridden) :=
    applySkillEnvOverrides Object_entries skills config env in
  restore updates overridden = env
  /\ forall key,
       restore updates later !! key
       = if decide (key ∈ updates.*1) then env !! key else later !! key.
Proof.
  pose proof (applySkillEnvOverrides_ok Object_entries skills config env)
    as [Hkeys Hprev Hrest].
  destruct (applySkillEnvOverrides _ _ _ _) as [updates overridden].
  cbn in *.
  assert (Hgen : forall l key,
             restore updates l !! key
             = if decide (key ∈ updates.*1) then env !! key else l !! key).
  { intros l key. destruct (restore_lookup updates Hkeys l key) as [H1 H2].
    destruct (decide (key ∈ updates.*1)) as [Hin|Hnot]; [|now apply H1].
    apply list_elem_of_fmap in Hin as ([k p] & -> & Hin). cbn in *.
    rewrite (H2 _ Hin). now destruct (Hprev _ _ Hin). }
  split; [|apply Hgen]. apply map_eq. intros key. rewrite Hgen.
  destruct (decide _); [reflexivity|]. now apply Hrest.
Qed.

(** X17. The overrides only fill gaps: a variable that had a non-empty
    value keeps it, and a variable that differs afterwards was unset or
    empty before, holds a non-empty value now, and is on the undo list. *)
Theorem skill_env_overrides_only_fill_unset_variables
    (Object_entries : gmap string string -> list (string * string))
    (skills : list SkillEntry) (config : option ClawdConfig)
    (env : gmap string string) (key : string) :
  let '(updates, overridden) :=
    applySkillEnvOverrides Object_entries skills config env in
  (has_value env key = true -> overridden !! key = env !! key)
  /\ (overridden !! key <> env !! key ->
      has_value env key = false /\ has_value overridden key = true
      /\ key ∈ updates.*1).
Proof.
  pose proof (applySkillEnvOverrides_ok Object_entries skills config env)
    as [Hkeys Hprev Hrest].
  destruct (applySkillEnvOverrides _ _ _ _) as [updates overridden].
  cbn in *.
  assert (Hcase : key ∉ updates.*1
                  \/ key ∈ updates.*1 /\ has_value env key = false
                     /\ has_value overridden key = true).
  { destruct (decide (key ∈ updates.*1)) as [Hin|Hnot]; [right | now left].
    split; [exact Hin|].
    apply list_elem_of_fmap in Hin as ([k p] & -> & Hin).
    now destruct (Hprev _ _ Hin) as (_ & H2 & H3). }
  split.
  - intros Hset. destruct Hcase as [Hnot|(_ & H & _)]; [now apply Hrest|].
    congruence.
  - intros Hdiff. destruct Hcase as [Hnot|(H1 & H2 & H3)]; [|auto].
    now specialize (Hrest _ Hnot).
Qed.

Section FilterAgreement.
Variable Object_entries : gmap string string -> list (string * string).

Lemma push_update_keeps (st : EnvState) (key value k : string) :
  is_empty value = false ->
  has_value st.2 k = true -> has_value (push_update st key value).2 k = true.
Proof.
  intros Hv Hk. cbn. rewrite has_value_insert.
  destruct (decide (key = k)); [now rewrite Hv | exact Hk].
Qed.

Lemma env_loop_keeps (l : list (string * string)) (st : EnvState)
    (k : string) :
  has_value st.2 k = true ->
  has_value
    (fold_left
       (fun st '(envKey, envValue) =>
          if is_empty envValue || has_value st.2 envKey then st
          else push_update st envKey envValue) l st).2 k = true.
Proof.
  revert st. induction l as [|[a v] l IH]; intros st Hk; [exact Hk|].
  cbn [fold_left]. apply IH.
  destruct (is_empty v) eqn:Hv; [exact Hk|].
  destruct (has_value st.2 a); [exact Hk|]. now apply push_update_keeps.
Qed.

Lemma env_loop_sets (l : list (string * string)) (st : EnvState)
    (k v : string) :
  (k, v) ∈ l -> is_empty v = false ->
  has_value
    (fold_left
       (fun st '(envKey, envValue) =>
          if is_empty envValue || has_value st.2 envKey then st
          else push_update st envKey envValue) l st).2 k = true.
Proof.
  revert st. induction l as [|[a w] l IH]; intros st Hin Hv;
    [inversion Hin|].
  cbn [fold_left]. apply elem_of_cons in Hin as [[= <- <-]|Hin];
    [|now apply IH].
  apply env_loop_keeps. rewrite Hv. cbn [orb].
  destruct (has_value st.2 k) eqn:Hk; [exact Hk|].
  cbn. rewrite has_value_insert, decide_True by reflexivity. now rewrite Hv.
Qed.

Lemma override_for_keeps (config : option ClawdConfig) (st : EnvState)
    (entry : SkillEntry) (k : string) :
  has_value st.2 k = true ->
  has_value (override_for Object_entries config st entry).2 k = true.
Proof.
  intros Hk. unfold override_for.
  destruct (resolveSkillConfig config _) as [skillConfig|]; [|exact Hk].
  set (st1 := match Config.env skillConfig with Some _ => _ | None => _ end).
  assert (Hk1 : has_value st1.2 k = true).
  { subst st1. destruct (Config.env skillConfig); [|exact Hk].
    now apply env_loop_keeps. }
  clearbody st1.
  destruct (clawd entry ≫= primaryEnv) as [pe|]; [|exact Hk1].
  destruct (apiKey skillConfig) as [key|]; [|exact Hk1].
  destruct (is_empty pe); [exact Hk1|].
  destruct (is_empty key) eqn:Hkey; [exact Hk1|].
  destruct (has_value st1.2 pe); [exact Hk1|]. now apply push_update_keeps.
Qed.

(** X18. The filter and the overrides agree: when [shouldIncludeSkill]
    counts a required variable as satisfied for a skill, be it by the
    environment, by the skill's configured [env] or by its [apiKey], that
    variable has a non-empty value once the overrides are applied for a
    list containing the skill.  An empty variable name is the exception:
    the filter accepts it for an [apiKey], the overrides never set it. *)
Theorem satisfied_env_is_set_by_overrides
    (Hentries : forall m k v, m !! k = Some v -> (k, v) ∈ Object_entries m)
    (skills : list SkillEntry) (config : option ClawdConfig)
    (env : gmap string string) (entry : SkillEntry) (name : string) :
  entry ∈ skills -> name <> "" ->
  env_satisfied env entry
    (resolveSkillConfig config (resolveSkillKey (skill entry) (Some entry)))
    name = true ->
  has_value (applySkillEnvOverrides Object_entries skills config env).2 name
  = true.
Proof.
  intros Hin Hname Hsat. unfold applySkillEnvOverrides.
  assert (Hgen : forall l (st : EnvState),
             entry ∈ l ->
             (has_value env name = true -> has_value st.2 name = true) ->
             has_value (fold_left (override_for Object_entries config) l st).2
               name = true).
  { clear Hin. induction l as [|e l IH]; intros st Hin Hst;
      [inversion Hin|].
    cbn [fold_left]. apply elem_of_cons in Hin as [<-|Hin].
    - assert (Hnow : has_value (override_for Object_entries config st entry).2
                       name = true).
      { destruct (has_value st.2 name) eqn:Hhv;
          [now apply override_for_keeps|].
        assert (Henv : has_value env name = false).
        { destruct (has_value env name); [|reflexivity].
          now specialize (Hst eq_refl). }
        unfold env_satisfied in Hsat.
        rewrite Henv in Hsat. cbn [orb] in Hsat. unfold override_for.
        destruct (resolveSkillConfig config _) as [skillConfig|];
          [|discriminate]. cbn in Hsat.
        set (st1 := match Config.env skillConfig with
                    | Some _ => _ | None => _ end).
        destruct (has_value st1.2 name) eqn:H1.
        { destruct (clawd entry ≫= primaryEnv) as [pe|]; [|exact H1].
          destruct (apiKey skillConfig) as [key|]; [|exact H1].
          destruct (is_empty pe); [exact H1|].
          destruct (is_empty key) eqn:Hkey; [exact H1|].
          destruct (has_value st1.2 pe); [exact H1|].
          now apply push_update_keeps. }
        apply orb_true_iff in Hsat as [Hcfg|Hapi].
        - exfalso. subst st1.
          destruct (Config.env skillConfig) as [m|]; [|discriminate].
          cbn in Hcfg. unfold has_value in Hcfg.
          destruct (m !! name) as [v|] eqn:Hm; [|discriminate].
          apply negb_true_iff in Hcfg.
          rewrite (env_loop_sets _ st name v (Hentries _ _ _ Hm) Hcfg) in H1.
          discriminate.
        - apply andb_true_iff in Hapi as [Hkey Hpe].
          apply bool_decide_eq_true in Hpe. rewrite Hpe.
          destruct (apiKey skillConfig) as [key|]; [|discriminate].
          cbn in Hkey. apply negb_true_iff in Hkey.
          assert (is_empty name = false) as -> by now destruct name.
          rewrite Hkey, H1. cbn.
          rewrite has_value_insert, decide_True by reflexivity.
          now rewrite Hkey. }
      clear -Hnow. revert Hnow.
      generalize (override_for Object_entries config st entry).
      induction l as [|e l IH]; intros st' H; [exact H|].
      cbn [fold_left]. apply IH. now apply override_for_keeps.
    - apply IH; [exact Hin|]. intros Henv.
      apply override_for_keeps. now apply Hst. }
  apply Hgen; [exact Hin|]. auto.
Qed.

End FilterAgreement.

Lemma satisfied_env_is_set_by_overrides_witness :
  has_value
    (applySkillEnvOverrides map_to_list [token_entry] (Some token_cfg) ∅).2
    "GH_TOKEN" = true.
Proof.
  apply (satisfied_env_is_set_by_overrides map_to_list
           ltac:(intros m k v H; now apply elem_of_map_to_list)
           [token_entry] (Some token_cfg) ∅ token_entry "GH_TOKEN").
  - apply list_elem_of_here.
  - discriminate.
  - vm_compute. reflexivity.
Defined.

Section AlwaysProps.
Variable platform : string.
Variable process_env : gmap string string.
Variable executable_in : string -> string -> bool.
Variable delimiter : ascii.

(** X19. [always: true] waives the required binaries and variables only: a
    skill marked so is still left out when its configuration entry says
    [enabled: false] or when its platform list does not name the
    platform. *)
Theorem always_skill_still_needs_switch_and_platform (entry : SkillEntry)
    (config : option ClawdConfig) :
  (clawd entry ≫= always) = Some true ->
  (shouldIncludeSkill platform process_env executable_in delimiter entry
     config = true
   <-> (resolveSkillConfig config (resolveSkillKey (skill entry) (Some entry))
          ≫= enabled) ≠ Some false
       /\ (default [] (clawd entry ≫= os) = []
           \/ In platform (default [] (clawd entry ≫= os)))).
Proof.
  intros Hal.
  pose proof (shouldIncludeSkill_spec (fun _ => None) platform process_env
                executable_in delimiter entry config) as Hs. cbv zeta in Hs.
  split.
  - intros H. apply Hs in H as (H1 & H2 & _). split; assumption.
  - intros (H1 & H2). apply Hs.
    split; [exact H1|]. split; [exact H2|]. now left.
Qed.

End AlwaysProps.

Lemma always_skill_still_needs_switch_and_platform_witness :
  shouldIncludeSkill "linux" ∅ nothing_installed ":" always_entry
    (Some switched_off_cfg) = false.
Proof.
  apply not_true_iff_false. intros H.
  apply (always_skill_still_needs_switch_and_platform "linux" ∅
           nothing_installed ":" always_entry (Some switched_off_cfg)
           eq_refl) in H as [H _].
  apply H. vm_compute. reflexivity.
Defined.

Lemma last_named_snoc (name : string) (l : list Skill) (s : Skill) :
  last_named name (l ++ [s])
  = if decide (skill_name s = name) then Some s else last_named name l.
Proof.
  unfold last_named. rewrite filter_app, filter_cons, filter_nil.
  destruct (decide (skill_name s = name)); [apply last_snoc|].
  now rewrite app_nil_r.
Qed.

Lemma last_named_name (name : string) (l : list Skill) (s : Skill) :
  last_named name l = Some s -> skill_name s = name.
Proof.
  unfold last_named. intros H. apply last_Some_elem_of in H.
  now apply list_elem_of_filter in H as [H _].
Qed.

Lemma last_named_app_r (name : string) (l1 l2 : list Skill) (s : Skill) :
  last_named name l2 = Some s -> last_named name (l1 ++ l2) = Some s.
Proof.
  unfold last_named. rewrite filter_app.
  destruct (filter _ l2) as [|x t] using rev_ind; [discriminate|].
  rewrite app_assoc, !last_snoc. auto.
Qed.

Lemma map_set_keys (m : list (string * Skill)) (name : string) (s : Skill) :
  (map_set m name s).*1
  = if decide (name ∈ m.*1) then m.*1 else m.*1 ++ [name].
Proof.
  induction m as [|[k v] m IH]; [reflexivity|]. cbn [map_set].
  destruct (String.eqb_spec k name) as [->|Hne].
  - rewrite decide_True by (rewrite fmap_cons; left). reflexivity.
  - rewrite !fmap_cons, IH. cbn [fst].
    destruct (decide (name ∈ m.*1)) as [Hin|Hnot].
    + now rewrite decide_True by now right.
    + rewrite decide_False; [reflexivity|].
      rewrite elem_of_cons. intros [?|?]; congruence.
Qed.

Lemma map_set_elem (m : list (string * Skill)) (name : string) (s : Skill)
    (k : string) (v : Skill) :
  NoDup m.*1 ->
  (k, v) ∈ map_set m name s
  <-> (k = name /\ v = s) \/ (k <> name /\ (k, v) ∈ m).
Proof.
  induction m as [|[k0 v0] m IH]; intros Hnd; cbn [map_set].
  - rewrite list_elem_of_singleton. split.
    + intros [= -> ->]. auto.
    + intros [[-> ->]|[_ H]]; [reflexivity | inversion H].
  - rewrite fmap_cons in Hnd. apply NoDup_cons in Hnd as [Hk0 Hnd].
    cbn in Hk0. destruct (String.eqb_spec k0 name) as [->|Hne].
    + rewrite !elem_of_cons. split.
      * intros [[= -> ->]|Hin]; [auto|]. right. split; [|auto].
        intros ->. apply Hk0. apply list_elem_of_fmap. now exists (name, v).
      * intros [[-> ->]|[Hk [[= ? ?]|Hin]]]; auto. congruence.
    + rewrite !elem_of_cons, (IH Hnd). split.
      * intros [[= -> ->]|[?|[? ?]]]; auto.
      * intros [[-> ->]|[Hk [[= -> ->]|Hin]]]; auto.
Qed.

(** What the loops over [merged] keep true, [seen] being the skills set
    so far. *)
Lemma set_all_ok (skills seen : list Skill) (m : list (string * Skill)) :
  NoDup m.*1 ->
  (forall k v, (k, v) ∈ m <-> last_named k seen = Some v) ->
  NoDup (set_all skills m).*1
  /\ forall k v, (k, v) ∈ set_all skills m
                 <-> last_named k (seen ++ skills) = Some v.
Proof.
  revert seen m. induction skills as [|s l IH]; intros seen m Hnd Hm.
  { rewrite app_nil_r. auto. }
  cbn [set_all fold_left].
  replace (seen ++ s :: l) with ((seen ++ [s]) ++ l)
    by now rewrite <- app_assoc.
  apply IH.
  - rewrite map_set_keys. destruct (decide _) as [|Hnot]; [exact Hnd|].
    apply NoDup_app. split; [exact Hnd|]. split; [|apply NoDup_singleton].
    intros k Hk. rewrite list_elem_of_singleton. now intros ->.
  - intros k v. rewrite (map_set_elem _ _ _ _ _ Hnd), last_named_snoc, Hm.
    destruct (decide (skill_name s = k)) as [<-|Hne].
    + split; [intros [[_ ->]|[? _]]; congruence | intros [= ->]; auto].
    + split; [intros [[? _]|[_ ?]]; congruence | intros H; right; auto].
Qed.

(** X20. When the skill directories are merged, each name is kept once and
    the skill kept for a name is the last one of that name in the order
    extra, bundled, managed, workspace; so a workspace skill replaces any
    skill of the same name from the other directories. *)
Theorem skill_merge_prefers_later_directories
    (extraSkills bundledSkills managedSkills workspaceSkills : list Skill) :
  let merged :=
    merged_skills extraSkills bundledSkills managedSkills workspaceSkills in
  let all :=
    extraSkills ++ bundledSkills ++ managedSkills ++ workspaceSkills in
  NoDup (skill_name <$> merged)
  /\ (forall s, s ∈ merged <-> last_named (skill_name s) all = Some s)
  /\ (forall s, last_named (skill_name s) workspaceSkills = Some s ->
                s ∈ merged).
Proof.
  cbv zeta. unfold merged_skills.
  destruct (set_all_ok extraSkills [] []) as [N1 H1];
    [constructor | intros k v; split; [intros H; inversion H | discriminate] |].
  destruct (set_all_ok bundledSkills _ _ N1 H1) as [N2 H2].
  destruct (set_all_ok managedSkills _ _ N2 H2) as [N3 H3].
  destruct (set_all_ok workspaceSkills _ _ N3 H3) as [N4 H4].
  cbn [app] in *. rewrite <- !app_assoc in H4.
  set (m := set_all workspaceSkills _) in *. clearbody m.
  assert (Hmem : forall s, s ∈ m.*2
                   <-> last_named (skill_name s)
                         (extraSkills ++ bundledSkills ++ managedSkills
                          ++ workspaceSkills) = Some s).
  { intros s. rewrite list_elem_of_fmap. split.
    - intros ([k v] & -> & Hin). cbn. apply H4 in Hin as Hl.
      now rewrite (last_named_name _ _ _ Hl).
    - intros Hl. exists (skill_name s, s). split; [reflexivity|].
      now apply H4. }
  split; [|split].
  - assert (Hnames : skill_name <$> m.*2 = m.*1); [|now rewrite Hnames].
    rewrite <- list_fmap_compose. apply list_fmap_ext.
    intros i [k v] Hi. cbn. apply list_elem_of_lookup_2 in Hi.
    apply H4 in Hi. now apply last_named_name in Hi.
  - exact Hmem.
  - intros s Hs. apply Hmem. rewrite !app_assoc.
    now apply last_named_app_r.
Qed.

End SkillEnvProps.

(** ** Messages without a slash *)

Section NoDirectiveProps.
Import Regex Directives.

Lemma char_i_slash (x : ascii) : char_i "/" x = Ascii.eqb x "/".
Proof. destruct x as [[] [] [] [] [] [] [] []]; reflexivity. Qed.

Lemma slash_needed {R : Type} (X : Regex) (p : Pos) (cap : Capture)
    (k : Pos -> Capture -> option R) :
  free_of "/" (rest p) = true ->
  run (RSeq (lit_i "/") X) p cap k = None.
Proof.
  intros H. cbn [run lit_i]. destruct (rest p) as [|c s]; [reflexivity|].
  cbn in H. apply andb_true_iff in H as [Hc _].
  rewrite char_i_slash. apply negb_true_iff in Hc. now rewrite Hc.
Qed.

Lemma directive_needs_slash {R : Type} (X : Regex) (p : Pos) (cap : Capture)
    (k : Pos -> Capture -> option R) :
  free_of "/" (rest p) = true ->
  run (RSeq (RAlt RStart (RChar is_ws)) (RSeq (lit_i "/") X)) p cap k = None.
Proof.
  intros H. cbn [run lit_i]. destruct (rest p) as [|c s] eqn:E.
  - destruct (prev p); reflexivity.
  - cbn in H. apply andb_true_iff in H as [Hc Hs].
    apply negb_true_iff in Hc. rewrite char_i_slash, Hc.
    destruct (prev p); cbn [rest]; destruct (is_ws c); try reflexivity;
      destruct s as [|d s']; try reflexivity;
      cbn in Hs; apply andb_true_iff in Hs as [Hd _];
      apply negb_true_iff in Hd; now rewrite char_i_slash, Hd.
Qed.

Lemma exec_needs_slash (X : Regex) (body : string) :
  free_of "/" body = true ->
  exec (RSeq (RAlt RStart (RChar is_ws)) (RSeq (lit_i "/") X)) body = None.
Proof.
  intros H. unfold exec.
  assert (Hgen : forall s i pv, free_of "/" s = true ->
             exec_from (RSeq (RAlt RStart (RChar is_ws))
                          (RSeq (lit_i "/") X)) i pv s = None).
  { induction s as [|c s IH]; intros i pv Hs; cbn [exec_from];
      rewrite directive_needs_slash by exact Hs; [reflexivity|].
    apply IH. cbn in Hs. now apply andb_true_iff in Hs as [_ Hs]. }
  now rewrite Hgen.
Qed.

Lemma extract_without_slash {L : Type} (X : Regex)
    (normalize : option string -> option L) (body : string) :
  free_of "/" body = true -> normalize None = None ->
  extract_with (RSeq (RAlt RStart (RChar is_ws)) (RSeq (lit_i "/") X))
    normalize (Some body)
  = {| cleaned := trim body; level := None; rawLevel := None;
       hasDirective := false |}.
Proof.
  intros H Hn. unfold extract_with.
  destruct (is_empty body) eqn:He; [now destruct body|].
  now rewrite exec_needs_slash, Hn by exact H.
Qed.

(** X21. A message that contains no slash carries no directive: nothing is
    extracted and the message comes back trimmed, its inner white space
    untouched. *)
Theorem message_without_slash_has_no_directive (message : string) :
  free_of "/" message = true ->
  extractAllDirectives message
  = {| cleanedMessage := trim message;
       thinkLevel := None;
       verboseLevel := None;
       hasDirectives := false |}.
Proof.
  intros H. unfold extractAllDirectives, extractThinkDirective,
    extractVerboseDirective, think_re, verbose_re.
  rewrite (extract_without_slash _ normalizeThinkLevel message H eq_refl).
  cbn [hasDirective level].
  now rewrite (extract_without_slash _ normalizeVerboseLevel message H
                 eq_refl).
Qed.

Lemma message_without_slash_has_no_directive_witness :
  cleanedMessage (extractAllDirectives "  think  high  ")
  = "think  high".
Proof.
  now rewrite (message_without_slash_has_no_directive "  think  high  "
                 eq_refl).
Defined.

End NoDirectiveProps.

(** ** The daily memory log *)

Section MemoryLogProps.
Import MemoryLog.

Lemma indexOf_after_free (p t : string) (c : ascii) :
  free_of c p = true ->
  indexOf (p +:+ String c t) (String c t) = Some (String.length p).
Proof.
  induction p as [|a p IH]; intros H.
  - pose proof (JsFacts.startsWith_app "" (String c t)) as Hs.
    rewrite JsFacts.app_nil_r in Hs.
    now rewrite JsFacts.app_nil_l, JsFacts.indexOf_eq, Hs.
  - cbn in H. apply andb_true_iff in H as [Ha Hp].
    apply negb_true_iff in Ha.
    rewrite JsFacts.app_cons, JsFacts.indexOf_eq. cbn [startsWith].
    rewrite Ha. cbn [andb]. now rewrite (IH Hp).
Qed.

Lemma replace_first_suffix (p t : string) (c : ascii) :
  free_of c p = true -> replace_first (p +:+ String c t) (String c t) "" = p.
Proof.
  intros H. unfold replace_first. rewrite (indexOf_after_free p t c H).
  rewrite JsFacts.take_app_length, JsFacts.app_nil_l.
  replace (String.length p + String.length (String c t))%nat
    with (String.length (p +:+ String c t))
    by apply JsFacts.length_app.
  rewrite <- (JsFacts.app_nil_r (p +:+ String c t)) at 2.
  now rewrite JsFacts.drop_app_length, JsFacts.app_nil_r.
Qed.

Lemma digit_is_no_dot (a : ascii) :
  is_digit a = true -> Ascii.eqb a "." = false.
Proof.
  destruct a as [[] [] [] [] [] [] [] []]; vm_compute; congruence.
Qed.

Lemma year_has_four_digits (y : Z) :
  1000 <= y <= 9999 ->
  has_shape [is_digit; is_digit; is_digit; is_digit] (string_of_Z y) = true.
Proof.
  intros Hy.
  assert (Hall : forallb
            (fun n => has_shape [is_digit; is_digit; is_digit; is_digit]
                        (string_of_Z (Z.of_nat n)))
            (seq 1000 (9 * 1000)) = true) by (vm_compute; reflexivity).
  rewrite forallb_forall in Hall.
  rewrite <- (Z2Nat.id y) by lia. apply Hall, in_seq. lia.
Qed.

Lemma padded_has_two_digits (n : nat) :
  (n < 100)%nat ->
  has_shape [is_digit; is_digit] (padStart2 (string_of_nat n)) = true.
Proof.
  intros Hn.
  assert (Hall : forallb
            (fun n => has_shape [is_digit; is_digit]
                        (padStart2 (string_of_nat n)))
            (seq 0 100) = true) by (vm_compute; reflexivity).
  rewrite forallb_forall in Hall. apply Hall, in_seq. lia.
Qed.

(** X22. The file name under which a day's log is written is one that
    [listMemoryLogs] recognizes, and the date it lists for that file is
    the formatted date again, for every date of a four-digit year. *)
Theorem memory_log_name_is_listed (date : JsDate) :
  1000 <= getFullYear date <= 9999 ->
  (getMonth date < 12)%nat ->
  (1 <= getDate date <= 31)%nat ->
  let filename := formatDateForMemory date +:+ ".md" in
  is_memory_log_name filename = true
  /\ listed_date filename = formatDateForMemory date.
Proof.
  intros Hy Hm Hd. cbv zeta. unfold formatDateForMemory, listed_date.
  pose proof (year_has_four_digits _ Hy) as HY.
  pose proof (padded_has_two_digits (getMonth date + 1) ltac:(lia)) as HM.
  pose proof (padded_has_two_digits (getDate date) ltac:(lia)) as HD.
  destruct (string_of_Z (getFullYear date))
    as [|y1 [|y2 [|y3 [|y4 [|? ?]]]]]; cbn in HY; try discriminate;
    try (rewrite !andb_false_r in HY; discriminate).
  destruct (padStart2 (string_of_nat (getMonth date + 1)))
    as [|m1 [|m2 [|? ?]]]; cbn in HM; try discriminate;
    try (rewrite !andb_false_r in HM; discriminate).
  destruct (padStart2 (string_of_nat (getDate date)))
    as [|d1 [|d2 [|? ?]]]; cbn in HD; try discriminate;
    try (rewrite !andb_false_r in HD; discriminate).
  rewrite !andb_true_r in HY, HM, HD.
  repeat match goal with
         | H : _ && _ = true |- _ => apply andb_true_iff in H as [? ?]
         end.
  split.
  - unfold is_memory_log_name. cbv [String.append has_shape].
    repeat match goal with
           | H : is_digit _ = true |- _ => rewrite H; clear H
           end.
    reflexivity.
  - apply replace_first_suffix. cbv [String.append free_of].
    repeat match goal with
           | H : is_digit _ = true |- _ =>
               rewrite (digit_is_no_dot _ H); clear H
           end.
    reflexivity.
Qed.

Lemma memory_log_name_is_listed_witness :
  is_memory_log_name "2026-03-07.md" = true
  /\ listed_date "2026-03-07.md" = "2026-03-07".
Proof.
  apply (memory_log_name_is_listed
           {| getFullYear := 2026; getMonth := 2; getDate := 7 |});
    cbn; lia.
Defined.

Section LogFiles.
Variable path_join : string -> string -> string -> string.
Variable day_before : JsDate -> JsDate.
Variable readFile : string -> option string.

(** X23. The daily memory context file is built exactly when today's or
    yesterday's log holds more than white space; a missing log and a blank
    one count the same.  When both logs have text, the file has
    yesterday's section before today's. *)
Theorem daily_memory_context_needs_a_log (workspaceDir : string)
    (now : JsDate) :
  let blank path :=
    match readFile path with
    | Some content => trim content = ""
    | None => True
    end in
  let logs := loadDailyMemoryLogs path_join day_before readFile
                workspaceDir now in
  (buildMemoryContextFiles logs = []
   <-> blank (getMemoryLogPath path_join workspaceDir now)
       /\ blank (getMemoryLogPath path_join workspaceDir (day_before now)))
  /\ forall t y,
       today logs = Some t -> yesterday logs = Some y ->
       buildMemoryContextFiles logs
       = [("DAILY_MEMORY.md",
           "# Daily Memory Logs" +:+ nl +:+ nl
           +:+ "## Yesterday's Memory ("
           +:+ formatDateForMemory (day_before now) +:+ ")" +:+ nl +:+ y
           +:+ nl +:+ nl
           +:+ "## Today's Memory (" +:+ formatDateForMemory now
           +:+ ")" +:+ nl +:+ t)].
Proof.
  cbv zeta.
  assert (Hread : forall date,
             readMemoryLog path_join readFile workspaceDir date = None
             <-> match readFile (getMemoryLogPath path_join workspaceDir date)
                 with
                 | Some content => trim content = ""
                 | None => True
                 end).
  { intros date. unfold readMemoryLog.
    destruct (readFile _) as [content|]; [|tauto].
    destruct (trim content); cbn; split; congruence. }
  rewrite <- !Hread.
  unfold loadDailyMemoryLogs, buildMemoryContextFiles. cbn [combined today yesterday].
  destruct (readMemoryLog path_join readFile workspaceDir now) as [t|];
    destruct (readMemoryLog path_join readFile workspaceDir (day_before now))
      as [y|]; cbn [app length Nat.ltb Nat.leb join]; split;
    try (intros ? ? ? ?; discriminate);
    try (cbv [String.append is_empty nl join]; split;
         [discriminate | intros [? ?]; discriminate]).
  - intros t' y' [= <-] [= <-]. rewrite !JsFacts.app_assoc. reflexivity.
  - cbv [is_empty]. tauto.
Qed.

End LogFiles.

End MemoryLogProps.

(** ** More on the two stores *)

Section StoreFailureProps.
Import Fs StoreCalls Scenarios.

Section AnyWorld.
Context {W Store : Type}.
Variable fs : FsCall -> W -> W * outcome FsError unit.
Variable dirname : string -> string.
Variable stringify : Store -> string.
Variable pid : string.
Variable rand : string.

(** X24. How a session store save fails.  An error of the temporary write
    other than [ENOENT] is thrown on, after the temporary file is removed
    and with the store file never touched.  When the temporary write
    fails with [ENOENT], the directory is made again and the store file
    written directly; when that write fails with [ENOENT] too, the save
    returns normally although nothing was written. *)
Theorem session_store_save_failures (storePath : string) (store : Store)
    (w : W) (log : list FsCall) :
  let dir := dirname storePath in
  let json := stringify store in
  let tmp := storePath +:+ "." +:+ pid +:+ "." +:+ rand +:+ ".tmp" in
  let save :=
    SessionStore.saveSessionStore fs dirname stringify pid rand
      storePath store (w, log) in
  (forall w1 w2 w3 e,
      fs (Mkdir dir) w = (w1, Ret tt) ->
      fs (WriteFile tmp json) w1 = (w2, Throw e) ->
      code e <> Some "ENOENT" ->
      fs (Rm tmp) w2 = (w3, Ret tt) ->
      save = ((w3, log ++ [Mkdir dir; WriteFile tmp json; Rm tmp]), Throw e))
  /\ (forall w1 w2 w3 w4 w5 e e2,
        fs (Mkdir dir) w = (w1, Ret tt) ->
        fs (WriteFile tmp json) w1 = (w2, Throw e) ->
        code e = Some "ENOENT" ->
        fs (Mkdir dir) w2 = (w3, Ret tt) ->
        fs (WriteFile storePath json) w3 = (w4, Throw e2) ->
        code e2 = Some "ENOENT" ->
        fs (Rm tmp) w4 = (w5, Ret tt) ->
        save = ((w5, log ++ [Mkdir dir; WriteFile tmp json; Mkdir dir;
                             WriteFile storePath json; Rm tmp]), Ret tt))
  /\ (forall w1 w2 w3 w4 w5 w6 e,
        fs (Mkdir dir) w = (w1, Ret tt) ->
        fs (WriteFile tmp json) w1 = (w2, Ret tt) ->
        fs (Rename tmp storePath) w2 = (w3, Throw e) ->
        code e = Some "ENOENT" ->
        fs (Mkdir dir) w3 = (w4, Ret tt) ->
        fs (WriteFile storePath json) w4 = (w5, Ret tt) ->
        fs (Rm tmp) w5 = (w6, Ret tt) ->
        save = ((w6, log ++ [Mkdir dir; WriteFile tmp json;
                             Rename tmp storePath; Mkdir dir;
                             WriteFile storePath json; Rm tmp]), Ret tt)).
Proof.
  intros dir json tmp save. subst save.
  unfold SessionStore.saveSessionStore, SessionStore.write_or_recover,
    SessionStore.tmp_path, SessionStore.is_ENOENT, and_then, finally, call.
  fold dir json tmp. split; [|split].
  - intros w1 w2 w3 e H1 H2 He H3. rewrite H1, H2.
    rewrite bool_decide_eq_false_2 by exact He. rewrite H3.
    now rewrite <- !app_assoc.
  - intros w1 w2 w3 w4 w5 e e2 H1 H2 He H3 H4 He2 H5. rewrite H1, H2.
    rewrite bool_decide_eq_true_2 by exact He. rewrite H3, H4.
    rewrite bool_decide_eq_true_2 by exact He2. rewrite H5.
    now rewrite <- !app_assoc.
  - intros w1 w2 w3 w4 w5 w6 e H1 H2 H3 He H4 H5 H6. rewrite H1, H2, H3.
    rewrite bool_decide_eq_true_2 by exact He. rewrite H4, H5, H6.
    now rewrite <- !app_assoc.
Qed.

Lemma adds_only_weaken (P Q : FsCall -> bool) (a : Action W) :
  (forall c, P c = true -> Q c = true) -> adds_only P a -> adds_only Q a.
Proof.
  intros HPQ Ha st. destruct (Ha st) as (calls & E & HP).
  exists calls. split; [exact E|].
  rewrite forallb_forall in *. auto.
Qed.

Lemma adds_only_best_effort (P : FsCall -> bool) (a : Action W) :
  adds_only P a -> adds_only P (best_effort a).
Proof. intros Ha st. exact (Ha st). Qed.

Lemma session_write_or_recover_calls (storePath json tmp : string) :
  adds_only (session_call (dirname storePath) storePath tmp json)
    (SessionStore.write_or_recover fs dirname storePath json tmp).
Proof.
  set (P := session_call (dirname storePath) storePath tmp json).
  assert (Hw : P (WriteFile tmp json) = true)
    by (cbn; now rewrite !String.eqb_refl).
  assert (Hr : P (Rename tmp storePath) = true)
    by (cbn; now rewrite !String.eqb_refl).
  assert (Hm : P (Mkdir (dirname storePath)) = true)
    by (cbn; now rewrite !String.eqb_refl).
  assert (Hs : P (WriteFile storePath json) = true)
    by (cbn; rewrite !String.eqb_refl; now rewrite orb_true_r).
  intros st. unfold SessionStore.write_or_recover.
  pose proof (adds_only_and_then P _ _
                (adds_only_call fs P _ Hw) (adds_only_call fs P _ Hr) st)
    as (c1 & E1 & P1).
  destruct (and_then _ _ st) as [st1 [u|err]]; cbn in E1; [eauto|].
  destruct (SessionStore.is_ENOENT err); [|eauto].
  pose proof (adds_only_and_then P _ _
                (adds_only_call fs P _ Hm) (adds_only_call fs P _ Hs) st1)
    as (c2 & E2 & P2).
  exists (c1 ++ c2).
  assert (forallb P (c1 ++ c2) = true)
    by (rewrite forallb_app; now rewrite P1, P2).
  destruct (and_then _ _ st1) as [st2 [u|err2]]; cbn in E2 |- *;
    [|destruct (SessionStore.is_ENOENT err2)]; cbn;
    rewrite E2, E1, app_assoc; auto.
Qed.

(** X25. Whatever the file system answers, a save touches only its own
    files.  The session store save makes the store's directory, writes
    the JSON to the temporary file or to the store, renames the temporary
    file onto the store and removes the temporary file, and nothing else;
    the cron store save writes only the temporary file, renames it onto
    the store, copies the store to its [.bak] and removes nothing. *)
Theorem saves_touch_only_their_files (storePath : string) (store : Store)
    (st : Logged W) :
  let dir := dirname storePath in
  let json := stringify store in
  let tmp := storePath +:+ "." +:+ pid +:+ "." +:+ rand +:+ ".tmp" in
  (exists calls,
      (SessionStore.saveSessionStore fs dirname stringify pid rand
         storePath store st).1.2 = st.2 ++ calls
      /\ forallb (session_call dir storePath tmp json) calls = true)
  /\ (exists calls,
        (CronStore.saveCronStore fs dirname stringify pid rand
           storePath store st).1.2 = st.2 ++ calls
        /\ forallb (cron_call dir storePath tmp json) calls = true).
Proof.
  intros dir json tmp. split.
  - apply (adds_only_and_then (session_call dir storePath tmp json)).
    + apply adds_only_call. cbn. apply String.eqb_refl.
    + apply adds_only_finally.
      * apply session_write_or_recover_calls.
      * apply adds_only_call. cbn. apply String.eqb_refl.
  - unfold CronStore.saveCronStore.
    repeat (apply (adds_only_and_then (cron_call dir storePath tmp json));
            [apply adds_only_call; cbn; now rewrite !String.eqb_refl|]).
    apply adds_only_best_effort, adds_only_call. cbn.
    now rewrite !String.eqb_refl.
Qed.

End AnyWorld.

Lemma session_store_save_failures_witness :
  SessionStore.saveSessionStore no_directory_fs state_dir show_store
    "4242" "u-1" "/state/sessions.json" "{}" (0%nat, [])
  = ((5%nat,
      [ Mkdir "/state";
        WriteFile "/state/sessions.json.4242.u-1.tmp" "{}";
        Mkdir "/state";
        WriteFile "/state/sessions.json" "{}";
        Rm "/state/sessions.json.4242.u-1.tmp" ]), Ret tt).
Proof.
  destruct (session_store_save_failures no_directory_fs state_dir show_store
              "4242" "u-1" "/state/sessions.json" "{}" 0%nat [])
    as (_ & Hlost & _).
  apply (Hlost 1%nat 2%nat 3%nat 4%nat 5%nat
           {| code := Some "ENOENT" |} {| code := Some "ENOENT" |});
    reflexivity.
Defined.

End StoreFailureProps.

Section WorkingFsProps.
Import Fs Scenarios.

Lemma append_cancel_l (s a b : string) : s +:+ a = s +:+ b -> a = b.
Proof.
  induction s as [|c s IH]; [now rewrite !JsFacts.app_nil_l|].
  rewrite !JsFacts.app_cons. intros [= H]. now apply IH.
Qed.

Lemma append_cons_ne (s t : string) (c : ascii) : s +:+ String c t <> s.
Proof.
  intros H. apply (f_equal String.length) in H.
  rewrite JsFacts.length_app in H. cbn [String.length] in H. lia.
Qed.

Lemma tmp_is_not_the_store (storePath pid rand : string) :
  storePath +:+ "." +:+ pid +:+ "." +:+ rand +:+ ".tmp" <> storePath.
Proof. exact (append_cons_ne storePath _ "."). Qed.

Lemma tmp_is_not_the_backup (storePath pid rand : string) :
  storePath +:+ "." +:+ pid +:+ "." +:+ rand +:+ ".tmp"
  <> storePath +:+ ".bak".
Proof.
  intros H. apply append_cancel_l in H.
  change ("." +:+ pid +:+ "." +:+ rand +:+ ".tmp")
    with (String "." (pid +:+ String "." (rand +:+ ".tmp"))) in H.
  injection H as H. apply (f_equal String.length) in H.
  rewrite !JsFacts.length_app in H. cbn [String.length] in H.
  rewrite JsFacts.length_app in H. cbn [String.length] in H. lia.
Qed.

Lemma backup_is_not_the_store (storePath : string) :
  storePath +:+ ".bak" <> storePath.
Proof. exact (append_cons_ne storePath _ "."). Qed.

Lemma cron_save_leaves_json {Store : Type}
    (dirname : string -> string) (stringify : Store -> string)
    (pid rand storePath : string) (store : Store)
    (files : gmap string string) (log : list FsCall) :
  let saved :=
    (CronStore.saveCronStore plain_fs dirname stringify pid rand
       storePath store (files, log)).1.1 in
  saved !! storePath = Some (stringify store)
  /\ saved !! (storePath +:+ ".bak") = Some (stringify store).
Proof.
  cbv zeta.
  unfold CronStore.saveCronStore, CronStore.tmp_path, and_then, best_effort,
    call, plain_fs.
  cbn -[String.append]. rewrite !lookup_insert_eq. cbn -[String.append].
  rewrite ?lookup_insert_eq. cbn -[String.append]. split; [|reflexivity].
  rewrite lookup_insert_ne by apply backup_is_not_the_store.
  apply lookup_insert_eq.
Qed.

(** X26. On a file system where every call succeeds, a save leaves the
    store file holding the serialized store and no temporary file, and
    changes no other file: the session store save leaves even an old
    [.bak] as it was, the cron store save makes the [.bak] a copy of the
    new store. *)
Theorem save_on_a_working_file_system {Store : Type}
    (dirname : string -> string) (stringify : Store -> string)
    (pid rand storePath : string) (store : Store)
    (files : gmap string string) (log : list FsCall) :
  let json := stringify store in
  let tmp := storePath +:+ "." +:+ pid +:+ "." +:+ rand +:+ ".tmp" in
  let bak := storePath +:+ ".bak" in
  let session :=
    SessionStore.saveSessionStore plain_fs dirname stringify pid rand
      storePath store (files, log) in
  let cron :=
    CronStore.saveCronStore plain_fs dirname stringify pid rand
      storePath store (files, log) in
  (session.2 = Ret tt
   /\ session.1.1 !! storePath = Some json
   /\ session.1.1 !! tmp = None
   /\ forall p, p <> storePath -> p <> tmp ->
        session.1.1 !! p = files !! p)
  /\ (cron.2 = Ret tt
      /\ cron.1.1 !! storePath = Some json
      /\ cron.1.1 !! bak = Some json
      /\ cron.1.1 !! tmp = None
      /\ forall p, p <> storePath -> p <> tmp -> p <> bak ->
           cron.1.1 !! p = files !! p).
Proof.
  intros json tmp bak session cron.
  pose proof (tmp_is_not_the_store storePath pid rand) as Hts.
  pose proof (tmp_is_not_the_backup storePath pid rand) as Htb.
  pose proof (backup_is_not_the_store storePath) as Hbs.
  fold tmp in Hts, Htb. fold bak in Htb, Hbs.
  subst session cron.
  unfold SessionStore.saveSessionStore, SessionStore.write_or_recover,
    SessionStore.tmp_path, CronStore.saveCronStore, CronStore.tmp_path,
    and_then, finally, best_effort, call, plain_fs.
  fold json tmp bak. cbn -[String.append].
  rewrite !lookup_insert_eq. cbn -[String.append].
  rewrite ?lookup_insert_eq. cbn -[String.append].
  repeat split.
  - rewrite lookup_delete_ne by congruence. apply lookup_insert_eq.
  - apply lookup_delete_eq.
  - intros p H1 H2.
    now rewrite lookup_delete_ne, lookup_insert_ne, lookup_delete_ne,
      lookup_insert_ne by congruence.
  - rewrite lookup_insert_ne by congruence. apply lookup_insert_eq.
  - rewrite !lookup_insert_ne by congruence. apply lookup_delete_eq.
  - intros p H1 H2 H3.
    now rewrite !lookup_insert_ne, lookup_delete_ne, lookup_insert_ne
      by congruence.
Qed.

Section RoundTrip.
Import CronStoreLoad MoreScenarios.

(** X27. A cron store that was saved is the store that is loaded, from the
    store file and from its [.bak] alike, up to what loading always does:
    the version reads as 1 and jobs that are not truthy are dropped. *)
Theorem cron_store_round_trip (dirname : string -> string)
    (stringify : CronStoreFile -> string)
    (JSON_parse : string -> option JsVal)
    (pid rand storePath : string) (store : CronStoreFile)
    (files : gmap string string) (log : list FsCall) :
  JSON_parse (stringify store) = Some (store_value store) ->
  let saved :=
    (CronStore.saveCronStore plain_fs dirname stringify pid rand
       storePath store (files, log)).1.1 in
  let loaded := {| version := 1;
                   jobs := filter (fun job => truthy job = true)
                             (jobs store) |} in
  loadCronStore (fun p => saved !! p) JSON_parse storePath = loaded
  /\ loadCronStore (fun p => saved !! p) JSON_parse (storePath +:+ ".bak")
     = loaded.
Proof.
  intros Hparse saved loaded.
  destruct (cron_save_leaves_json dirname stringify pid rand storePath store
              files log) as [Hstore Hbak].
  fold saved in Hstore, Hbak. unfold loadCronStore.
  rewrite Hstore, Hbak. cbn [mbind option_bind]. rewrite Hparse.
  unfold store_value, get.
  rewrite lookup_insert_ne by discriminate. rewrite lookup_singleton_eq.
  split; reflexivity.
Qed.

Lemma cron_store_round_trip_witness :
  loadCronStore
    (fun p =>
       (CronStore.saveCronStore plain_fs state_dir show_cron_store "4242"
          "9f3a" "/state/cron/jobs.json" one_job_store (∅, [])).1.1 !! p)
    parse_one_job "/state/cron/jobs.json"
  = one_job_store.
Proof.
  exact (proj1 (cron_store_round_trip state_dir show_cron_store
                  parse_one_job "4242" "9f3a" "/state/cron/jobs.json"
                  one_job_store ∅ [] eq_refl)).
Defined.

End RoundTrip.

End WorkingFsProps.

(** ** The agent workspace *)

Section WorkspaceProps.
Import Workspace.

Lemma writeFileIfMissing_keeps (p content : string) (files : Files)
    (q c : string) :
  files !! q = Some c -> writeFileIfMissing p content files !! q = Some c.
Proof.
  intros H. unfold writeFileIfMissing.
  destruct (files !! p) eqn:E; [exact H|].
  rewrite lookup_insert_ne; [exact H|]. intros ->. congruence.
Qed.

Lemma writeFileIfMissing_there (p content : string) (files : Files) :
  is_Some (writeFileIfMissing p content files !! p).
Proof.
  unfold writeFileIfMissing. destruct (files !! p) eqn:E.
  - rewrite E. eauto.
  - rewrite lookup_insert_eq. eauto.
Qed.

Lemma writeFileIfMissing_present (p content : string) (files : Files) :
  is_Some (files !! p) -> writeFileIfMissing p content files = files.
Proof. intros [c H]. unfold writeFileIfMissing. now rewrite H. Qed.

Lemma writeFileIfMissing_mono (p content : string) (files : Files)
    (q : string) :
  is_Some (files !! q) -> is_Some (writeFileIfMissing p content files !! q).
Proof. intros [c H]. exists c. now apply writeFileIfMissing_keeps. Qed.

Lemma writeFileIfMissing_other (p content : string) (files : Files)
    (q : string) :
  q <> p -> writeFileIfMissing p content files !! q = files !! q.
Proof.
  intros H. unfold writeFileIfMissing. destruct (files !! p); [reflexivity|].
  now apply lookup_insert_ne.
Qed.

Section Host.
Variable resolveUserPath : string -> string.
Variable path_join : string -> string -> string.
Variable DEFAULT_AGENT_WORKSPACE_DIR : string.
Variable template : string -> string.

Abbreviation ensure :=
  (ensureAgentWorkspace resolveUserPath path_join DEFAULT_AGENT_WORKSPACE_DIR
     template).

(** X28. Making sure of the workspace never changes a file that exists:
    every file keeps its content, the six workspace files exist
    afterwards when bootstrap files were asked for, and doing it a second
    time changes nothing. *)
Theorem ensure_workspace_keeps_existing_files (params : option EnsureParams)
    (files : Files) :
  let after := (ensure params files).1 in
  (forall p c, files !! p = Some c -> after !! p = Some c)
  /\ (forall ps, (ensure params files).2.2 = Some ps ->
        Forall (fun p => is_Some (after !! p)) (probed ps))
  /\ (ensure params after).1 = after.
Proof.
  cbv zeta. unfold ensureAgentWorkspace.
  destruct (negb (default false (params ≫= ensureBootstrapFiles))) eqn:Hb;
    cbn [fst snd];
    [split; [auto|split; [discriminate|reflexivity]]|].
  set (ps := workspace_paths path_join
               (workspace_dir resolveUserPath DEFAULT_AGENT_WORKSPACE_DIR
                  params)).
  set (f1 := writeFileIfMissing (agentsPath ps) _ files).
  set (f2 := writeFileIfMissing (soulPath ps) _ f1).
  set (f3 := writeFileIfMissing (toolsPath ps) _ f2).
  set (f4 := writeFileIfMissing (identityPath ps) _ f3).
  set (f5 := writeFileIfMissing (userPath ps) _ f4).
  set (f6 := writeFileIfMissing (heartbeatPath ps) _ f5).
  set (brandNew := forallb _ (accessible files <$> probed ps)).
  set (f7 := if brandNew then writeFileIfMissing (bootstrapPath ps) _ f6
             else f6).
  assert (H67 : forall q, is_Some (f6 !! q) -> is_Some (f7 !! q)).
  { intros q H. subst f7. destruct brandNew; [|exact H].
    now apply writeFileIfMissing_mono. }
  assert (Hsix : Forall (fun p => is_Some (f7 !! p)) (probed ps)).
  { unfold probed. repeat constructor; apply H67; subst f6 f5 f4 f3 f2 f1;
      repeat first [ apply writeFileIfMissing_there
                   | apply writeFileIfMissing_mono ]. }
  split; [|split].
  - intros p c H. subst f7.
    assert (H6 : f6 !! p = Some c).
    { subst f6 f5 f4 f3 f2 f1.
      now repeat apply writeFileIfMissing_keeps. }
    destruct brandNew; [|exact H6]. now apply writeFileIfMissing_keeps.
  - now intros ? [= <-].
  - assert (Hold : forallb (fun v => negb v) (accessible f7 <$> probed ps)
                   = false).
    { cbn. inversion Hsix as [|? ? Ha _]; subst.
      unfold accessible at 1. now rewrite bool_decide_eq_true_2. }
    rewrite Hold.
    unfold probed in Hsix.
    repeat match goal with
           | H : Forall _ (_ :: _) |- _ => inversion H; clear H; subst
           end.
    repeat (rewrite (writeFileIfMissing_present _ _ f7) by assumption).
    reflexivity.
Qed.

(** X29. [BOOTSTRAP.md] is written only into a brand new workspace: with
    bootstrap files asked for, it is created exactly when none of the six
    workspace files existed and it did not exist itself; otherwise it is
    as before, so a bootstrap file that was deleted is not made again. *)
Theorem bootstrap_file_only_for_new_workspace (params : option EnsureParams)
    (files : Files) (ps : WorkspacePaths) :
  (ensure params files).2.2 = Some ps ->
  Forall (fun p => p <> bootstrapPath ps) (probed ps) ->
  (ensure params files).1 !! bootstrapPath ps
  = match files !! bootstrapPath ps with
    | Some c => Some c
    | None =>
        if forallb (fun p => bool_decide (files !! p = None)) (probed ps)
        then Some (template DEFAULT_BOOTSTRAP_FILENAME)
        else None
    end.
Proof.
  unfold ensureAgentWorkspace.
  destruct (negb (default false (params ≫= ensureBootstrapFiles)));
    [discriminate|]. cbn [fst snd]. intros [= <-].
  set (ps := workspace_paths path_join
               (workspace_dir resolveUserPath DEFAULT_AGENT_WORKSPACE_DIR
                  params)).
  intros Hne. unfold probed in Hne.
  repeat (apply Forall_cons in Hne as [? Hne]). cbn beta in *.
  assert (Hnew : forallb (fun v => negb v) (accessible files <$> probed ps)
                 = forallb (fun p => bool_decide (files !! p = None))
                     (probed ps)).
  { unfold probed. cbn [fmap list_fmap forallb]. unfold accessible.
    repeat (f_equal;
            try (match goal with
                 | |- negb (bool_decide (is_Some ?x)) = _ =>
                     destruct x; cbn; reflexivity
                 end)). }
  rewrite Hnew.
  set (brandNew := forallb _ (probed ps)).
  set (f6 := writeFileIfMissing (heartbeatPath ps) _ _).
  assert (Hsame : f6 !! bootstrapPath ps = files !! bootstrapPath ps).
  { subst f6. rewrite !writeFileIfMissing_other by congruence.
    reflexivity. }
  destruct brandNew.
  - unfold writeFileIfMissing at 1. rewrite Hsame.
    destruct (files !! bootstrapPath ps) eqn:E; [now rewrite Hsame|].
    apply lookup_insert_eq.
  - rewrite Hsame. now destruct (files !! bootstrapPath ps).
Qed.

End Host.

Lemma bootstrap_file_only_for_new_workspace_witness :
  (ensureAgentWorkspace (fun p => p) (fun d n => d +:+ "/" +:+ n) "/home/clawd"
     (fun name => "template of " +:+ name)
     (Some {| param_dir := Some " /ws "; ensureBootstrapFiles := Some true |})
     ∅).1 !! "/ws/BOOTSTRAP.md"
  = Some "template of BOOTSTRAP.md".
Proof.
  rewrite (bootstrap_file_only_for_new_workspace (fun p => p)
             (fun d n => d +:+ "/" +:+ n) "/home/clawd"
             (fun name => "template of " +:+ name)
             (Some {| param_dir := Some " /ws ";
                      ensureBootstrapFiles := Some true |}) ∅
             (workspace_paths (fun d n => d +:+ "/" +:+ n) "/ws")
             eq_refl).
  - reflexivity.
  - vm_compute. repeat constructor; discriminate.
Defined.

End WorkspaceProps.
